(** * JSONPathX playground: query builder, search, CSV export and analytics

    A shallow embedding of the algorithmic core of the playground
    (query-builder-utils.ts, search-utils.ts, csv-export.ts,
    analytics-utils.ts, the state updates of FilterBuilder.tsx and the
    usePerformanceAnalytics and useUrlState hooks), followed by the
    properties established for it.

    Conventions of the embedding.
    - A JavaScript string is a [string]: a sequence of code units, here the
      code units below 256.  White space and case folding are the ECMAScript
      ones restricted to that range.
    - A JavaScript number that the code only counts with or compares is an
      integer ([Z], [nat] for counters).  Execution times and the figures
      derived from them are exact rationals ([Q]) in the metrics and their
      statistics: the IEEE rounding of that arithmetic is outside the
      embedding, and the statements that depend on it say that they hold in
      exact arithmetic.  The histogram of [calculateDistribution], whose bins
      depend on the rounding, is modelled on IEEE 754 doubles.
    - A JavaScript object used as a record is the association list of its
      own properties, in their enumeration order.  The rows of the CSV
      export are written and read under computed keys; for them the
      properties inherited from [Object.prototype], its accessor [__proto__]
      among them, are modelled as well.
    - Local mutable variables (counters, accumulators) are threaded
      explicitly through the functions that update them. *)

From Stdlib Require Import String Ascii List Bool Arith ZArith QArith Qround Qabs.
From Stdlib Require Import Lia Lqa DecimalString Permutation Sorted SpecFloat.
Import ListNotations.

Set Warnings "-register-all".
Close Scope Q_scope.
Open Scope list_scope.
Open Scope string_scope.
Open Scope nat_scope.

(** * Part I: the embedding *)

(** [xs.push(x)] on an array. *)
Definition push {A : Type} (xs : list A) (x : A) : list A := xs ++ [x].

(** ** Strings *)

Definition chr (n : nat) : ascii := ascii_of_nat n.
Definition code (c : ascii) : nat := nat_of_ascii c.

(** [s.length === 0], the falsiness test [!s] on a string. *)
Definition is_empty (s : string) : bool :=
  match s with EmptyString => true | String _ _ => false end.

Fixpoint str_take (n : nat) (s : string) : string :=
  match n, s with
  | S n', String c s' => String c (str_take n' s')
  | _, _ => EmptyString
  end.

Fixpoint str_drop (n : nat) (s : string) : string :=
  match n, s with
  | S n', String _ s' => str_drop n' s'
  | _, _ => s
  end.

(** [s.substring(a, b)]: both indices are clamped to the length and swapped
    when out of order. *)
Definition substring (s : string) (a b : nat) : string :=
  let len := String.length s in
  let a' := Nat.min a len in
  let b' := Nat.min b len in
  let lo := Nat.min a' b' in
  let hi := Nat.max a' b' in
  str_take (hi - lo) (str_drop lo s).

(** [s.substring(a)]. *)
Definition substring_from (s : string) (a : nat) : string :=
  substring s a (String.length s).

(** [s.startsWith(p)] and [s.endsWith(p)]. *)
Definition startsWith (s p : string) : bool := String.prefix p s.

Definition endsWith (s p : string) : bool :=
  let ls := String.length s in
  let lp := String.length p in
  (lp <=? ls)%nat && String.eqb (str_drop (ls - lp) s) p.

(** [hay.indexOf(needle, pos)]: the least index [k >= pos] at which [needle]
    occurs in [hay]; [None] stands for -1.  [scan] walks the suffix of [hay]
    that starts at index [k]. *)
Fixpoint indexOf_scan (needle hay : string) (k : nat) : option nat :=
  if String.prefix needle hay then Some k
  else match hay with
       | EmptyString => None
       | String _ hay' => indexOf_scan needle hay' (S k)
       end.

Definition indexOf (hay needle : string) (pos : nat) : option nat :=
  let start := Nat.min pos (String.length hay) in
  indexOf_scan needle (str_drop start hay) start.

(** [hay.includes(needle)]. *)
Definition includes (hay needle : string) : bool :=
  match indexOf hay needle 0 with Some _ => true | None => false end.

(** [parts.join(sep)]. *)
Definition join (sep : string) (parts : list string) : string :=
  String.concat sep parts.

(** ECMAScript WhiteSpace and LineTerminator code units below 256: TAB, LF,
    VT, FF, CR, SP and NBSP. *)
Definition is_whitespace (c : ascii) : bool :=
  let n := code c in
  ((9 <=? n) && (n <=? 13) || (n =? 32) || (n =? 160))%nat.

Fixpoint trimStart (s : string) : string :=
  match s with
  | String c s' => if is_whitespace c then trimStart s' else s
  | EmptyString => EmptyString
  end.

(** Drops the trailing white space: a character is kept when it is not
    white space or when something is kept after it. *)
Fixpoint trimEnd (s : string) : string :=
  match s with
  | EmptyString => EmptyString
  | String c s' =>
      match trimEnd s' with
      | EmptyString => if is_whitespace c then EmptyString else String c EmptyString
      | r => String c r
      end
  end.

(** [s.trim()]. *)
Definition trim (s : string) : string := trimEnd (trimStart s).

(** [s.toLowerCase()] on code units below 256: A-Z and the Latin-1 capitals
    (0xC0-0xDE but the multiplication sign 0xD7) move up by 32. *)
Definition lower_char (c : ascii) : ascii :=
  let n := code c in
  if ((65 <=? n) && (n <=? 90)
      || (192 <=? n) && (n <=? 222) && negb (n =? 215))%nat
  then chr (n + 32) else c.

Fixpoint toLowerCase (s : string) : string :=
  match s with
  | EmptyString => EmptyString
  | String c s' => String (lower_char c) (toLowerCase s')
  end.

Definition is_digit (c : ascii) : bool :=
  let n := code c in ((48 <=? n) && (n <=? 57))%nat.

(** [String(n)] for an integer. *)
Definition string_of_Z (z : Z) : string := NilZero.string_of_int (Z.to_int z).
Definition string_of_nat (n : nat) : string := NilZero.string_of_uint (Nat.to_uint n).

(** ** Query builder (query-builder-utils.ts) *)

Inductive OperatorType : Set :=
  | OpEq | OpNe | OpLt | OpGt | OpLe | OpGe | OpContains | OpRegex | OpExists.

Inductive LogicalOperator : Set := AND | OR.

Record FilterCondition : Set := mkFilter {
  filter_id : string;
  filter_property : string;
  filter_operator : OperatorType;
  filter_value : string;
  filter_logicalOperator : option LogicalOperator
}.

(** [start], [end] and [step] of a slice; [None] is an absent field. *)
Record ArraySlice : Set := mkSlice {
  slice_start : option Z;
  slice_end : option Z;
  slice_step : option Z
}.

(** *** [isNaN(Number(text))]

    [Number] applied to a string follows the StringNumericLiteral grammar:
    the text is trimmed; the empty text is 0; otherwise it must be a signed
    decimal literal (digits with an optional fraction and exponent, or
    Infinity) or an unsigned 0x, 0o or 0b integer.  Anything else is NaN. *)

Fixpoint all_chars (p : ascii -> bool) (s : string) : bool :=
  match s with
  | EmptyString => true
  | String c s' => p c && all_chars p s'
  end.

Fixpoint count_leading (p : ascii -> bool) (s : string) : nat :=
  match s with
  | String c s' => if p c then S (count_leading p s') else 0
  | EmptyString => 0
  end.

Fixpoint drop_leading (p : ascii -> bool) (s : string) : string :=
  match s with
  | String c s' => if p c then drop_leading p s' else s
  | EmptyString => EmptyString
  end.

Definition is_hex_digit (c : ascii) : bool :=
  let n := code c in
  (is_digit c || (65 <=? n) && (n <=? 70) || (97 <=? n) && (n <=? 102))%nat.

Definition is_octal_digit (c : ascii) : bool :=
  let n := code c in ((48 <=? n) && (n <=? 55))%nat.

Definition is_binary_digit (c : ascii) : bool :=
  let n := code c in ((48 <=? n) && (n <=? 49))%nat.

Definition nonempty_all (p : ascii -> bool) (s : string) : bool :=
  negb (is_empty s) && all_chars p s.

(** NonDecimalIntegerLiteral. *)
Definition is_non_decimal_literal (s : string) : bool :=
  match s with
  | String "0" (String r digits) =>
      if (Ascii.eqb r "x" || Ascii.eqb r "X")%char then nonempty_all is_hex_digit digits
      else if (Ascii.eqb r "o" || Ascii.eqb r "O")%char then nonempty_all is_octal_digit digits
      else if (Ascii.eqb r "b" || Ascii.eqb r "B")%char then nonempty_all is_binary_digit digits
      else false
  | _ => false
  end.

Definition strip_sign (s : string) : string :=
  match s with
  | String c s' => if (Ascii.eqb c "+" || Ascii.eqb c "-")%char then s' else s
  | EmptyString => s
  end.

(** The text that follows the mantissa: nothing, or an ExponentPart. *)
Definition is_exponent_opt (s : string) : bool :=
  match s with
  | EmptyString => true
  | String c s' =>
      (Ascii.eqb c "e" || Ascii.eqb c "E")%char
      && nonempty_all is_digit (strip_sign s')
  end.

(** StrUnsignedDecimalLiteral. *)
Definition is_unsigned_decimal_literal (s : string) : bool :=
  String.eqb s "Infinity"
  || let n1 := count_leading is_digit s in
     match drop_leading is_digit s with
     | String "." frac =>
         let n2 := count_leading is_digit frac in
         (0 <? n1 + n2)%nat && is_exponent_opt (drop_leading is_digit frac)
     | rest => (0 <? n1)%nat && is_exponent_opt rest
     end.

Definition is_string_numeric_literal (s : string) : bool :=
  let t := trim s in
  is_empty t || is_non_decimal_literal t
  || is_unsigned_decimal_literal (strip_sign t).

Definition isNaN_Number (s : string) : bool :=
  negb (is_string_numeric_literal s).

(** *** generateFilterExpression *)

(** The callback of [filters.map]: the text of the condition at [index]. *)
Definition filter_condition (index : nat) (filter : FilterCondition) : string :=
  let condition :=
    match filter_logicalOperator filter with
    | Some lop =>
        if (0 <? index)%nat
        then match lop with AND => " && " | OR => " || " end
        else ""
    | None => ""
    end in
  let prop := "@." ++ filter_property filter in
  let value :=
    if isNaN_Number (filter_value filter)
    then "'" ++ filter_value filter ++ "'"
    else filter_value filter in
  match filter_operator filter with
  | OpEq => condition ++ prop ++ " == " ++ value
  | OpNe => condition ++ prop ++ " != " ++ value
  | OpLt => condition ++ prop ++ " < " ++ value
  | OpGt => condition ++ prop ++ " > " ++ value
  | OpLe => condition ++ prop ++ " <= " ++ value
  | OpGe => condition ++ prop ++ " >= " ++ value
  | OpContains => condition ++ prop ++ " =~ /" ++ filter_value filter ++ "/i"
  | OpRegex => condition ++ prop ++ " =~ /" ++ filter_value filter ++ "/"
  | OpExists => condition ++ prop
  end.

(** [xs.map((x, index) => f(index, x))], with the index of the head. *)
Fixpoint map_indexed {A B : Type} (f : nat -> A -> B) (index : nat) (xs : list A) : list B :=
  match xs with
  | [] => []
  | x :: xs' => f index x :: map_indexed f (S index) xs'
  end.

Definition generateFilterExpression (filters : list FilterCondition) : string :=
  if (List.length filters =? 0)%nat then ""
  else
    let conditions := join "" (map_indexed filter_condition 0 filters) in
    "[?(" ++ conditions ++ ")]".

(** *** generateArraySlice *)

(** [`${x}`] for [x = field ?? '']. *)
Definition slice_bound_text (x : option Z) : string :=
  match x with Some n => string_of_Z n | None => "" end.

(** Truthiness of an optional integer: absent and 0 are falsy. *)
Definition truthy_int (x : option Z) : bool :=
  match x with Some n => negb (n =? 0)%Z | None => false end.

(** [x !== ''] for [x = field ?? '']. *)
Definition not_empty_text (x : option Z) : bool :=
  match x with Some _ => true | None => false end.

Definition generateArraySlice (slice : ArraySlice) : string :=
  let start := slice_start slice in
  let end_ := slice_end slice in
  let step := slice_step slice in
  if truthy_int step then
    "[" ++ slice_bound_text start ++ ":" ++ slice_bound_text end_ ++ ":"
        ++ slice_bound_text step ++ "]"
  else if not_empty_text start || not_empty_text end_ then
    "[" ++ slice_bound_text start ++ ":" ++ slice_bound_text end_ ++ "]"
  else "[*]".

(** *** buildJsonPathQuery *)

Definition buildJsonPathQuery (rootPath : string) (selectedPath : list string)
    (filters : list FilterCondition) (arraySlice : option ArraySlice)
    (recursiveDescent : bool) : string :=
  let query := if is_empty rootPath then "$" else rootPath in
  let query :=
    if recursiveDescent && (0 <? List.length selectedPath)%nat
    then query ++ ".." else query in
  let query :=
    if (0 <? List.length selectedPath)%nat then
      let pathStr := join "." selectedPath in
      if endsWith query "$" then query ++ "." ++ pathStr
      else if negb (endsWith query "..") then query ++ "." ++ pathStr
      else query ++ pathStr
    else query in
  let query :=
    match arraySlice with
    | Some slice => query ++ generateArraySlice slice
    | None => query
    end in
  let query :=
    if (0 <? List.length filters)%nat
    then query ++ generateFilterExpression filters
    else query in
  query.

(** *** isValidJsonPath *)

Definition is_open_bracket (c : ascii) : bool :=
  (Ascii.eqb c "[" || Ascii.eqb c "(")%char.

Definition is_close_bracket (c : ascii) : bool :=
  (Ascii.eqb c "]" || Ascii.eqb c ")")%char.

(** [query.match(/[\[\]()]/g) || []]: the bracket characters, in order. *)
Fixpoint match_brackets (query : string) : list ascii :=
  match query with
  | EmptyString => []
  | String c rest =>
      if is_open_bracket c || is_close_bracket c
      then c :: match_brackets rest
      else match_brackets rest
  end.

(** The [for] loop over the brackets; [None] is the early [return false]. *)
Fixpoint scan_brackets (brackets : list ascii) (depth : Z) : option Z :=
  match brackets with
  | [] => Some depth
  | bracket :: rest =>
      let depth := if is_open_bracket bracket then (depth + 1)%Z else depth in
      let depth := if is_close_bracket bracket then (depth - 1)%Z else depth in
      if (depth <? 0)%Z then None else scan_brackets rest depth
  end.

Definition isValidJsonPath (query : string) : bool :=
  if is_empty query then false
  else if negb (startsWith query "$") && negb (startsWith query "@") then false
  else
    match scan_brackets (match_brackets query) 0 with
    | None => false
    | Some depth => (depth =? 0)%Z
    end.

(** What one character adds to the depth. *)
Definition bracket_delta (c : ascii) : Z :=
  if is_open_bracket c then 1%Z else if is_close_bracket c then (-1)%Z else 0%Z.

(** The balance check as the specification words it: the running depth over
    the whole text, counting up on an opening and down on a closing
    bracket. *)
Fixpoint running_depth (text : string) : Z :=
  match text with
  | EmptyString => 0%Z
  | String c rest =>
      (bracket_delta c + running_depth rest)%Z
  end.

Definition balanced (text : string) : Prop :=
  (forall n : nat, (0 <= running_depth (str_take n text))%Z)
  /\ running_depth text = 0%Z.

(** *** The filter clause and the slice notation as the specification words
    them *)

(** The comparison value: bare when [Number] makes a number of it, between
    single quotes otherwise. *)
Definition spec_comparison_value (v : string) : string :=
  if isNaN_Number v then "'" ++ v ++ "'" else v.

(** The symbol of a comparison operator. *)
Definition spec_comparison_symbol (op : OperatorType) : option string :=
  match op with
  | OpEq => Some "=="
  | OpNe => Some "!="
  | OpLt => Some "<"
  | OpGt => Some ">"
  | OpLe => Some "<="
  | OpGe => Some ">="
  | OpContains | OpRegex | OpExists => None
  end.

(** The fragment of one condition, without its separator: a comparison
    reads property, symbol, comparison value; the two regular expression
    tests put the stored value between slashes; [exists] is the bare
    property. *)
Definition spec_fragment (c : FilterCondition) : string :=
  let prop := "@." ++ filter_property c in
  match spec_comparison_symbol (filter_operator c) with
  | Some symbol =>
      prop ++ " " ++ symbol ++ " " ++ spec_comparison_value (filter_value c)
  | None =>
      match filter_operator c with
      | OpContains => prop ++ " =~ /" ++ filter_value c ++ "/i"
      | OpRegex => prop ++ " =~ /" ++ filter_value c ++ "/"
      | _ => prop
      end
  end.

Definition spec_separator (lop : LogicalOperator) : string :=
  match lop with AND => " && " | OR => " || " end.

(** The whole clause for a first condition and the conditions after it, each
    of these with the logical operator it carries. *)
Definition spec_filter_clause (first : FilterCondition)
    (rest : list (LogicalOperator * FilterCondition)) : string :=
  "[?(" ++ spec_fragment first
    ++ String.concat EmptyString
         (map (fun oc => spec_separator (fst oc) ++ spec_fragment (snd oc)) rest)
    ++ ")]".

(** The slice notation: three parts when [step] is set, two when only
    [start] or [end] are, the wildcard when the three are absent. *)
Definition spec_slice_notation (slice : ArraySlice) : string :=
  match slice_step slice with
  | Some step =>
      "[" ++ slice_bound_text (slice_start slice) ++ ":"
          ++ slice_bound_text (slice_end slice) ++ ":" ++ string_of_Z step ++ "]"
  | None =>
      match slice_start slice, slice_end slice with
      | None, None => "[*]"
      | start, end_ =>
          "[" ++ slice_bound_text start ++ ":" ++ slice_bound_text end_ ++ "]"
      end
  end.

(** A step that counts as set for the synthesizer: present and not 0. *)
Definition effective_step (slice : ArraySlice) : option Z :=
  match slice_step slice with
  | Some step => if (step =? 0)%Z then None else Some step
  | None => None
  end.

(** ** JSON values *)

(** The values the utilities receive: JSON values and [undefined].  A number
    is an integer; the entries of an object are listed in the enumeration
    order of [Object.keys], with pairwise distinct keys. *)
Inductive JSON : Type :=
  | JUndefined
  | JNull
  | JBool (b : bool)
  | JNum (n : Z)
  | JStr (s : string)
  | JArr (items : list JSON)
  | JObj (entries : list (string * JSON)).

(** ** Schema analysis (query-builder-utils.ts) *)

(** The results of [getType]: the six declared kinds, and ['undefined'],
    which [typeof] yields although the declared union leaves it out. *)
Inductive FieldType : Set :=
  | TObject | TArray | TString | TNumber | TBoolean | TNull | TUndefined.

(** [field_children = None] is an absent [children]; [field_isArray = false]
    an absent [isArray]. *)
Inductive FieldNode : Type := mkField {
  field_name : string;
  field_path : string;
  field_type : FieldType;
  field_children : option (list FieldNode);
  field_isArray : bool;
  field_arrayItemType : option FieldType
}.

Record SchemaAnalysis : Type := mkSchema {
  schema_fields : list FieldNode;
  schema_depth : nat;
  schema_totalFields : nat
}.

(** The variables [totalFields] and [maxDepthReached] of one call of
    [analyzeSchema], updated by every call of [analyzeValue]. *)
Record Counters : Set := mkCounters {
  totalFields : nat;
  maxDepthReached : nat
}.

Definition getType (value : JSON) : FieldType :=
  match value with
  | JNull => TNull
  | JArr _ => TArray
  | JUndefined => TUndefined
  | JBool _ => TBoolean
  | JNum _ => TNumber
  | JStr _ => TString
  | JObj _ => TObject
  end.

(** [if (childNode) children.push(childNode)]. *)
Definition push_node (children : list FieldNode) (childNode : option FieldNode) : list FieldNode :=
  match childNode with
  | Some node => push children node
  | None => children
  end.

(** [Object.keys(o).forEach(key => ... analyze(o[key], key) ...)] over the
    entries of an object: the children pushed so far and the counters are
    carried from one key to the next. *)
Definition forEach_entry
    (analyze : JSON -> string -> Counters -> option FieldNode * Counters) :=
  fix each (entries : list (string * JSON)) (children : list FieldNode)
      (st : Counters) {struct entries} : list FieldNode * Counters :=
    match entries with
    | [] => (children, st)
    | (key, v) :: rest =>
        let '(childNode, st) := analyze v key st in
        each rest (push_node children childNode) st
    end.

(** The same loop over an array, whose keys are its indices. *)
Definition forEach_index
    (analyze : JSON -> string -> Counters -> option FieldNode * Counters) :=
  fix each (items : list JSON) (index : nat) (children : list FieldNode)
      (st : Counters) {struct items} : list FieldNode * Counters :=
    match items with
    | [] => (children, st)
    | v :: rest =>
        let '(childNode, st) := analyze v (string_of_nat index) st in
        each rest (S index) (push_node children childNode) st
    end.

Fixpoint analyzeValue (maxDepth : Z) (value : JSON) (name path : string)
    (depth : nat) (st : Counters) {struct value} : option FieldNode * Counters :=
  if (Z.of_nat depth >? maxDepth)%Z then (None, st)
  else
    let st := mkCounters (S (totalFields st)) (Nat.max (maxDepthReached st) depth) in
    let type := getType value in
    match value with
    | JArr [] => (Some (mkField name path type None true None), st)
    | JArr (firstItem :: _) =>
        let itemType := Some (getType firstItem) in
        let child v key st :=
          analyzeValue maxDepth v key (path ++ "[*]." ++ key) (S depth) st in
        match firstItem with
        | JObj entries =>
            let '(children, st) := forEach_entry child entries [] st in
            (Some (mkField name path type (Some children) true itemType), st)
        | JArr items =>
            let '(children, st) := forEach_index child items 0 [] st in
            (Some (mkField name path type (Some children) true itemType), st)
        | _ => (Some (mkField name path type None true itemType), st)
        end
    | JObj entries =>
        let child v key st :=
          analyzeValue maxDepth v key
            (if is_empty path then key else path ++ "." ++ key) (S depth) st in
        let '(children, st) := forEach_entry child entries [] st in
        (Some (mkField name path type (Some children) false None), st)
    | _ => (Some (mkField name path type None false None), st)
    end.

Definition analyzeSchema (data : JSON) (maxDepth : Z) : SchemaAnalysis :=
  let st := mkCounters 0 0 in
  match data with
  | JArr _ =>
      let '(rootNode, st) := analyzeValue maxDepth data "root" "$" 0 st in
      let fields :=
        match rootNode with
        | Some node =>
            match field_children node with
            | Some children => children
            | None => []
            end
        | None => []
        end in
      mkSchema fields (maxDepthReached st) (totalFields st)
  | JObj entries =>
      let '(fields, st) :=
        forEach_entry (fun v key st => analyzeValue maxDepth v key ("$." ++ key) 0 st)
          entries [] st in
      mkSchema fields (maxDepthReached st) (totalFields st)
  | _ => mkSchema [] (maxDepthReached st) (totalFields st)
  end.

(** The size of a schema forest and the depth of its deepest level, the
    nodes of the forest itself being at depth [d]. *)
Fixpoint node_count (node : FieldNode) : nat :=
  S (match field_children node with
     | Some children =>
         (fix sum (l : list FieldNode) : nat :=
            match l with [] => 0 | c :: l' => node_count c + sum l' end) children
     | None => 0
     end).

Definition forest_count (nodes : list FieldNode) : nat :=
  list_sum (map node_count nodes).

(** Every node of the tree, the root being at depth [d], is at a depth that
    does not exceed [maxDepth]. *)
Fixpoint node_within (maxDepth : Z) (d : nat) (node : FieldNode) : Prop :=
  (Z.of_nat d <= maxDepth)%Z
  /\ match field_children node with
     | Some children =>
         (fix all (l : list FieldNode) : Prop :=
            match l with
            | [] => True
            | c :: l' => node_within maxDepth (S d) c /\ all l'
            end) children
     | None => True
     end.

Definition forest_within (maxDepth : Z) (d : nat) (nodes : list FieldNode) : Prop :=
  Forall (node_within maxDepth d) nodes.

(** The depth of the top-level fields of the result: the children of a root
    array are one level below the root, the fields of a root object are at
    the root level. *)
Definition root_level (data : JSON) : nat :=
  match data with JArr _ => 1 | _ => 0 end.

(** The nodes created besides the listed fields: the root node of a root
    array. *)
Definition root_nodes (data : JSON) : nat :=
  match data with JArr _ => 1 | _ => 0 end.

(** What one call of [analyzeValue] at depth [d] does to the counters [st]
    it starts from: [totalFields] grows by the size of the tree it returns,
    every node of that tree is within the bound, and a [maxDepthReached]
    within the bound stays within it. *)
Definition call_ok (maxDepth : Z) (d : nat) (st : Counters)
    (r : option FieldNode * Counters) : Prop :=
  totalFields (snd r)
  = totalFields st + match fst r with Some node => node_count node | None => 0 end
  /\ match fst r with Some node => node_within maxDepth d node | None => True end
  /\ ((Z.of_nat (maxDepthReached st) <= maxDepth)%Z ->
      (Z.of_nat (maxDepthReached (snd r)) <= maxDepth)%Z).

(** What a loop over the keys does to the children and the counters it
    starts from, when every call it makes behaves. *)
Definition loop_ok (maxDepth : Z) (d : nat) (children : list FieldNode)
    (st : Counters) (r : list FieldNode * Counters) : Prop :=
  exists new : list FieldNode,
    fst r = (children ++ new)%list
    /\ totalFields (snd r) = totalFields st + forest_count new
    /\ forest_within maxDepth d new
    /\ ((Z.of_nat (maxDepthReached st) <= maxDepth)%Z ->
        (Z.of_nat (maxDepthReached (snd r)) <= maxDepth)%Z).

Definition analyze_ok (maxDepth : Z) (value : JSON) : Prop :=
  forall (name path : string) (depth : nat) (st : Counters),
    call_ok maxDepth depth st (analyzeValue maxDepth value name path depth st).

(** The node built by [analyzeValue] does not depend on the counters. *)
Definition counters_free
    (analyze : JSON -> string -> Counters -> option FieldNode * Counters)
    (v : JSON) : Prop :=
  forall (key : string) (st st' : Counters),
    fst (analyze v key st) = fst (analyze v key st').

Definition node_counters_free (maxDepth : Z) (value : JSON) : Prop :=
  forall (name path : string) (depth : nat) (st st' : Counters),
    fst (analyzeValue maxDepth value name path depth st)
    = fst (analyzeValue maxDepth value name path depth st').

(** ** [String(value)] and [JSON.stringify(value)] *)

(** [String(value)]: a primitive prints as itself; an array joins the
    prints of its items with commas, [null] and [undefined] items printing
    as nothing; an object prints as [[object Object]]. *)
Fixpoint String_of (value : JSON) : string :=
  match value with
  | JUndefined => "undefined"
  | JNull => "null"
  | JBool b => if b then "true" else "false"
  | JNum n => string_of_Z n
  | JStr s => s
  | JArr items =>
      join ","
        ((fix each (items : list JSON) : list string :=
            match items with
            | [] => []
            | item :: rest =>
                match item with
                | JUndefined | JNull => EmptyString
                | _ => String_of item
                end :: each rest
            end) items)
  | JObj _ => "[object Object]"
  end.

Definition quote_char : ascii := chr 34.
Definition backslash : ascii := chr 92.
Definition newline : string := String (chr 10) EmptyString.
Definition carriage_return : string := String (chr 13) EmptyString.
Definition quote_mark : string := String quote_char EmptyString.

Definition hex_digit (n : nat) : ascii :=
  if n <? 10 then chr (48 + n) else chr (87 + n).

(** The escape of one code unit inside a JSON string literal. *)
Definition json_escape_char (c : ascii) : string :=
  let n := code c in
  let esc (x : ascii) := String backslash (String x EmptyString) in
  if n =? 34 then esc quote_char
  else if n =? 92 then esc backslash
  else if n =? 8 then esc "b"%char
  else if n =? 9 then esc "t"%char
  else if n =? 10 then esc "n"%char
  else if n =? 12 then esc "f"%char
  else if n =? 13 then esc "r"%char
  else if n <? 32 then
    String backslash
      (String "u" (String "0" (String "0"
         (String (hex_digit (n / 16)) (String (hex_digit (n mod 16)) EmptyString)))))
  else String c EmptyString.

Fixpoint json_escape (s : string) : string :=
  match s with
  | EmptyString => EmptyString
  | String c s' => json_escape_char c ++ json_escape s'
  end.

Definition json_quote (s : string) : string :=
  quote_mark ++ json_escape s ++ quote_mark.

(** [JSON.stringify(value)]; [None] is the result [undefined].  Inside an
    array [undefined] prints as [null]; inside an object the property is left
    out. *)
Fixpoint JSON_stringify (value : JSON) : option string :=
  match value with
  | JUndefined => None
  | JNull => Some "null"
  | JBool b => Some (if b then "true" else "false")
  | JNum n => Some (string_of_Z n)
  | JStr s => Some (json_quote s)
  | JArr items =>
      Some ("[" ++ join ","
        ((fix each (items : list JSON) : list string :=
            match items with
            | [] => []
            | item :: rest =>
                match JSON_stringify item with
                | Some text => text
                | None => "null"
                end :: each rest
            end) items) ++ "]")
  | JObj entries =>
      Some ("{" ++ join ","
        ((fix each (entries : list (string * JSON)) : list string :=
            match entries with
            | [] => []
            | (key, v) :: rest =>
                match JSON_stringify v with
                | Some text => (json_quote key ++ ":" ++ text) :: each rest
                | None => each rest
                end
            end) entries) ++ "}")
  end.

(** ** Search (search-utils.ts) *)

Record SearchMatch : Type := mkMatch {
  match_path : list string;
  match_value : JSON;
  match_matchedText : string
}.

(** The path token of an array index: the index between square brackets. *)
Definition index_token (index : nat) : string :=
  "[" ++ string_of_nat index ++ "]".

(** The test of a primitive, [null] or [undefined] against the term. *)
Definition search_leaf (caseSensitive : bool) (searchNormalized : string)
    (value : JSON) (path : list string) (matches : list SearchMatch)
    : list SearchMatch :=
  let stringValue := String_of value in
  let compareValue := if caseSensitive then stringValue else toLowerCase stringValue in
  if includes compareValue searchNormalized
  then push matches (mkMatch path value stringValue)
  else matches.

(** [searchValue]; the array [matches] it pushes to is passed along. *)
Fixpoint searchValue (caseSensitive : bool) (searchNormalized : string)
    (value : JSON) (path : list string) (matches : list SearchMatch)
    {struct value} : list SearchMatch :=
  match value with
  | JArr items =>
      (fix each (items : list JSON) (index : nat) (matches : list SearchMatch)
           {struct items} : list SearchMatch :=
         match items with
         | [] => matches
         | item :: rest =>
             each rest (S index)
               (searchValue caseSensitive searchNormalized item
                  (path ++ [index_token index])%list matches)
         end) items 0 matches
  | JObj entries =>
      (fix each (entries : list (string * JSON)) (matches : list SearchMatch)
           {struct entries} : list SearchMatch :=
         match entries with
         | [] => matches
         | (key, val) :: rest =>
             let keyCompare := if caseSensitive then key else toLowerCase key in
             let matches :=
               if includes keyCompare searchNormalized
               then push matches (mkMatch (path ++ [key])%list val key)
               else matches in
             each rest
               (searchValue caseSensitive searchNormalized val (path ++ [key])%list matches)
         end) entries matches
  | _ => search_leaf caseSensitive searchNormalized value path matches
  end.

Definition recursiveSearch (data : JSON) (searchTerm : string)
    (caseSensitive : bool) (currentPath : list string) : list SearchMatch :=
  if is_empty searchTerm then []
  else
    let searchNormalized :=
      if caseSensitive then searchTerm else toLowerCase searchTerm in
    searchValue caseSensitive searchNormalized data currentPath [].

Definition filterResults (results : list JSON) (searchTerm : string)
    (caseSensitive : bool) : list JSON :=
  if is_empty searchTerm then results
  else
    map snd
      (filter
         (fun ir : nat * JSON =>
            0 <? List.length
                   (recursiveSearch (snd ir) searchTerm caseSensitive
                      [index_token (fst ir)]))
         (combine (seq 0 (List.length results)) results)).

(** *** highlightText *)

Record Segment : Set := mkSegment {
  segment_text : string;
  segment_isMatch : bool
}.

(** The [while (index !== -1)] loop: [index] is the result of the last
    [indexOf] ([None] for -1), [lastIndex] and [segments] the variables of
    that name.  Each round uses one unit of [fuel]; [None] means the fuel did
    not last until [indexOf] failed. *)
Fixpoint highlight_loop (fuel : nat) (text textNormalized searchNormalized : string)
    (termLength : nat) (index : option nat) (lastIndex : nat)
    (segments : list Segment) : option (list Segment * nat) :=
  match index with
  | None => Some (segments, lastIndex)
  | Some index =>
      match fuel with
      | 0 => None
      | S fuel' =>
          let segments :=
            if lastIndex <? index
            then push segments (mkSegment (substring text lastIndex index) false)
            else segments in
          let segments :=
            push segments (mkSegment (substring text index (index + termLength)) true) in
          let lastIndex := index + termLength in
          highlight_loop fuel' text textNormalized searchNormalized termLength
            (indexOf textNormalized searchNormalized lastIndex) lastIndex segments
      end
  end.

(** [lower] is the case folding, [toLowerCase] in the program. *)
Definition highlightText_with (lower : string -> string) (text searchTerm : string)
    (caseSensitive : bool) : option (list Segment) :=
  if is_empty searchTerm || is_empty text then Some [mkSegment text false]
  else
    let searchNormalized := if caseSensitive then searchTerm else lower searchTerm in
    let textNormalized := if caseSensitive then text else lower text in
    match
      highlight_loop (String.length textNormalized) text textNormalized searchNormalized
        (String.length searchTerm)
        (indexOf textNormalized searchNormalized 0) 0 []
    with
    | None => None
    | Some (segments, lastIndex) =>
        Some (if lastIndex <? String.length text
              then push segments (mkSegment (substring_from text lastIndex) false)
              else segments)
    end.

Definition highlightText : string -> string -> bool -> option (list Segment) :=
  highlightText_with toLowerCase.

(** The texts of the segments, one after the other. *)
Definition segments_text (segments : list Segment) : string :=
  join EmptyString (map segment_text segments).

(** ** CSV export (csv-export.ts) *)

(** The own properties of a flattened row, a [Record<string, unknown>]: an
    association list with pairwise distinct keys, in the order in which the
    keys were set.  (The program counts these keys, or collects and sorts
    them; it does not observe their order.) *)
Definition FlatRow : Type := list (string * JSON).

(** The own property [key] is given the value [v]: an existing key keeps its
    place and takes the new value; a new key goes last. *)
Fixpoint row_define (key : string) (v : JSON) (row : FlatRow) : FlatRow :=
  match row with
  | [] => [(key, v)]
  | (k, w) :: row' =>
      if String.eqb k key then (k, v) :: row'
      else (k, w) :: row_define key v row'
  end.

(** [row[key] = v] on a row made by [const flattened = {}], whose prototype
    is [Object.prototype].  The key [__proto__] names the accessor that the
    row inherits: the assignment calls its setter and defines no property.
    The setter does nothing with a value that is neither an object nor
    [null], and [flattenObject] assigns no object; with [null] it takes the
    prototype of the row away, which [keeps_prototype] records.  (A row
    without prototype would take [__proto__] as a property; no row is
    assigned that key twice, the keys of an object being pairwise
    distinct.) *)
Definition row_set (key : string) (v : JSON) (row : FlatRow) : FlatRow :=
  if String.eqb key "__proto__" then row else row_define key v row.

(** The own property [key] of a row, if there is one. *)
Fixpoint row_get (key : string) (row : FlatRow) : option JSON :=
  match row with
  | [] => None
  | (k, w) :: row' => if String.eqb k key then Some w else row_get key row'
  end.

(** [Object.assign(target, source)]: every own property of [source] is
    assigned to [target] as by [target[key] = v]. *)
Definition row_assign (target source : FlatRow) : FlatRow :=
  fold_left (fun acc kv => row_set (fst kv) (snd kv) acc) source target.

(** [Object.keys(row)]. *)
Definition row_keys (row : FlatRow) : list string := map fst row.

(** [prefix || 'value']. *)
Definition prefix_or_value (prefix : string) : string :=
  if is_empty prefix then "value" else prefix.

(** The value [JSON.stringify(v)] as it is stored in a cell. *)
Definition stringified (v : JSON) : JSON :=
  match JSON_stringify v with
  | Some text => JStr text
  | None => JUndefined
  end.

Fixpoint flattenObject (obj : JSON) (prefix : string) (maxDepth : Z)
    (currentDepth : nat) {struct obj} : FlatRow :=
  if (Z.of_nat currentDepth >=? maxDepth)%Z
  then [(prefix_or_value prefix, stringified obj)]
  else
    match obj with
    | JNull | JUndefined => [(prefix_or_value prefix, obj)]
    | JBool _ | JNum _ | JStr _ => [(prefix_or_value prefix, obj)]
    | JArr _ => [(prefix_or_value prefix, stringified obj)]
    | JObj entries =>
        (fix each (entries : list (string * JSON)) (flattened : FlatRow)
             {struct entries} : FlatRow :=
           match entries with
           | [] => flattened
           | (key, value) :: rest =>
               let newKey := if is_empty prefix then key else prefix ++ "." ++ key in
               let flattened :=
                 match value with
                 | JNull | JUndefined => row_set newKey value flattened
                 | JObj _ =>
                     row_assign flattened
                       (flattenObject value newKey maxDepth (S currentDepth))
                 | JArr _ => row_set newKey (stringified value) flattened
                 | _ => row_set newKey value flattened
                 end in
               each rest flattened
           end) entries []
    end.

(** The global [replace] of [escapeCsvValue]: every double quote of
    [strValue] is doubled. *)
Fixpoint double_quotes (s : string) : string :=
  match s with
  | EmptyString => EmptyString
  | String c s' =>
      if Ascii.eqb c quote_char
      then String quote_char (String quote_char (double_quotes s'))
      else String c (double_quotes s')
  end.

(** [escapeCsvValue] from [String(value)] on: the text is put in quotes when
    it holds a comma, a line break or a quote. *)
Definition escape_text (strValue : string) : string :=
  let needsQuotes :=
    includes strValue ","
    || includes strValue newline
    || includes strValue carriage_return
    || includes strValue quote_mark in
  if needsQuotes
  then quote_mark ++ double_quotes strValue ++ quote_mark
  else strValue.

(** [escapeCsvValue(value)] on a JSON value; [None] is [undefined]. *)
Definition escapeCsvValue (value : option JSON) : string :=
  match value with
  | None | Some JNull | Some JUndefined => EmptyString
  | Some v => escape_text (String_of v)
  end.

(** The properties that a row inherits from [Object.prototype]: the key and
    the name of the built-in function found under it.  The accessor
    [__proto__] is the one inherited property that is not a function. *)
Definition Object_prototype : list (string * string) :=
  [("constructor", "Object");
   ("hasOwnProperty", "hasOwnProperty");
   ("isPrototypeOf", "isPrototypeOf");
   ("propertyIsEnumerable", "propertyIsEnumerable");
   ("toLocaleString", "toLocaleString");
   ("toString", "toString");
   ("valueOf", "valueOf");
   ("__defineGetter__", "__defineGetter__");
   ("__defineSetter__", "__defineSetter__");
   ("__lookupGetter__", "__lookupGetter__");
   ("__lookupSetter__", "__lookupSetter__")].

Fixpoint inherited_function (key : string) (members : list (string * string))
    : option string :=
  match members with
  | [] => None
  | (k, name) :: members' =>
      if String.eqb k key then Some name else inherited_function key members'
  end.

(** What [row[key]] reads: an own property; failing that, on a row that has
    its prototype, a function of [Object.prototype] or, under [__proto__],
    [Object.prototype] itself; [undefined] otherwise. *)
Inductive Member : Set :=
  | Own (v : JSON)
  | BuiltinFunction (name : string)
  | ThePrototype
  | Undefined.

(** The object that [flattenObject] returns to [jsonToCsv]: its own
    properties, and whether its prototype is still [Object.prototype]. *)
Record Flattened : Type := mkFlattened {
  own_properties : FlatRow;
  has_prototype : bool
}.

Definition row_member (row : Flattened) (key : string) : Member :=
  match row_get key (own_properties row) with
  | Some v => Own v
  | None =>
      if negb (has_prototype row) then Undefined
      else if String.eqb key "__proto__" then ThePrototype
      else match inherited_function key Object_prototype with
           | Some name => BuiltinFunction name
           | None => Undefined
           end
  end.

Definition is_null (v : JSON) : bool :=
  match v with JNull => true | _ => false end.

(** Whether the row [flattenObject(item, '', maxDepth)] still has its
    prototype.  It has lost it when the loop over the entries of [item] has
    assigned [null] to [__proto__]: [item] is a plain object with the entry
    [__proto__: null] and the depth bound is not reached at once.  (The
    other rows are object literals, or an object whose [__proto__] was
    assigned a primitive value or a JSON text at most.) *)
Definition keeps_prototype (item : JSON) (maxDepth : Z) : bool :=
  if (0 >=? maxDepth)%Z then true
  else
    match item with
    | JObj entries =>
        negb (existsb
                (fun kv => String.eqb (fst kv) "__proto__" && is_null (snd kv))
                entries)
    | _ => true
    end.

Record CsvExportOptions : Set := mkCsvOptions {
  csv_maxDepth : option Z;
  csv_includeRowNumbers : option bool
}.

(** [flattenObject(item, '', maxDepth)] as [jsonToCsv] calls it. *)
Definition flattened_item (maxDepth : Z) (item : JSON) : Flattened :=
  mkFlattened (flattenObject item EmptyString maxDepth 0)
    (keeps_prototype item maxDepth).

(** [allKeys.add(key)] on a [Set], kept in insertion order. *)
Definition set_add_key (keys : list string) (key : string) : list string :=
  if existsb (String.eqb key) keys then keys else push keys key.

(** The default comparison of [sort]: code unit by code unit, a proper prefix
    first. *)
Fixpoint str_ltb (a b : string) : bool :=
  match a, b with
  | _, EmptyString => false
  | EmptyString, String _ _ => true
  | String x a', String y b' =>
      if code x <? code y then true
      else if code y <? code x then false
      else str_ltb a' b'
  end.

(** [keys.sort()]: a stable insertion of each key in turn. *)
Fixpoint sort_insert (key : string) (sorted : list string) : list string :=
  match sorted with
  | [] => [key]
  | k :: sorted' =>
      if str_ltb key k then key :: sorted
      else k :: sort_insert key sorted'
  end.

Definition sort_keys (keys : list string) : list string :=
  fold_left (fun sorted key => sort_insert key sorted) keys [].

(** The first loop of [jsonToCsv]: the flattened rows and the set of their
    keys. *)
Definition collect_rows (data : list JSON) (maxDepth : Z)
    : list Flattened * list string :=
  fold_left
    (fun (acc : list Flattened * list string) item =>
       let flattened := flattened_item maxDepth item in
       (push (fst acc) flattened,
        fold_left set_add_key (row_keys (own_properties flattened)) (snd acc)))
    data ([], []).

Section CsvLines.

(** [String(f)] of a built-in function [f] is the word [function] and a rest
    that the standard leaves to the implementation (the name, the parameter
    list and a body that reads [native code], in some layout);
    [native_code name] is that rest for the function called [name]. *)
Variable native_code : string -> string.

(** [escapeCsvValue(row[key])]: the cell of a row in the column [key].
    [String] of [Object.prototype] is [[object Object]]. *)
Definition csv_cell (row : Flattened) (key : string) : string :=
  match row_member row key with
  | Own v => escapeCsvValue (Some v)
  | BuiltinFunction name => escape_text ("function" ++ native_code name)
  | ThePrototype => escape_text "[object Object]"
  | Undefined => escapeCsvValue None
  end.

(** The body of [flattenedRows.forEach((row, index) => ...)]: the line of one
    row. *)
Definition csv_row_line (includeRowNumbers : bool) (sortedKeys : list string)
    (row : Flattened) (index : nat) : string :=
  let values := if includeRowNumbers then [string_of_nat (index + 1)] else [] in
  let values :=
    fold_left (fun values key => push values (csv_cell row key))
      sortedKeys values in
  join "," values.

Fixpoint csv_rows_loop (includeRowNumbers : bool) (sortedKeys : list string)
    (rows : list Flattened) (index : nat) (csvLines : list string) : list string :=
  match rows with
  | [] => csvLines
  | row :: rest =>
      csv_rows_loop includeRowNumbers sortedKeys rest (S index)
        (push csvLines (csv_row_line includeRowNumbers sortedKeys row index))
  end.

Definition jsonToCsv (data : list JSON) (options : CsvExportOptions) : string :=
  let maxDepth := match csv_maxDepth options with Some d => d | None => 5%Z end in
  let includeRowNumbers :=
    match csv_includeRowNumbers options with Some b => b | None => true end in
  if List.length data =? 0
  then (if includeRowNumbers then "#" ++ newline else EmptyString)
  else
    let '(flattenedRows, allKeys) := collect_rows data maxDepth in
    let sortedKeys := sort_keys allKeys in
    let headers := ((if includeRowNumbers then ["#"] else []) ++ sortedKeys)%list in
    let csvLines := [join "," (map (fun h => escapeCsvValue (Some (JStr h))) headers)] in
    let csvLines :=
      csv_rows_loop includeRowNumbers sortedKeys flattenedRows 0 csvLines in
    join newline csvLines.

(** The table as the specification words it: the header is the row number
    sign, if asked for, and the columns; the line of the row at [index] is
    its number counted from 1, if asked for, and its cells in the order of the
    columns. *)
Definition spec_header (includeRowNumbers : bool) (columns : list string)
    : list string :=
  ((if includeRowNumbers then ["#"] else [])
   ++ map (fun h => escapeCsvValue (Some (JStr h))) columns)%list.

Definition spec_row (includeRowNumbers : bool) (columns : list string)
    (index : nat) (row : Flattened) : list string :=
  ((if includeRowNumbers then [string_of_nat (S index)] else [])
   ++ map (csv_cell row) columns)%list.

Definition spec_table (includeRowNumbers : bool) (columns : list string)
    (rows : list Flattened) : list (list string) :=
  spec_header includeRowNumbers columns
  :: map_indexed (spec_row includeRowNumbers columns) 0 rows.

End CsvLines.

(** The print of built-in functions in V8, as in
    [function Object() { [native code] }]. *)
Definition v8_native_code (name : string) : string :=
  " " ++ name ++ "() { [native code] }".

(** The lexicographic order on code units, as a relation. *)
Inductive str_lt : string -> string -> Prop :=
  | str_lt_nil : forall c b, str_lt EmptyString (String c b)
  | str_lt_head : forall x y a b, code x < code y -> str_lt (String x a) (String y b)
  | str_lt_tail : forall x a b, str_lt a b -> str_lt (String x a) (String x b).

(** A plain object: the rows that [flattenObject] takes apart. *)
Definition is_plain_object (v : JSON) : bool :=
  match v with JObj _ => true | _ => false end.

(** The rows of [data], flattened; and the columns of the export: the keys of
    these rows, collected and sorted. *)
Definition flattened_rows (data : list JSON) (maxDepth : Z) : list FlatRow :=
  map (fun item => flattenObject item EmptyString maxDepth 0) data.

Definition csv_columns (data : list JSON) (maxDepth : Z) : list string :=
  sort_keys (snd (collect_rows data maxDepth)).

Definition csv_option_maxDepth (options : CsvExportOptions) : Z :=
  match csv_maxDepth options with Some d => d | None => 5%Z end.

Definition csv_option_rowNumbers (options : CsvExportOptions) : bool :=
  match csv_includeRowNumbers options with Some b => b | None => true end.

(** The single cell of a row that is not a plain object, as the
    specification words it: the value as it is, or its JSON text when it is
    an array or when the depth bound is already reached at the top level. *)
Definition spec_value_cell (maxDepth : Z) (row : JSON) : JSON :=
  if (maxDepth <=? 0)%Z then stringified row
  else match row with JArr _ => stringified row | _ => row end.
(** ** Performance analytics (analytics-utils.ts, usePerformanceAnalytics) *)

Record QueryMetrics : Set := mkMetric {
  metric_id : string;
  metric_query : string;
  metric_executionTime : Q;
  metric_resultCount : Z;
  metric_timestamp : Z;
  metric_complexityScore : Q;
  metric_memoryUsage : option Q
}.

Definition Qltb (x y : Q) : bool := negb (Qle_bool y x).

(** [Math.round(x)]: the nearest integer, a tie going up. *)
Definition Math_round (x : Q) : Z := Qfloor (x + (1 # 2)).

(** The number of matches of a global regular expression: [matcher] gives
    the length of the match that starts a text, if there is one, and the scan
    resumes after each match. *)
Fixpoint count_global (matcher : string -> option nat) (s : string) (skip : nat) : nat :=
  match s with
  | EmptyString => 0
  | String _ s' =>
      match skip with
      | S skip' => count_global matcher s' skip'
      | 0 =>
          match matcher s with
          | Some len => S (count_global matcher s' (len - 1))
          | None => count_global matcher s' 0
          end
      end
  end.

Definition match_literal (lit s : string) : option nat :=
  if String.prefix lit s then Some (String.length lit) else None.

(** The slice pattern: an opening bracket, digits, a colon, digits, an
    optional colon, digits, a closing bracket (the digit runs may be
    empty). *)
Definition match_slice (s : string) : option nat :=
  match s with
  | String "[" r1 =>
      match drop_leading is_digit r1 with
      | String ":" r2 =>
          let r3 := drop_leading is_digit r2 in
          let r4 := match r3 with String ":" r => r | _ => r3 end in
          match drop_leading is_digit r4 with
          | String "]" rest => Some (String.length s - String.length rest)
          | _ => None
          end
      | _ => None
      end
  | _ => None
  end.

Definition calculateComplexityScore (query : string) : Q :=
  let score := 1%Q in
  let filterCount := count_global (match_literal "?(") query 0 in
  let score := (score + inject_Z (Z.of_nat filterCount) * 3)%Q in
  let score := if includes query ".." then (score + 2)%Q else score in
  let sliceCount := count_global match_slice query 0 in
  let score := (score + inject_Z (Z.of_nat sliceCount) * 2)%Q in
  let wildcardCount := count_global (match_literal "*") query 0 in
  let score := (score + inject_Z (Z.of_nat wildcardCount) * (3 # 2))%Q in
  let unionCount := count_global (match_literal ",") query 0 in
  let score := (score + inject_Z (Z.of_nat unionCount) * 1)%Q in
  let scriptCount := count_global (match_literal "()") query 0 in
  let score := (score + inject_Z (Z.of_nat scriptCount) * 2)%Q in
  let score := (score + inject_Z (Z.of_nat (String.length query)) / 10)%Q in
  (inject_Z (Math_round (score * 10)) / 10)%Q.











(** *** The histogram, on doubles

    The bounds of the bins are sums and products of doubles, and which bin a
    time falls in depends on how they are rounded; [calculateDistribution] is
    therefore modelled on the IEEE 754 binary64 numbers themselves
    ([spec_float] with a 53-bit mantissa, operations rounded to the nearest,
    ties to even). *)

Definition double : Set := spec_float.

Definition double_add : double -> double -> double := SFadd 53 1024.
Definition double_sub : double -> double -> double := SFsub 53 1024.
Definition double_mul : double -> double -> double := SFmul 53 1024.
Definition double_div : double -> double -> double := SFdiv 53 1024.

(** [x < y], [x <= y] and [x == y]; all three are false when [x] or [y] is
    [NaN]. *)
Definition double_ltb : double -> double -> bool := SFltb.
Definition double_leb : double -> double -> bool := SFleb.
Definition double_eqb : double -> double -> bool := SFeqb.

(** The double of an integer; it is the integer itself up to 2^53. *)
Definition double_of_Z (z : Z) : double := binary_normalize 53 1024 z 0 false.
Definition double_of_nat (n : nat) : double := double_of_Z (Z.of_nat n).

Definition is_nan (x : double) : bool :=
  match x with S754_nan => true | _ => false end.

Definition is_infinite (x : double) : bool :=
  match x with S754_infinity _ => true | _ => false end.

(** The truth value of a double: [NaN] and the two zeros are falsy. *)
Definition double_truthy (x : double) : bool :=
  match x with S754_nan | S754_zero _ => false | _ => true end.

(** The exact value of a finite double. *)
Definition double_value (x : double) : Q :=
  match x with
  | S754_finite s m e =>
      let n := if s then Zneg m else Zpos m in
      if (0 <=? e)%Z then inject_Z (n * 2 ^ e)
      else (n # (2 ^ Z.to_pos (- e)))%Q
  | _ => 0%Q
  end.

(** [Math.round(x)] on a double: the integer nearest to the exact value, a
    tie going up; a result of zero keeps the sign of [x]. *)
Definition Math_round_double (x : double) : double :=
  match x with
  | S754_finite s _ _ =>
      let n := Math_round (double_value x) in
      if (n =? 0)%Z then S754_zero s else double_of_Z n
  | _ => x
  end.

(** [Math.max(...values)]: the search starts from minus infinity, stops at
    the first [NaN] and takes [+0] for greater than [-0].  (The limit that
    an engine puts on the number of arguments of a call is not modelled; the
    hook keeps [MAX_METRICS] metrics at most.) *)
Fixpoint max_loop (highest : double) (coerced : list double) : double :=
  match coerced with
  | [] => highest
  | number :: rest =>
      if is_nan number then S754_nan
      else
        match number, highest with
        | S754_zero false, S754_zero true => max_loop (S754_zero false) rest
        | _, _ =>
            if double_ltb highest number then max_loop number rest
            else max_loop highest rest
        end
  end.

Definition Math_max (values : list double) : double :=
  max_loop (S754_infinity true) values.

(** [Math.min(...values)]: from plus infinity, with [-0] less than [+0]. *)
Fixpoint min_loop (lowest : double) (coerced : list double) : double :=
  match coerced with
  | [] => lowest
  | number :: rest =>
      if is_nan number then S754_nan
      else
        match number, lowest with
        | S754_zero true, S754_zero false => min_loop (S754_zero true) rest
        | _, _ =>
            if double_ltb number lowest then min_loop number rest
            else min_loop lowest rest
        end
  end.

Definition Math_min (values : list double) : double :=
  min_loop (S754_infinity false) values.

(** [QueryMetrics] with its numbers as the doubles that they are. *)
Module IEEE.

Record QueryMetrics : Set := mkMetric {
  metric_id : string;
  metric_query : string;
  metric_executionTime : double;
  metric_resultCount : double;
  metric_timestamp : double;
  metric_complexityScore : double;
  metric_memoryUsage : option double
}.

End IEEE.

Record PerformanceDistribution : Set := mkBin {
  bin_range : string;
  bin_count : nat;
  bin_percentage : double
}.

Section Distribution.

(** [String(x)], which [toFixed] falls back on from 10^21 on. *)
Variable Number_toString : double -> string.

(** [x.toFixed(1)]: the sign, then the number of tenths nearest to the exact
    value, the larger one on a tie. *)
Definition toFixed1 (x : double) : string :=
  match x with
  | S754_nan => "NaN"
  | S754_infinity s => if s then "-Infinity" else "Infinity"
  | _ =>
      let value := double_value x in
      if Qle_bool (inject_Z (10 ^ 21)) (Qabs value) then Number_toString x
      else
        let sign := if Qltb value 0 then "-" else EmptyString in
        let n := Math_round (Qabs value * inject_Z 10) in
        sign ++ string_of_Z (n / 10) ++ "." ++ string_of_Z (n mod 10)
  end.

(** The test of the [filter] of bin [i]. *)
Definition in_bin (binCount i : nat) (rangeStart rangeEnd t : double) : bool :=
  double_leb rangeStart t
  && (if i =? binCount - 1 then double_leb t rangeEnd else double_ltb t rangeEnd).

Definition distribution_bin (binCount : nat) (min binSize : double)
    (times : list double) (total i : nat) : PerformanceDistribution :=
  let rangeStart := double_add min (double_mul (double_of_nat i) binSize) in
  let rangeEnd := double_add min (double_mul (double_of_nat (i + 1)) binSize) in
  let count := List.length (filter (in_bin binCount i rangeStart rangeEnd) times) in
  mkBin
    (toFixed1 rangeStart ++ "-" ++ toFixed1 rangeEnd ++ "ms")
    count
    (Math_round_double
       (double_mul (double_div (double_of_nat count) (double_of_nat total))
          (double_of_nat 100))).

(** The [for] loop: [todo] rounds remain, the next one for bin [i]. *)
Fixpoint distribution_loop (binCount : nat) (min binSize : double)
    (times : list double) (total todo i : nat)
    (bins : list PerformanceDistribution) : list PerformanceDistribution :=
  match todo with
  | 0 => bins
  | S todo' =>
      distribution_loop binCount min binSize times total todo' (S i)
        (push bins (distribution_bin binCount min binSize times total i))
  end.

Definition calculateDistribution (metrics : list IEEE.QueryMetrics)
    : list PerformanceDistribution :=
  if List.length metrics =? 0 then []
  else
    let times := map IEEE.metric_executionTime metrics in
    let max := Math_max times in
    let min := Math_min times in
    let binCount := 10 in
    let binSize :=
      let w := double_div (double_sub max min) (double_of_nat binCount) in
      if double_truthy w then w else double_of_nat 1 in
    distribution_loop binCount min binSize times (List.length metrics) binCount 0 [].

End Distribution.

(** The bound between bin [i - 1] and bin [i]: the [rangeEnd] of the one and
    the [rangeStart] of the other. *)
Definition bin_bound (min binSize : double) (i : nat) : double :=
  double_add min (double_mul (double_of_nat i) binSize).

(** The number of bins the specification promises for every input. *)
Definition spec_bin_count : nat := 10.

(** The order of the doubles that are not [NaN], read off three integers:
    the class (minus infinity, negative, zero, positive, plus infinity), then
    the exponent and the mantissa, both counted downwards for a negative
    number. *)
Definition rank_class (x : double) : Z :=
  match x with
  | S754_infinity true => -2
  | S754_finite true _ _ => -1
  | S754_zero _ => 0
  | S754_finite false _ _ => 1
  | S754_infinity false => 2
  | S754_nan => 3
  end.

Definition rank_exponent (x : double) : Z :=
  match x with
  | S754_finite true _ e => - e
  | S754_finite false _ e => e
  | _ => 0
  end.

Definition rank_mantissa (x : double) : Z :=
  match x with
  | S754_finite true m _ => Zneg m
  | S754_finite false m _ => Zpos m
  | _ => 0
  end.

Definition rank_lt (x y : double) : Prop :=
  (rank_class x < rank_class y
   \/ (rank_class x = rank_class y
       /\ (rank_exponent x < rank_exponent y
           \/ (rank_exponent x = rank_exponent y
               /\ rank_mantissa x < rank_mantissa y))))%Z.

Definition rank_eq (x y : double) : Prop :=
  (rank_class x = rank_class y
   /\ rank_exponent x = rank_exponent y
   /\ rank_mantissa x = rank_mantissa y)%Z.

(** A metric of the query [$] that took [time] milliseconds and gave one
    result. *)
Definition five_times_metric (time : nat) : IEEE.QueryMetrics :=
  IEEE.mkMetric "m" "$" (double_of_nat time) (double_of_nat 1) (double_of_nat 0)
    (double_of_nat 1) None.
(** ** The filter chain editor (FilterBuilder.tsx) *)

(** The argument [updates] of [updateFilter], a [Partial<FilterCondition>]:
    [None] is a field that the object does not have.  For the optional
    [logicalOperator], [Some None] is the field present with the value
    [undefined]. *)
Record FilterUpdates : Set := mkUpdates {
  update_id : option string;
  update_property : option string;
  update_operator : option OperatorType;
  update_value : option string;
  update_logicalOperator : option (option LogicalOperator)
}.

(** The spread of [f] and then [updates] into a new condition. *)
Definition apply_updates (f : FilterCondition) (updates : FilterUpdates)
    : FilterCondition :=
  mkFilter
    (match update_id updates with Some v => v | None => filter_id f end)
    (match update_property updates with Some v => v | None => filter_property f end)
    (match update_operator updates with Some v => v | None => filter_operator f end)
    (match update_value updates with Some v => v | None => filter_value f end)
    (match update_logicalOperator updates with
     | Some v => v
     | None => filter_logicalOperator f
     end).

(** [addFilter]; [randomId] stands for the nine characters drawn from
    [Math.random()]. *)
Definition addFilter (randomId : string) (availableFields : list string)
    (filters : list FilterCondition) : list FilterCondition :=
  let newFilter :=
    mkFilter randomId
      (match availableFields with
       | field :: _ => if is_empty field then EmptyString else field
       | [] => EmptyString
       end)
      OpEq EmptyString
      (if 0 <? List.length filters then Some AND else None) in
  (filters ++ [newFilter])%list.

Definition removeFilter (id : string) (filters : list FilterCondition)
    : list FilterCondition :=
  let newFilters :=
    filter (fun f => negb (String.eqb (filter_id f) id)) filters in
  match newFilters with
  | first :: rest =>
      match filter_logicalOperator first with
      | Some _ =>
          mkFilter (filter_id first) (filter_property first)
            (filter_operator first) (filter_value first) None :: rest
      | None => newFilters
      end
  | [] => newFilters
  end.

Definition updateFilter (id : string) (updates : FilterUpdates)
    (filters : list FilterCondition) : list FilterCondition :=
  map (fun f => if String.eqb (filter_id f) id then apply_updates f updates else f)
    filters.

Definition updateLogicalOperator (id : string) (operator : LogicalOperator)
    (filters : list FilterCondition) : list FilterCondition :=
  updateFilter id (mkUpdates None None None None (Some (Some operator))) filters.

(** The three updates the component makes from its property, operator and
    value inputs. *)
Definition update_property_only (v : string) : FilterUpdates :=
  mkUpdates None (Some v) None None None.
Definition update_operator_only (v : OperatorType) : FilterUpdates :=
  mkUpdates None None (Some v) None None.
Definition update_value_only (v : string) : FilterUpdates :=
  mkUpdates None None None (Some v) None.

(** The chains the component can hand to [onFiltersChange], starting from
    the empty chain of the builder's initial state. *)
Inductive editor_chain : list FilterCondition -> Prop :=
  | chain_initial : editor_chain []
  | chain_add : forall randomId availableFields filters,
      editor_chain filters ->
      editor_chain (addFilter randomId availableFields filters)
  | chain_remove : forall id filters,
      editor_chain filters -> editor_chain (removeFilter id filters)
  | chain_property : forall id v filters,
      editor_chain filters ->
      editor_chain (updateFilter id (update_property_only v) filters)
  | chain_operator : forall id v filters,
      editor_chain filters ->
      editor_chain (updateFilter id (update_operator_only v) filters)
  | chain_value : forall id v filters,
      editor_chain filters ->
      editor_chain (updateFilter id (update_value_only v) filters)
  | chain_logical : forall id operator filters,
      editor_chain filters ->
      editor_chain (updateLogicalOperator id operator filters).

(** Every condition after the first carries a logical operator. *)
Definition later_carry_operator (filters : list FilterCondition) : Prop :=
  Forall (fun f => filter_logicalOperator f <> None) (tl filters).

(** ** Texts without brackets *)

(** No square bracket and no parenthesis in the text. *)
Definition bracket_free (s : string) : Prop := match_brackets s = [].

(** ** suggestCompletions (query-builder-utils.ts) *)

(** The suggestion made for a field: the dollar sign, a dot and its name. *)
Definition field_suggestion (field : FieldNode) : string :=
  "$." ++ field_name field.

Definition suggestCompletions (partialQuery : string) (schema : SchemaAnalysis)
    : list string :=
  if is_empty partialQuery || String.eqb partialQuery "$"
  then fold_left (fun suggestions field => push suggestions (field_suggestion field))
         (schema_fields schema) []
  else [].

(** The name, the path and the type of a node. *)
Definition field_summary (node : FieldNode) : string * string * FieldType :=
  (field_name node, field_path node, field_type node).

(** What a key of an object is expected to give: a node of that name, at the
    path made of [prefix] and the key, with the type of the value. *)
Definition entry_summary (prefix : string) (kv : string * JSON)
    : string * string * FieldType :=
  (fst kv, prefix ++ fst kv, getType (snd kv)).

(** ** Reading a CSV cell back *)

(** The inside of a quoted cell, read by the usual rule: two quotes stand
    for one, a single quote ends the cell.  [after_quote] tells that the
    character before was a quote not yet accounted for. *)
Fixpoint csv_unquote (s : string) (after_quote : bool) : string :=
  match s with
  | EmptyString => EmptyString
  | String c rest =>
      if Ascii.eqb c quote_char then
        if after_quote then String quote_char (csv_unquote rest false)
        else csv_unquote rest true
      else if after_quote then EmptyString
      else String c (csv_unquote rest false)
  end.

(** The text of a cell: what is between the quotes for a cell that starts
    with a quote, the cell itself otherwise. *)
Definition csv_read_cell (cell : string) : string :=
  match cell with
  | String c rest => if Ascii.eqb c quote_char then csv_unquote rest false else cell
  | EmptyString => EmptyString
  end.

(** A value that is neither an array nor an object. *)
Definition is_scalar (v : JSON) : bool :=
  match v with JArr _ | JObj _ => false | _ => true end.

(** [key] is [prefix] or continues it after a dot. *)
Definition under_prefix (prefix key : string) : Prop :=
  key = prefix \/ exists rest, key = prefix ++ "." ++ rest.

(** A row with pairwise distinct keys and scalar values. *)
Definition row_ok (row : FlatRow) : Prop :=
  NoDup (row_keys row) /\ Forall (fun kv => is_scalar (snd kv) = true) row.

(** ** Search: auxiliary notions *)

(** The comparison form of a text: itself in the case-sensitive mode, its
    lower case otherwise. *)
Definition normalize (caseSensitive : bool) (s : string) : string :=
  if caseSensitive then s else toLowerCase s.

(** A match found below [base]: its path continues [base], and the text
    it reports contains the term, in comparison form. *)
Definition sound_match (caseSensitive : bool) (searchNormalized : string)
    (base : list string) (m : SearchMatch) : Prop :=
  (exists suffix, match_path m = (base ++ suffix)%list)
  /\ includes (normalize caseSensitive (match_matchedText m)) searchNormalized = true.

(** The test of [filterResults] on one result. *)
Definition has_match (searchTerm : string) (caseSensitive : bool) (result : JSON)
    : bool :=
  0 <? List.length (recursiveSearch result searchTerm caseSensitive []).


(** The data mentions the term: a key of an object in it, or the print of a
    primitive, of [null] or of [undefined] in it, contains the term, in
    comparison form. *)
Fixpoint mentions (caseSensitive : bool) (searchNormalized : string)
    (value : JSON) {struct value} : bool :=
  match value with
  | JArr items => existsb (mentions caseSensitive searchNormalized) items
  | JObj entries =>
      existsb
        (fun kv : string * JSON =>
           let (key, val) := kv in
           includes (normalize caseSensitive key) searchNormalized
           || mentions caseSensitive searchNormalized val)
        entries
  | _ => includes (normalize caseSensitive (String_of value)) searchNormalized
  end.
(** ** highlightJsonText (search-utils.ts) *)

(** The opening tag put before a match: [mark] with the class
    [search-highlight], the class name between double quotes. *)
Definition mark_open : string :=
  "<mark class=" ++ quote_mark ++ "search-highlight" ++ quote_mark ++ ">".

Definition mark_close : string := "</mark>".

(** The [while] loop of [highlightJsonText], with [fuel] as for
    [highlight_loop]. *)
Fixpoint highlight_json_loop (fuel : nat)
    (jsonText textNormalized searchNormalized : string) (termLength : nat)
    (index : option nat) (lastIndex : nat) (result : string)
    : option (string * nat) :=
  match index with
  | None => Some (result, lastIndex)
  | Some index =>
      match fuel with
      | 0 => None
      | S fuel' =>
          let result := result ++ substring jsonText lastIndex index in
          let result :=
            result ++ mark_open
              ++ substring jsonText index (index + termLength) ++ mark_close in
          let lastIndex := index + termLength in
          highlight_json_loop fuel' jsonText textNormalized searchNormalized
            termLength (indexOf textNormalized searchNormalized lastIndex)
            lastIndex result
      end
  end.

Definition highlightJsonText (jsonText searchTerm : string) (caseSensitive : bool)
    : option string :=
  if is_empty searchTerm then Some jsonText
  else
    let searchNormalized :=
      if caseSensitive then searchTerm else toLowerCase searchTerm in
    let textNormalized := if caseSensitive then jsonText else toLowerCase jsonText in
    match
      highlight_json_loop (String.length textNormalized) jsonText textNormalized
        searchNormalized (String.length searchTerm)
        (indexOf textNormalized searchNormalized 0) 0 EmptyString
    with
    | None => None
    | Some (result, lastIndex) => Some (result ++ substring_from jsonText lastIndex)
    end.

(** A segment as markup: a match between the two tags, other text as it
    is. *)
Definition render_segment (seg : Segment) : string :=
  if segment_isMatch seg
  then mark_open ++ segment_text seg ++ mark_close
  else segment_text seg.

Definition render_segments (segments : list Segment) : string :=
  join EmptyString (map render_segment segments).

(** What holds of a segment of [highlightText] for a term: a match is the
    term, up to case unless the search is case-sensitive; other text is not
    empty. *)
Definition segment_ok (caseSensitive : bool) (searchTerm : string) (seg : Segment)
    : Prop :=
  if segment_isMatch seg
  then normalize caseSensitive (segment_text seg) = normalize caseSensitive searchTerm
  else segment_text seg <> EmptyString.

(** ** Statistics (analytics-utils.ts) and top queries (usePerformanceAnalytics) *)

(** [array.sort(compareFn)] with a consistent comparison: the stable sort,
    built by inserting each element, from the last to the first, before the
    first element it does not come after. *)
Fixpoint sort_insert_by {A : Type} (compareFn : A -> A -> Q) (x : A)
    (sorted : list A) : list A :=
  match sorted with
  | [] => [x]
  | y :: rest =>
      if Qle_bool (compareFn x y) 0 then x :: sorted
      else y :: sort_insert_by compareFn x rest
  end.

Definition Array_sort {A : Type} (compareFn : A -> A -> Q) (l : list A) : list A :=
  fold_right (sort_insert_by compareFn) [] l.






Section Statistics.

(** [Math.sqrt], which has no exact rational counterpart, is left open. *)
Variable Math_sqrt : Q -> Q.



End Statistics.


(** [a.slice(0, n)] and [a.slice(-n)] on an array. *)
Definition slice_first {A : Type} (n : nat) (l : list A) : list A := firstn n l.

Definition slice_last {A : Type} (n : nat) (l : list A) : list A :=
  skipn (List.length l - n) l.

Record TopQueries : Type := mkTop {
  top_fastest : list QueryMetrics;
  top_slowest : list QueryMetrics;
  top_mostComplex : list QueryMetrics;
  top_mostResults : list QueryMetrics
}.

(** The [topQueries] of the analytics the hook computes. *)
Definition topQueries (metrics : list QueryMetrics) : TopQueries :=
  let sortedByTime :=
    Array_sort (fun a b => (metric_executionTime a - metric_executionTime b)%Q)
      metrics in
  let sortedByComplexity :=
    Array_sort (fun a b => (metric_complexityScore b - metric_complexityScore a)%Q)
      metrics in
  let sortedByResults :=
    Array_sort
      (fun a b => inject_Z (metric_resultCount b - metric_resultCount a)) metrics in
  mkTop
    (slice_first 5 sortedByTime)
    (rev (slice_last 5 sortedByTime))
    (slice_first 5 sortedByComplexity)
    (slice_first 5 sortedByResults).

(** A list in which every element comes before the later ones by the figure
    [key]: ascending, or descending. *)
Definition ascending {A : Type} (key : A -> Q) (l : list A) : Prop :=
  StronglySorted (fun a b => (key a <= key b)%Q) l.

Definition descending {A : Type} (key : A -> Q) (l : list A) : Prop :=
  StronglySorted (fun a b => (key b <= key a)%Q) l.

(** The counts of [calculateComplexityScore]. *)
Definition filterCount (query : string) : nat :=
  count_global (match_literal "?(") query 0.
Definition sliceCount (query : string) : nat := count_global match_slice query 0.
Definition wildcardCount (query : string) : nat :=
  count_global (match_literal "*") query 0.
Definition unionCount (query : string) : nat :=
  count_global (match_literal ",") query 0.
Definition scriptCount (query : string) : nat :=
  count_global (match_literal "()") query 0.

(** Ten times the score, as an integer. *)
Definition complexity_tenths (query : string) : Z :=
  (10 + 30 * Z.of_nat (filterCount query)
   + (if includes query ".." then 20 else 0)
   + 20 * Z.of_nat (sliceCount query)
   + 15 * Z.of_nat (wildcardCount query)
   + 10 * Z.of_nat (unionCount query)
   + 20 * Z.of_nat (scriptCount query)
   + Z.of_nat (String.length query))%Z.
(** ** The query in the URL (useUrlState) *)

(** The base64 alphabet of [btoa] and [atob]: index 62 is the plus sign and
    index 63 the slash. *)
Definition base64_alphabet : string :=
  "ABCDEFGHIJKLMNOPQRSTUVWXYZabcdefghijklmnopqrstuvwxyz0123456789+/".

Definition equals_sign : ascii := chr 61.

(** The character of a six-bit value; no value of six bits is out of the
    alphabet. *)
Definition base64_char (v : nat) : ascii :=
  match String.get v base64_alphabet with
  | Some c => c
  | None => equals_sign
  end.

(** The six-bit value of a character of the alphabet. *)
Definition base64_value (c : ascii) : option nat :=
  indexOf base64_alphabet (String c EmptyString) 0.

(** [btoa(s)] on code units below 256, for which it never throws: three
    bytes give four characters, and a last group of one or two bytes is
    padded with equals signs. *)
Fixpoint btoa (s : string) : string :=
  match s with
  | EmptyString => EmptyString
  | String a EmptyString =>
      String (base64_char (code a / 4))
        (String (base64_char (code a mod 4 * 16))
           (String equals_sign (String equals_sign EmptyString)))
  | String a (String b EmptyString) =>
      String (base64_char (code a / 4))
        (String (base64_char (code a mod 4 * 16 + code b / 16))
           (String (base64_char (code b mod 16 * 4))
              (String equals_sign EmptyString)))
  | String a (String b (String c rest)) =>
      String (base64_char (code a / 4))
        (String (base64_char (code a mod 4 * 16 + code b / 16))
           (String (base64_char (code b mod 16 * 4 + code c / 64))
              (String (base64_char (code c mod 64)) (btoa rest))))
  end.

(** ASCII white space, which [atob] ignores: TAB, LF, FF, CR and SP. *)
Definition is_ascii_whitespace (c : ascii) : bool :=
  let n := code c in
  ((n =? 9) || (n =? 10) || (n =? 12) || (n =? 13) || (n =? 32))%nat.

Fixpoint remove_chars (p : ascii -> bool) (s : string) : string :=
  match s with
  | EmptyString => EmptyString
  | String c rest =>
      if p c then remove_chars p rest else String c (remove_chars p rest)
  end.

(** One or two equals signs at the end of the data are removed. *)
Fixpoint remove_padding (data : string) : string :=
  match data with
  | EmptyString => EmptyString
  | String c rest =>
      if Ascii.eqb c equals_sign
         && (String.eqb rest EmptyString
             || String.eqb rest (String equals_sign EmptyString))
      then EmptyString
      else String c (remove_padding rest)
  end.

(** The six-bit values of the characters, if all are in the alphabet. *)
Fixpoint base64_values (data : string) : option (list nat) :=
  match data with
  | EmptyString => Some []
  | String c rest =>
      match base64_value c, base64_values rest with
      | Some v, Some vs => Some (v :: vs)
      | _, _ => None
      end
  end.

(** Four values give three bytes; of a last group of three values the last
    two bits are dropped, of a last group of two the last four. *)
Fixpoint base64_bytes (values : list nat) : string :=
  match values with
  | v1 :: v2 :: v3 :: v4 :: rest =>
      String (chr (v1 * 4 + v2 / 16))
        (String (chr (v2 mod 16 * 16 + v3 / 4))
           (String (chr (v3 mod 4 * 64 + v4)) (base64_bytes rest)))
  | [v1; v2; v3] =>
      String (chr (v1 * 4 + v2 / 16))
        (String (chr (v2 mod 16 * 16 + v3 / 4)) EmptyString)
  | [v1; v2] => String (chr (v1 * 4 + v2 / 16)) EmptyString
  | _ => EmptyString
  end.

(** [atob(data)], the forgiving base64 decoding; [None] is the exception it
    throws. *)
Definition atob (data : string) : option string :=
  let data := remove_chars is_ascii_whitespace data in
  let data :=
    if String.length data mod 4 =? 0 then remove_padding data else data in
  if String.length data mod 4 =? 1 then None
  else
    match base64_values data with
    | Some values => Some (base64_bytes values)
    | None => None
    end.

(** [s.replace(/c/g, d)] for single characters. *)
Fixpoint replace_char (c d : ascii) (s : string) : string :=
  match s with
  | EmptyString => EmptyString
  | String x rest =>
      String (if Ascii.eqb x c then d else x) (replace_char c d rest)
  end.

(** [s.replace(/c+$/, '')]: the run of [c] that ends the text is removed. *)
Fixpoint strip_trailing (c : ascii) (s : string) : string :=
  match s with
  | EmptyString => EmptyString
  | String x rest =>
      match strip_trailing c rest with
      | EmptyString => if Ascii.eqb x c then EmptyString else String x EmptyString
      | kept => String x kept
      end
  end.

(** The loop that restores the padding: [n] equals signs are appended. *)
Fixpoint add_padding (n : nat) (base64 : string) : string :=
  match n with
  | 0 => base64
  | S n' => add_padding n' (base64 ++ String equals_sign EmptyString)
  end.

Section UrlState.

(** The two URI functions of the platform; [None] is the [URIError] that
    [decodeURIComponent] throws on a malformed escape. *)
Variable encodeURIComponent : string -> string.
Variable decodeURIComponent : string -> option string.

Definition encodeValue (compress : bool) (val : string) : string :=
  if negb compress then encodeURIComponent val
  else
    let base64 := btoa val in
    strip_trailing equals_sign
      (replace_char (chr 47) (chr 95) (replace_char (chr 43) (chr 45) base64)).

(** [None] is the exception that leaves [decodeValue] when [compress] is
    off. *)
Definition decodeValue (compress : bool) (encoded : string) : option string :=
  if negb compress then decodeURIComponent encoded
  else
    let base64 :=
      replace_char (chr 95) (chr 47) (replace_char (chr 45) (chr 43) encoded) in
    let padding := String.length base64 mod 4 in
    let base64 :=
      if 0 <? padding then add_padding (4 - padding) base64 else base64 in
    match atob base64 with
    | Some text => Some text
    | None =>
        match decodeURIComponent encoded with
        | Some text => Some text
        | None => Some encoded
        end
    end.

End UrlState.

(** The characters of a base64url text: letters, digits, the hyphen and the
    underscore. *)
Definition is_url_safe (c : ascii) : bool :=
  let n := code c in
  ((65 <=? n) && (n <=? 90) || (97 <=? n) && (n <=? 122)
   || (48 <=? n) && (n <=? 57) || (n =? 45) || (n =? 95))%nat.

(** The six-bit values that [btoa] writes for a text, and the padding that
    follows them. *)
Fixpoint sextets (s : string) : list nat :=
  match s with
  | EmptyString => []
  | String a EmptyString => [code a / 4; code a mod 4 * 16]
  | String a (String b EmptyString) =>
      [code a / 4; code a mod 4 * 16 + code b / 16; code b mod 16 * 4]
  | String a (String b (String c rest)) =>
      code a / 4 :: code a mod 4 * 16 + code b / 16
      :: code b mod 16 * 4 + code c / 64 :: code c mod 64 :: sextets rest
  end.

Fixpoint padding_of (s : string) : nat :=
  match s with
  | EmptyString => 0
  | String _ EmptyString => 2
  | String _ (String _ EmptyString) => 1
  | String _ (String _ (String _ rest)) => padding_of rest
  end.

Fixpoint base64_text (values : list nat) : string :=
  match values with
  | [] => EmptyString
  | v :: rest => String (base64_char v) (base64_text rest)
  end.

(** [url_char] is what the two replacements of [encodeValue] make of a
    character. *)
Definition url_char (c : ascii) : ascii :=
  let c := if Ascii.eqb c (chr 43) then chr 45 else c in
  if Ascii.eqb c (chr 47) then chr 95 else c.

Fixpoint url_text (values : list nat) : string :=
  match values with
  | [] => EmptyString
  | v :: rest => String (url_char (base64_char v)) (url_text rest)
  end.

(** [base64_of_url_char] is what the two replacements of [decodeValue] make
    of a character. *)
Definition base64_of_url_char (c : ascii) : ascii :=
  let c := if Ascii.eqb c (chr 45) then chr 43 else c in
  if Ascii.eqb c (chr 95) then chr 47 else c.

Fixpoint equals_run (n : nat) : string :=
  match n with
  | 0 => EmptyString
  | S n' => String equals_sign (equals_run n')
  end.

(** What the character of a six-bit value must satisfy for the encoding to
    be read back. *)
Definition sextet_ok (v : nat) : bool :=
  let c := base64_char v in
  match base64_value c with Some u => u =? v | None => false end
  && negb (Ascii.eqb c equals_sign)
  && negb (is_ascii_whitespace c)
  && is_url_safe (url_char c)
  && negb (Ascii.eqb (url_char c) equals_sign)
  && Ascii.eqb (base64_of_url_char (url_char c)) c.
(** ** The figures of an export (csv-export.ts) *)

Fixpoint zeros (n : nat) : string :=
  match n with
  | 0 => EmptyString
  | S n' => String "0" (zeros n')
  end.

(** [x.toFixed(digits)] for a magnitude below 10^21: the sign, then the
    nearest multiple of 10^-digits, the larger one on a tie, written with
    [digits] decimals. *)
Definition toFixed (digits : nat) (x : Q) : string :=
  let sign := if Qltb x 0 then "-" else EmptyString in
  let scale := (10 ^ Z.of_nat digits)%Z in
  let n := Math_round (Qabs x * inject_Z scale) in
  let whole := string_of_Z (n / scale) in
  if digits =? 0 then sign ++ whole
  else
    let fraction := string_of_Z (n mod scale) in
    sign ++ whole ++ "." ++ zeros (digits - String.length fraction) ++ fraction.

Record CsvExportStats : Set := mkCsvStats {
  csv_rowCount : nat;
  csv_columnCount : nat;
  csv_estimatedSize : string
}.

Section CsvStats.

(** The print of a built-in function after the word [function], as in
    [jsonToCsv]. *)
Variable native_code : string -> string.

Definition getCsvExportStats (results : list JSON) : CsvExportStats :=
  match results with
  | [] => mkCsvStats 0 0 "0 KB"
  | first :: _ =>
      let flattened := flattenObject first EmptyString 5 0 in
      let columnCount := List.length (row_keys flattened) in
      let sample := Nat.min 10 (List.length results) in
      let csv :=
        jsonToCsv native_code (firstn sample results) (mkCsvOptions None None) in
      let avgRowSize :=
        (inject_Z (Z.of_nat (String.length csv)) / inject_Z (Z.of_nat sample))%Q in
      let estimatedBytes :=
        (avgRowSize * inject_Z (Z.of_nat (List.length results)))%Q in
      let estimatedSize :=
        if Qltb estimatedBytes 1024 then toFixed 0 estimatedBytes ++ " B"
        else if Qltb estimatedBytes (1024 * 1024)
             then toFixed 1 (estimatedBytes / 1024) ++ " KB"
             else toFixed 2 (estimatedBytes / (1024 * 1024)) ++ " MB" in
      mkCsvStats (List.length results) columnCount estimatedSize
  end.

End CsvStats.

(** The keys of the first row, as [getCsvExportStats] flattens it. *)
Definition first_row_keys (results : list JSON) : list string :=
  match results with
  | [] => []
  | first :: _ => row_keys (flattenObject first EmptyString 5 0)
  end.
(** ** The description of a query (query-builder-utils.ts) *)

(** The line terminators below 256, which the dot of a regular expression
    does not match: LF and CR. *)
Definition is_line_terminator (c : ascii) : bool :=
  ((code c =? 10) || (code c =? 13))%nat.

(** The longest run of characters of [s] that satisfy [p], from its
    start. *)
Definition take_leading (p : ascii -> bool) (s : string) : string :=
  str_take (count_leading p s) s.

(** The slice pattern of the description, matched at the start of [s]: an
    opening bracket, one digit or more, a colon, one digit or more, a closing
    bracket.  The result holds the two runs of digits. *)
Definition match_items (s : string) : option (string * string) :=
  match s with
  | String "[" r1 =>
      match take_leading is_digit r1, drop_leading is_digit r1 with
      | String d ds, String ":" r2 =>
          match take_leading is_digit r2, drop_leading is_digit r2 with
          | String e es, String "]" _ => Some (String d ds, String e es)
          | _, _ => None
          end
      | _, _ => None
      end
  | _ => None
  end.

(** [query.match(pattern)]: the match that starts first. *)
Fixpoint search_items (s : string) : option (string * string) :=
  match match_items s with
  | Some groups => Some groups
  | None =>
      match s with
      | EmptyString => None
      | String _ rest => search_items rest
      end
  end.

(** A closing parenthesis followed by a closing bracket is reached before
    any line terminator. *)
Fixpoint closes_on_line (s : string) : bool :=
  match s with
  | EmptyString => false
  | String c rest =>
      if Ascii.eqb c ")" && String.prefix "]" rest then true
      else if is_line_terminator c then false
      else closes_on_line rest
  end.

(** The filter pattern, matched at the start of [s]: an opening bracket, a
    question mark, an opening parenthesis, then as few characters of the line
    as possible up to a closing parenthesis and bracket. *)
Definition match_filter (s : string) : bool :=
  String.prefix "[?(" s && closes_on_line (str_drop 3 s).

Fixpoint search_filter (s : string) : bool :=
  match_filter s
  || match s with
     | EmptyString => false
     | String _ rest => search_filter rest
     end.

Definition items_text (first last : string) : string :=
  "Items " ++ first ++ " to " ++ last.

(** The array [parts] of [getQueryDescription]. *)
Definition description_parts (query : string) : list string :=
  let parts := [] in
  let parts :=
    if includes query ".." then push parts "Recursive search" else parts in
  let parts :=
    if includes query "[*]" then push parts "All array items" else parts in
  let parts :=
    match search_items query with
    | Some (first, last) => push parts (items_text first last)
    | None => parts
    end in
  let parts :=
    if search_filter query then push parts "with filters" else parts in
  parts.

Definition getQueryDescription (query : string) : string :=
  if is_empty query || String.eqb query "$" then "Root object"
  else
    let parts := description_parts query in
    if List.length parts =? 0 then "Property selection"
    else join ", " parts.

(** A character that is no bracket, no parenthesis and no line
    terminator; a text of such characters. *)
Definition plain_char (c : ascii) : bool :=
  negb (is_open_bracket c || is_close_bracket c || is_line_terminator c).

Definition plain (s : string) : Prop := all_chars plain_char s = true.

(** The characters of a slice after its opening bracket. *)
Definition slice_char (c : ascii) : bool :=
  (is_digit c || Ascii.eqb c "-" || Ascii.eqb c ":" || Ascii.eqb c "]")%char.

(** A bound that is set and not negative. *)
Definition plain_bound (x : option Z) : bool :=
  match x with Some n => (0 <=? n)%Z | None => false end.

(** What the description tells of a slice.  [generateArraySlice] writes the
    step when it is truthy, so a step that is absent and a step of 0 come to
    the same: with such a step, all items are told when no bound is set, and
    the two bounds when both are set and neither is negative. *)
Definition slice_wildcard (arraySlice : option ArraySlice) : bool :=
  match arraySlice with
  | Some slice =>
      negb (truthy_int (slice_step slice))
      && negb (not_empty_text (slice_start slice)
               || not_empty_text (slice_end slice))
  | None => false
  end.

Definition slice_items (arraySlice : option ArraySlice) : option (string * string) :=
  match arraySlice with
  | Some slice =>
      if negb (truthy_int (slice_step slice))
         && plain_bound (slice_start slice) && plain_bound (slice_end slice)
      then Some (slice_bound_text (slice_start slice),
                 slice_bound_text (slice_end slice))
      else None
  | None => None
  end.

(** [needle] occurs in [s]. *)
Fixpoint occurs (needle s : string) : bool :=
  String.prefix needle s
  || match s with
     | EmptyString => false
     | String _ rest => occurs needle rest
     end.

(** The parts of the description, as the builder's state gives them. *)
Definition built_parts (query : string) (filters : list FilterCondition)
    (arraySlice : option ArraySlice) : list string :=
  ((if includes query ".." then ["Recursive search"] else [])
   ++ (if slice_wildcard arraySlice then ["All array items"] else [])
   ++ match slice_items arraySlice with
      | Some (first, last) => [items_text first last]
      | None => []
      end
   ++ (if 0 <? List.length filters then ["with filters"] else []))%list.

Definition not_open (c : ascii) : bool := negb (Ascii.eqb c "[").
(** ** debounce (search-utils.ts) *)

Section Debounce.

(** The arguments of the debounced function. *)
Context {A : Type}.

(** A timer of the platform: its handle, the time from which it may run, and
    the arguments that its callback [later] has captured. *)
Record Timer : Type := mkTimer {
  timer_handle : nat;
  timer_due : Z;
  timer_args : A
}.

(** The variable [timeout] of the closure, the timers that are set and have
    neither run nor been cleared, the next handle that the platform gives,
    and the calls of [func] so far, the first first. *)
Record DebounceState : Type := mkDebounce {
  db_timeout : option nat;
  db_timers : list Timer;
  db_next : nat;
  db_ran : list A
}.

Definition debounce_initial : DebounceState := mkDebounce None [] 0 [].

Definition clearTimeout (handle : nat) (timers : list Timer) : list Timer :=
  filter (fun t => negb (timer_handle t =? handle)) timers.

(** A call of the debounced function at the time [now]; a delay below 0 is
    a delay of 0. *)
Definition executedFunction (wait now : Z) (args : A) (st : DebounceState)
    : DebounceState :=
  let timers :=
    match db_timeout st with
    | Some handle => clearTimeout handle (db_timers st)
    | None => db_timers st
    end in
  let handle := db_next st in
  mkDebounce (Some handle)
    (push timers (mkTimer handle (now + Z.max 0 wait) args))
    (S handle) (db_ran st).

(** The callback [later] of a timer. *)
Definition later (timer : Timer) (st : DebounceState) : DebounceState :=
  mkDebounce None (db_timers st) (db_next st) (push (db_ran st) (timer_args timer)).

(** The platform at the time [now]: the timers that are due run, in the
    order in which they were set, and are gone. *)
Definition run_due (now : Z) (st : DebounceState) : DebounceState :=
  let due := filter (fun t => (timer_due t <=? now)%Z) (db_timers st) in
  let waiting := filter (fun t => negb (timer_due t <=? now)%Z) (db_timers st) in
  fold_left (fun st t => later t st) due
    (mkDebounce (db_timeout st) waiting (db_next st) (db_ran st)).

(** A sequence of calls, each with its time: before a call the platform runs
    what is due. *)
Fixpoint run_calls (wait : Z) (calls : list (Z * A)) (st : DebounceState)
    : DebounceState :=
  match calls with
  | [] => st
  | (now, args) :: rest =>
      run_calls wait rest (executedFunction wait now args (run_due now st))
  end.

(** The arguments of the calls that are not followed by another call before
    their delay has passed; [final] is the time at which the sequence is
    looked at. *)
Fixpoint trailing (wait : Z) (calls : list (Z * A)) (final : Z) : list A :=
  match calls with
  | [] => []
  | (now, args) :: rest =>
      let next := match rest with (t, _) :: _ => t | [] => final end in
      if (now + Z.max 0 wait <=? next)%Z
      then args :: trailing wait rest final
      else trailing wait rest final
  end.

(** Nothing is set, or one timer is, the one that [timeout] holds. *)
Definition settled (st : DebounceState) : Prop :=
  (db_timers st = [] /\ db_timeout st = None)
  \/ exists timer,
       db_timers st = [timer] /\ db_timeout st = Some (timer_handle timer).

(** The state in which one timer is set, due at [due] with [args]. *)
Definition armed (st : DebounceState) (due : Z) (args : A) : Prop :=
  exists handle,
    db_timers st = [mkTimer handle due args] /\ db_timeout st = Some handle.

End Debounce.
(** * Part II: properties *)

(** ** Strings *)

Lemma str_take_drop (n : nat) (s : string) : str_take n s ++ str_drop n s = s.
Proof.
  revert s; induction n as [|n IH]; intros [|c s]; simpl; try reflexivity.
  now rewrite IH.
Qed.

Lemma str_append_assoc (a b c : string) : (a ++ b) ++ c = a ++ (b ++ c).
Proof. induction a as [|x a IH]; simpl; [reflexivity | now rewrite IH]. Qed.

Lemma str_append_nil_r (a : string) : a ++ EmptyString = a.
Proof. induction a as [|x a IH]; simpl; [reflexivity | now rewrite IH]. Qed.

Lemma str_drop_nil (n : nat) : str_drop n EmptyString = EmptyString.
Proof. now destruct n. Qed.

Lemma str_take_nil (n : nat) : str_take n EmptyString = EmptyString.
Proof. now destruct n. Qed.

Lemma str_drop_drop (a b : nat) (s : string) :
  str_drop a (str_drop b s) = str_drop (b + a) s.
Proof.
  revert s; induction b as [|b IH]; intros s; simpl; [reflexivity|].
  destruct s as [|c s]; [now rewrite str_drop_nil | apply IH].
Qed.

Lemma str_drop_all (n : nat) (s : string) :
  String.length s <= n -> str_drop n s = EmptyString.
Proof.
  revert s; induction n as [|n IH]; intros [|c s] H; simpl in *;
    try reflexivity; try lia.
  apply IH; lia.
Qed.

Lemma str_length_drop (n : nat) (s : string) :
  String.length (str_drop n s) = String.length s - n.
Proof.
  revert s; induction n as [|n IH]; intros [|c s]; simpl; try reflexivity.
  apply IH.
Qed.

Lemma is_empty_true (s : string) : is_empty s = true <-> s = EmptyString.
Proof. destruct s; simpl; split; congruence. Qed.

Lemma is_empty_false (s : string) : is_empty s = false <-> s <> EmptyString.
Proof. destruct s; simpl; split; congruence. Qed.

(** ** isValidJsonPath *)

Lemma open_not_close (c : ascii) :
  is_open_bracket c = true -> is_close_bracket c = false.
Proof.
  unfold is_open_bracket, is_close_bracket.
  rewrite orb_true_iff, !Ascii.eqb_eq. intros [-> | ->]; reflexivity.
Qed.

Lemma running_depth_cons (c : ascii) (s : string) :
  running_depth (String c s) = (bracket_delta c + running_depth s)%Z.
Proof. reflexivity. Qed.

(** The loop of the validator against the running depth of the text: from
    a non-negative [depth], it ends with the final depth when no prefix takes
    the depth below zero, and returns early when one does. *)
Lemma scan_brackets_running (s : string) :
  forall depth : Z, (0 <= depth)%Z ->
  match scan_brackets (match_brackets s) depth with
  | Some d =>
      d = (depth + running_depth s)%Z
      /\ forall n, (0 <= depth + running_depth (str_take n s))%Z
  | None => exists n, (depth + running_depth (str_take n s) < 0)%Z
  end.
Proof.
  induction s as [|c s IH]; intros depth Hd.
  - simpl. split; [lia|]. intros n. rewrite str_take_nil. simpl. lia.
  - assert (Hstep : forall d' : Z,
        (0 <= d')%Z -> d' = (depth + bracket_delta c)%Z ->
        match scan_brackets (match_brackets s) d' with
        | Some d =>
            d = (depth + running_depth (String c s))%Z
            /\ forall n, (0 <= depth + running_depth (str_take n (String c s)))%Z
        | None => exists n, (depth + running_depth (str_take n (String c s)) < 0)%Z
        end).
    { intros d' Hd' ->. specialize (IH _ Hd').
      destruct (scan_brackets (match_brackets s) (depth + bracket_delta c)).
      - destruct IH as [-> IH]. split; [rewrite running_depth_cons; lia|].
        intros [|n]; simpl str_take; [simpl; lia|].
        rewrite running_depth_cons. specialize (IH n). lia.
      - destruct IH as [n IH]. exists (S n). simpl str_take.
        rewrite running_depth_cons. lia. }
    simpl match_brackets. unfold bracket_delta in Hstep.
    destruct (is_open_bracket c) eqn:Ho.
    + simpl orb. cbn [scan_brackets]. rewrite Ho, (open_not_close c Ho).
      destruct (Z.ltb_spec (depth + 1) 0); [lia|].
      apply Hstep; lia.
    + destruct (is_close_bracket c) eqn:Hc.
      * simpl orb. cbn [scan_brackets]. rewrite Ho, Hc.
        destruct (Z.ltb_spec (depth - 1) 0) as [Hneg|Hpos].
        -- exists 1. simpl str_take. rewrite running_depth_cons.
           unfold bracket_delta. rewrite Ho, Hc. simpl. lia.
        -- apply Hstep; lia.
      * simpl orb. cbv iota. apply Hstep; lia.
Qed.

Lemma scan_brackets_balanced (s : string) :
  (exists d, scan_brackets (match_brackets s) 0 = Some d /\ (d =? 0)%Z = true)
  <-> balanced s.
Proof.
  pose proof (scan_brackets_running s 0%Z (Z.le_refl 0)) as H.
  unfold balanced. split.
  - intros (d & Hs & Hz). rewrite Hs in H. destruct H as [-> H].
    apply Z.eqb_eq in Hz. split; [intros n; specialize (H n); lia | lia].
  - intros [Hpre Hend].
    destruct (scan_brackets (match_brackets s) 0) as [d|].
    + exists d. split; [reflexivity|]. apply Z.eqb_eq. lia.
    + destruct H as [n H]. specialize (Hpre n). lia.
Qed.

(** C4. [isValidJsonPath text] holds exactly when [text] is not empty, starts
    with the dollar or the at sign, and the running depth of its brackets and
    parentheses (up on an opening one, down on a closing one) is never
    negative and ends at zero; so it fails on the empty text and on a text
    with another first character.  The five sample texts of the
    specification come out as stated. *)
Theorem isValidJsonPath_structural :
  (forall text : string,
     isValidJsonPath text = true
     <-> (text <> EmptyString
          /\ (startsWith text "$" = true \/ startsWith text "@" = true)
          /\ balanced text))
  /\ isValidJsonPath EmptyString = false
  /\ isValidJsonPath "foo" = false
  /\ isValidJsonPath "$.a[0" = false
  /\ isValidJsonPath "$[0:10]" = true
  /\ isValidJsonPath "$[?(@.x==1)]" = true.
Proof.
  split; [|repeat split; reflexivity].
  intros text. unfold isValidJsonPath.
  destruct (is_empty text) eqn:He.
  { apply is_empty_true in He. split; [discriminate | intros [H _]; contradiction]. }
  apply is_empty_false in He.
  destruct (startsWith text "$") eqn:H1; destruct (startsWith text "@") eqn:H2;
    simpl negb; simpl andb; cbv iota.
  4: { split; [discriminate | intros (_ & [H|H] & _); discriminate]. }
  all: rewrite <- scan_brackets_balanced;
    destruct (scan_brackets (match_brackets text) 0) as [d|]; split.
  all: try (intros Hd; split; [exact He | split; [auto | exists d; auto]]).
  all: try (intros (_ & _ & d' & Hd' & Hz); congruence).
  all: try discriminate.
  all: try (intros (_ & _ & d' & Hd' & _); discriminate).
Qed.

(** ** generateFilterExpression *)

Lemma join_empty_cons (x : string) (xs : list string) :
  join EmptyString (x :: xs) = x ++ join EmptyString xs.
Proof.
  unfold join. destruct xs as [|y ys]; simpl.
  - now rewrite str_append_nil_r.
  - reflexivity.
Qed.

(** The first condition never takes a separator, whatever it carries. *)
Lemma filter_condition_first (c : FilterCondition) :
  filter_condition 0 c = spec_fragment c.
Proof.
  unfold filter_condition, spec_fragment, spec_comparison_value.
  destruct (filter_logicalOperator c) as [[|]|], (filter_operator c);
    reflexivity.
Qed.

(** A later condition that carries an operator starts with its separator. *)
Lemma filter_condition_later (index : nat) (c : FilterCondition) (lop : LogicalOperator) :
  filter_logicalOperator c = Some lop ->
  filter_condition (S index) c = spec_separator lop ++ spec_fragment c.
Proof.
  intros H. unfold filter_condition, spec_fragment, spec_comparison_value.
  rewrite H. destruct lop, (filter_operator c); reflexivity.
Qed.

Lemma map_indexed_later (rest : list FilterCondition) :
  forall (ops : list LogicalOperator) (index : nat),
  map filter_logicalOperator rest = map Some ops ->
  map_indexed filter_condition (S index) rest
  = map (fun oc => spec_separator (fst oc) ++ spec_fragment (snd oc))
      (combine ops rest).
Proof.
  induction rest as [|c rest IH]; intros [|op ops] index H; simpl in *;
    try reflexivity; try discriminate.
  injection H as Hc Hrest.
  now rewrite (filter_condition_later index c op Hc), (IH ops (S index) Hrest).
Qed.

(** C1. For a first condition and any conditions after it that each carry a
    logical operator ([ops] lists them in order), the synthesized clause is
    the opening [?( , the fragments in order, and the closing )] : a
    comparison renders property, operator and the value (bare when
    [Number(value)] is not NaN, between single quotes otherwise), [contains]
    and [regex] put the stored value between slashes (with the flag i for
    [contains]), [exists] is the bare property; every condition but the first
    starts with the separator of its operator, and the first with none. *)
Theorem generateFilterExpression_clause
    (first : FilterCondition) (rest : list FilterCondition)
    (ops : list LogicalOperator) :
  map filter_logicalOperator rest = map Some ops ->
  generateFilterExpression (first :: rest)
  = spec_filter_clause first (combine ops rest).
Proof.
  intros H. unfold generateFilterExpression, spec_filter_clause.
  simpl Nat.eqb. cbv iota. cbn [map_indexed].
  rewrite join_empty_cons, filter_condition_first.
  rewrite (map_indexed_later rest ops 0 H).
  now rewrite str_append_assoc.
Qed.

(** The example of the specification: two conditions joined by AND. *)
Lemma generateFilterExpression_clause_witness :
  buildJsonPathQuery "$" []
    [mkFilter "1" "brand" OpEq "Toyota" None;
     mkFilter "2" "year" OpGt "2015" (Some AND)] None false
  = "$[?(@.brand == 'Toyota' && @.year > 2015)]".
Proof.
  unfold buildJsonPathQuery. simpl.
  rewrite (generateFilterExpression_clause
             (mkFilter "1" "brand" OpEq "Toyota" None)
             [mkFilter "2" "year" OpGt "2015" (Some AND)] [AND] eq_refl).
  reflexivity.
Defined.

(** ** generateArraySlice and buildJsonPathQuery *)

(** What the synthesizer puts before the slice. *)
Lemma buildJsonPathQuery_parts (rootPath : string) (selectedPath : list string)
    (filters : list FilterCondition) (arraySlice : option ArraySlice)
    (recursiveDescent : bool) :
  buildJsonPathQuery rootPath selectedPath filters arraySlice recursiveDescent
  = buildJsonPathQuery rootPath selectedPath [] None recursiveDescent
    ++ match arraySlice with
       | Some slice => generateArraySlice slice
       | None => EmptyString
       end
    ++ generateFilterExpression filters.
Proof.
  unfold buildJsonPathQuery.
  destruct arraySlice as [slice|], filters as [|f filters]; simpl List.length;
    simpl Nat.ltb; cbv iota;
    rewrite ?str_append_assoc, ?str_append_nil_r; try reflexivity.
  all: unfold generateFilterExpression at 2; simpl;
    rewrite ?str_append_nil_r; reflexivity.
Qed.

(** C5, as the claim states it, fails: a step of 0 is set, and the slice
    with start 1, end 5 and step 0 still renders with two parts. *)
Lemma generateArraySlice_zero_step :
  generateArraySlice (mkSlice (Some 1%Z) (Some 5%Z) (Some 0%Z)) = "[1:5]"
  /\ spec_slice_notation (mkSlice (Some 1%Z) (Some 5%Z) (Some 0%Z)) = "[1:5:0]"
  /\ ~ (forall slice : ArraySlice,
          generateArraySlice slice = spec_slice_notation slice).
Proof.
  split; [reflexivity | split; [reflexivity|]].
  intros H. specialize (H (mkSlice (Some 1%Z) (Some 5%Z) (Some 0%Z))).
  discriminate H.
Qed.

(** C5, amended.  For every present slice the synthesizer appends, after the
    root and the selected path and before the filter clause, the three part
    notation when the step is set and not 0, the two part notation (an
    absent bound rendering as nothing) when the step is absent or 0 and the
    start or the end is set, and the wildcard when the step is absent or 0
    and both bounds are absent. *)
Theorem buildJsonPathQuery_slice (rootPath : string) (selectedPath : list string)
    (filters : list FilterCondition) (slice : ArraySlice)
    (recursiveDescent : bool) :
  buildJsonPathQuery rootPath selectedPath filters (Some slice) recursiveDescent
  = buildJsonPathQuery rootPath selectedPath [] None recursiveDescent
    ++ generateArraySlice slice ++ generateFilterExpression filters
  /\ generateArraySlice slice
     = match effective_step slice, slice_start slice, slice_end slice with
       | Some step, start, end_ =>
           "[" ++ slice_bound_text start ++ ":" ++ slice_bound_text end_
               ++ ":" ++ string_of_Z step ++ "]"
       | None, None, None => "[*]"
       | None, start, end_ =>
           "[" ++ slice_bound_text start ++ ":" ++ slice_bound_text end_ ++ "]"
       end.
Proof.
  split; [apply buildJsonPathQuery_parts|].
  unfold generateArraySlice, effective_step, truthy_int.
  destruct (slice_step slice) as [step|];
    [destruct (step =? 0)%Z|];
    destruct (slice_start slice), (slice_end slice); reflexivity.
Qed.

(** ** addMetric *)











(** ** analyzeSchema *)

(** Induction on a JSON value with the hypothesis for every item of an array
    and every entry of an object. *)
Section JSON_induction.
Variable P : JSON -> Prop.
Hypothesis Hundefined : P JUndefined.
Hypothesis Hnull : P JNull.
Hypothesis Hbool : forall b, P (JBool b).
Hypothesis Hnum : forall n, P (JNum n).
Hypothesis Hstr : forall s, P (JStr s).
Hypothesis Harr : forall items, Forall P items -> P (JArr items).
Hypothesis Hobj :
  forall entries, Forall (fun kv => P (snd kv)) entries -> P (JObj entries).

Lemma JSON_nested_ind : forall v : JSON, P v.
Proof.
  fix IH 1. intros [| |b|n|s|items|entries].
  - exact Hundefined.
  - exact Hnull.
  - apply Hbool.
  - apply Hnum.
  - apply Hstr.
  - apply Harr. induction items as [|x items IHl]; constructor.
    + apply IH.
    + exact IHl.
  - apply Hobj. induction entries as [|[k x] entries IHl]; constructor.
    + apply IH.
    + exact IHl.
Qed.
End JSON_induction.

Lemma node_count_children (name path : string) (type : FieldType)
    (children : list FieldNode) (isArray : bool) (itemType : option FieldType) :
  node_count (mkField name path type (Some children) isArray itemType)
  = S (forest_count children).
Proof.
  simpl. f_equal. unfold forest_count.
  induction children as [|c l IH]; simpl; [reflexivity | now rewrite IH].
Qed.

Lemma node_within_children (maxDepth : Z) (d : nat) (name path : string)
    (type : FieldType) (children : list FieldNode) (isArray : bool)
    (itemType : option FieldType) :
  node_within maxDepth d (mkField name path type (Some children) isArray itemType)
  <-> (Z.of_nat d <= maxDepth)%Z /\ forest_within maxDepth (S d) children.
Proof.
  simpl. unfold forest_within.
  assert (H : (fix all (l : list FieldNode) : Prop :=
                 match l with
                 | [] => True
                 | c :: l' => node_within maxDepth (S d) c /\ all l'
                 end) children
              <-> Forall (node_within maxDepth (S d)) children).
  { induction children as [|c l IH].
    - split; intros _; [constructor | exact I].
    - split; intros H.
      + destruct H as [Hc Hl]. constructor; [exact Hc | now apply IH].
      + inversion H; subst. split; [assumption | now apply IH]. }
  tauto.
Qed.

Lemma forest_count_app (a b : list FieldNode) :
  forest_count (a ++ b) = forest_count a + forest_count b.
Proof. unfold forest_count. now rewrite map_app, list_sum_app. Qed.

Lemma loop_ok_step (maxDepth : Z) (d : nat) (children : list FieldNode)
    (st : Counters) (childNode : option FieldNode) (st1 : Counters)
    (r : list FieldNode * Counters) :
  call_ok maxDepth d st (childNode, st1) ->
  loop_ok maxDepth d (push_node children childNode) st1 r ->
  loop_ok maxDepth d children st r.
Proof.
  intros (Hc & Hw & Hm) (new & Hf & Ht & Hfw & Hm'). simpl in *.
  destruct childNode as [node|]; simpl in *.
  - exists (node :: new). unfold push in Hf. rewrite <- app_assoc in Hf.
    split; [exact Hf|]. unfold forest_count in *. simpl.
    split; [lia|]. split; [constructor; assumption | auto].
  - exists new. split; [exact Hf|]. split; [lia|]. split; auto.
Qed.

Lemma forEach_entry_ok (maxDepth : Z) (d : nat)
    (analyze : JSON -> string -> Counters -> option FieldNode * Counters)
    (entries : list (string * JSON)) :
  Forall (fun kv => forall key st, call_ok maxDepth d st (analyze (snd kv) key st))
    entries ->
  forall children st,
    loop_ok maxDepth d children st (forEach_entry analyze entries children st).
Proof.
  induction 1 as [|[k v] entries Hv _ IH]; intros children st; simpl.
  - exists []. rewrite app_nil_r. unfold forest_count, forest_within. simpl.
    repeat split; auto.
  - specialize (Hv k st). simpl in Hv.
    destruct (analyze v k st) as [childNode st1].
    eapply loop_ok_step; [exact Hv | apply IH].
Qed.

Lemma forEach_index_ok (maxDepth : Z) (d : nat)
    (analyze : JSON -> string -> Counters -> option FieldNode * Counters)
    (items : list JSON) :
  Forall (fun v => forall key st, call_ok maxDepth d st (analyze v key st)) items ->
  forall index children st,
    loop_ok maxDepth d children st (forEach_index analyze items index children st).
Proof.
  induction 1 as [|v items Hv _ IH]; intros index children st; simpl.
  - exists []. rewrite app_nil_r. unfold forest_count, forest_within. simpl.
    repeat split; auto.
  - specialize (Hv (string_of_nat index) st).
    destruct (analyze v (string_of_nat index) st) as [childNode st1].
    eapply loop_ok_step; [exact Hv | apply IH].
Qed.

(** A node that has been counted, with the children a loop has collected. *)
Lemma call_ok_parent (maxDepth : Z) (depth : nat) (st : Counters)
    (name path : string) (type : FieldType) (isArray : bool)
    (itemType : option FieldType) (r : list FieldNode * Counters) :
  (Z.of_nat depth <= maxDepth)%Z ->
  loop_ok maxDepth (S depth) []
    (mkCounters (S (totalFields st)) (Nat.max (maxDepthReached st) depth)) r ->
  call_ok maxDepth depth st
    (Some (mkField name path type (Some (fst r)) isArray itemType), snd r).
Proof.
  intros Hd (new & Hf & Ht & Hw & Hm). destruct r as [children st'].
  cbn [fst snd app] in *. subst children.
  unfold call_ok. cbn [fst snd].
  rewrite node_count_children, node_within_children.
  split; [rewrite Ht; cbn [totalFields]; lia|]. split; [split; assumption|].
  intros H. apply Hm. cbn [maxDepthReached]. lia.
Qed.

Lemma call_ok_leaf (maxDepth : Z) (depth : nat) (st : Counters)
    (name path : string) (type : FieldType) (isArray : bool)
    (itemType : option FieldType) :
  (Z.of_nat depth <= maxDepth)%Z ->
  call_ok maxDepth depth st
    (Some (mkField name path type None isArray itemType),
     mkCounters (S (totalFields st)) (Nat.max (maxDepthReached st) depth)).
Proof.
  intros Hd. unfold call_ok. simpl. repeat split; try lia; auto.
Qed.

Lemma analyzeValue_ok (maxDepth : Z) (value : JSON) :
  analyze_ok maxDepth value
  /\ match value with
     | JArr items => Forall (analyze_ok maxDepth) items
     | JObj entries => Forall (fun kv => analyze_ok maxDepth (snd kv)) entries
     | _ => True
     end.
Proof.
  induction value as [| |b|n|s|items IH|entries IH] using JSON_nested_ind.
  1-5: split; [|exact I]; intros name path depth st; simpl;
    destruct (Z.gtb_spec (Z.of_nat depth) maxDepth);
    [ unfold call_ok; simpl; repeat split; auto; lia
    | apply call_ok_leaf; lia ].
  - assert (Hitems : Forall (analyze_ok maxDepth) items).
    { eapply Forall_impl; [|exact IH]. simpl. intros v Hv. apply Hv. }
    split; [|exact Hitems].
    intros name path depth st. simpl.
    destruct (Z.gtb_spec (Z.of_nat depth) maxDepth) as [Hgt|Hle].
    { unfold call_ok; simpl; repeat split; auto; lia. }
    destruct items as [|firstItem items]; [apply call_ok_leaf; lia|].
    inversion IH as [|? ? [_ Hfirst] _]; subst.
    destruct firstItem as [| |b|n|s|elems|entries]; try (apply call_ok_leaf; lia).
    + match goal with
      | |- context [forEach_index ?f ?l ?i ?c ?s] =>
          pose proof (forEach_index_ok maxDepth (S depth) f l) as Hloop;
          destruct (forEach_index f l i c s) as [children st'] eqn:E
      end.
      change children with (fst (children, st')).
      change st' with (snd (children, st')) at 2.
      apply call_ok_parent; [lia|]. rewrite <- E. apply Hloop.
      eapply Forall_impl; [|exact Hfirst]. intros v Hv key st0. apply Hv.
    + match goal with
      | |- context [forEach_entry ?f ?l ?c ?s] =>
          pose proof (forEach_entry_ok maxDepth (S depth) f l) as Hloop;
          destruct (forEach_entry f l c s) as [children st'] eqn:E
      end.
      change children with (fst (children, st')).
      change st' with (snd (children, st')) at 2.
      apply call_ok_parent; [lia|]. rewrite <- E. apply Hloop.
      eapply Forall_impl; [|exact Hfirst]. intros v Hv key st0. apply Hv.
  - assert (Hentries : Forall (fun kv => analyze_ok maxDepth (snd kv)) entries).
    { eapply Forall_impl; [|exact IH]. simpl. intros v Hv. apply Hv. }
    split; [|exact Hentries].
    intros name path depth st. simpl.
    destruct (Z.gtb_spec (Z.of_nat depth) maxDepth) as [Hgt|Hle].
    { unfold call_ok; simpl; repeat split; auto; lia. }
    match goal with
    | |- context [forEach_entry ?f ?l ?c ?s] =>
        pose proof (forEach_entry_ok maxDepth (S depth) f l) as Hloop;
        destruct (forEach_entry f l c s) as [children st'] eqn:E
    end.
    change children with (fst (children, st')).
    change st' with (snd (children, st')) at 2.
    apply call_ok_parent; [lia|]. rewrite <- E. apply Hloop.
    eapply Forall_impl; [|exact Hentries]. intros v Hv key st0. apply Hv.
Qed.

(** C3. For every value and every [maxDepth >= 0], the [depth] of the
    result is at most [maxDepth]; every node of the returned forest lies at a
    depth of at most [maxDepth] (the fields of a root object are at depth 0,
    those of a root array, being the children of its root node, at depth 1),
    so a branch beyond the bound leaves no node at all; and [totalFields]
    counts exactly the nodes that were created: those of the forest, and the
    root node of a root array. *)
Theorem analyzeSchema_bounded (data : JSON) (maxDepth : Z) :
  (0 <= maxDepth)%Z ->
  let result := analyzeSchema data maxDepth in
  (Z.of_nat (schema_depth result) <= maxDepth)%Z
  /\ forest_within maxDepth (root_level data) (schema_fields result)
  /\ schema_totalFields result
     = forest_count (schema_fields result) + root_nodes data.
Proof.
  intros Hmax. cbv zeta.
  assert (Hleaf : (Z.of_nat (schema_depth (mkSchema [] 0 0)) <= maxDepth)%Z
                  /\ forest_within maxDepth 0 (schema_fields (mkSchema [] 0 0))
                  /\ schema_totalFields (mkSchema [] 0 0)
                     = forest_count (schema_fields (mkSchema [] 0 0)) + 0).
  { simpl. repeat split; [lia | constructor]. }
  destruct data as [| |b|n|s|items|entries]; try exact Hleaf.
  - unfold analyzeSchema.
    pose proof (proj1 (analyzeValue_ok maxDepth (JArr items))
                  "root" "$" 0 (mkCounters 0 0)) as (Ht & Hw & Hm).
    destruct (analyzeValue maxDepth (JArr items) "root" "$" 0 (mkCounters 0 0))
      as [rootNode st] eqn:E.
    cbn [fst snd totalFields maxDepthReached] in *.
    cbn [schema_depth schema_fields schema_totalFields root_level root_nodes].
    split; [apply Hm; lia|].
    destruct rootNode as [[name path type [children|] isArray itemType]|].
    + rewrite node_within_children in Hw. rewrite node_count_children in Ht.
      cbn [field_children]. split; [apply Hw | lia].
    + cbn [field_children]. simpl in Ht. unfold forest_count. simpl.
      split; [constructor | lia].
    + exfalso. simpl in E.
      destruct (Z.gtb_spec 0 maxDepth); [lia|].
      destruct items as [|[| |b|n|s|elems|entries] items]; try discriminate E.
      * destruct (forEach_index _ _ _ _ _); discriminate E.
      * destruct (forEach_entry _ _ _ _); discriminate E.
  - unfold analyzeSchema.
    match goal with
    | |- context [forEach_entry ?f ?l ?c ?s] =>
        pose proof (forEach_entry_ok maxDepth 0 f l) as Hloop;
        destruct (forEach_entry f l c s) as [fields st] eqn:E
    end.
    assert (Hall : Forall
              (fun kv : string * JSON =>
                 forall key st0,
                   call_ok maxDepth 0 st0
                     (analyzeValue maxDepth (snd kv) key ("$." ++ key) 0 st0))
              entries).
    { apply Forall_forall. intros kv _ key st0.
      apply (proj1 (analyzeValue_ok maxDepth (snd kv))). }
    specialize (Hloop Hall [] (mkCounters 0 0)). rewrite E in Hloop.
    destruct Hloop as (new & Hf & Ht & Hw & Hm).
    cbn [fst snd app totalFields maxDepthReached] in *. subst new.
    cbn [schema_depth schema_fields schema_totalFields root_level root_nodes].
    split; [apply Hm; lia|]. split; [exact Hw | lia].
Qed.

(** The theorem on a car record inside an array, analysed to depth 1. *)
Lemma analyzeSchema_bounded_witness :
  let data :=
    JArr [JObj [("brand", JObj [("name", JStr "Suzuki")]); ("price", JNum 7)]] in
  (0 <= 1)%Z
  /\ (Z.of_nat (schema_depth (analyzeSchema data 1)) <= 1)%Z
  /\ schema_totalFields (analyzeSchema data 1) = 3.
Proof.
  cbv zeta. split; [lia|].
  pose proof (analyzeSchema_bounded
                (JArr [JObj [("brand", JObj [("name", JStr "Suzuki")]);
                             ("price", JNum 7)]]) 1 ltac:(lia)) as H.
  cbv zeta in H. destruct H as (Hd & _ & Ht).
  split; [exact Hd|]. rewrite Ht. reflexivity.
Defined.

(** ** highlightText *)

Lemma str_drop_min (n : nat) (s : string) :
  str_drop (Nat.min n (String.length s)) s = str_drop n s.
Proof.
  destruct (Nat.le_ge_cases n (String.length s)) as [H|H].
  - now rewrite Nat.min_l.
  - rewrite Nat.min_r by exact H.
    now rewrite !str_drop_all by lia.
Qed.

(** Two cuts of a text that follow each other: what starts at [a] is the
    piece from [a] to [b] and then what starts at [b]. *)
Lemma substring_contiguous (s : string) (a b : nat) :
  a <= b -> str_drop a s = substring s a b ++ str_drop b s.
Proof.
  intros Hab. unfold substring.
  set (len := String.length s).
  assert (Hmin : Nat.min a len <= Nat.min b len)
    by (apply Nat.min_le_compat_r; exact Hab).
  rewrite (Nat.min_l _ _ Hmin), (Nat.max_r _ _ Hmin).
  rewrite <- (str_drop_min a s), <- (str_drop_min b s). fold len.
  replace (Nat.min b len) with (Nat.min a len + (Nat.min b len - Nat.min a len))
    at 2 by lia.
  rewrite <- str_drop_drop. now rewrite str_take_drop.
Qed.

Lemma substring_from_rest (s : string) (a : nat) :
  str_drop a s = substring_from s a.
Proof.
  unfold substring_from.
  destruct (Nat.le_ge_cases a (String.length s)) as [H|H].
  - rewrite (substring_contiguous s a (String.length s) H).
    now rewrite (str_drop_all (String.length s) s), str_append_nil_r.
  - rewrite str_drop_all by exact H. unfold substring.
    rewrite (Nat.min_r a) by exact H.
    rewrite !Nat.min_id, Nat.max_id, Nat.sub_diag.
    reflexivity.
Qed.

Lemma prefix_length (p s : string) :
  String.prefix p s = true -> String.length p <= String.length s.
Proof.
  revert s; induction p as [|c p IH]; intros [|d s] H; simpl in *;
    try lia; try discriminate.
  destruct (ascii_dec c d); [|discriminate].
  specialize (IH s H). lia.
Qed.

Lemma indexOf_scan_bounds (needle hay : string) :
  forall k i : nat,
  indexOf_scan needle hay k = Some i ->
  k <= i /\ i + String.length needle <= k + String.length hay.
Proof.
  induction hay as [|c hay IH]; intros k i H; cbn [indexOf_scan] in H.
  - destruct (String.prefix needle EmptyString) eqn:E; [|discriminate].
    injection H as <-. apply prefix_length in E. simpl in *. lia.
  - destruct (String.prefix needle (String c hay)) eqn:E.
    + injection H as <-. apply prefix_length in E. simpl in *. lia.
    + apply IH in H. simpl. lia.
Qed.

(** A hit of [indexOf] for a needle that is not empty lies at or after the
    position asked for, and inside the text. *)
Lemma indexOf_bounds (hay needle : string) (pos i : nat) :
  needle <> EmptyString ->
  indexOf hay needle pos = Some i ->
  pos <= i /\ i < String.length hay.
Proof.
  intros Hne H. unfold indexOf in H.
  apply indexOf_scan_bounds in H. rewrite str_length_drop in H.
  assert (0 < String.length needle) by (destruct needle; simpl; [congruence | lia]).
  destruct (Nat.le_ge_cases pos (String.length hay)) as [Hle|Hge].
  - rewrite Nat.min_l in H by exact Hle. lia.
  - rewrite Nat.min_r in H by exact Hge. lia.
Qed.

Lemma join_empty_app (a b : list string) :
  join EmptyString (a ++ b) = join EmptyString a ++ join EmptyString b.
Proof.
  induction a as [|x a IH]; [reflexivity|].
  rewrite <- app_comm_cons, !join_empty_cons, IH. now rewrite str_append_assoc.
Qed.

Lemma segments_text_push (segments : list Segment) (seg : Segment) :
  segments_text (push segments seg) = segments_text segments ++ segment_text seg.
Proof.
  unfold segments_text, push. rewrite map_app, join_empty_app.
  simpl. reflexivity.
Qed.

(** The loop, for any normalized text and any needle that is not empty:
    with fuel for every position left, it ends, and the segments made so far
    followed by the rest of the text from [lastIndex] remain the text. *)
Lemma highlight_loop_concat (text textNormalized searchNormalized : string)
    (termLength : nat) :
  searchNormalized <> EmptyString ->
  0 < termLength ->
  forall (fuel : nat) (lastIndex : nat) (segments : list Segment),
  String.length textNormalized <= fuel + lastIndex ->
  segments_text segments ++ str_drop lastIndex text = text ->
  exists segments' lastIndex',
    highlight_loop fuel text textNormalized searchNormalized termLength
      (indexOf textNormalized searchNormalized lastIndex) lastIndex segments
    = Some (segments', lastIndex')
    /\ segments_text segments' ++ str_drop lastIndex' text = text.
Proof.
  intros Hne Hlen. induction fuel as [|fuel IH]; intros lastIndex segments Hfuel Hinv.
  - destruct (indexOf textNormalized searchNormalized lastIndex) as [index|] eqn:E.
    + apply indexOf_bounds in E; [lia | exact Hne].
    + simpl. eauto.
  - destruct (indexOf textNormalized searchNormalized lastIndex) as [index|] eqn:E.
    + apply indexOf_bounds in E; [|exact Hne]. destruct E as [Hlo Hhi].
      cbn [highlight_loop]. apply IH; [lia|].
      rewrite segments_text_push. cbn [segment_text].
      rewrite str_append_assoc.
      rewrite <- (substring_contiguous text index (index + termLength)) by lia.
      destruct (Nat.ltb_spec lastIndex index) as [Hlt|Hge].
      * rewrite segments_text_push. cbn [segment_text].
        rewrite str_append_assoc.
        rewrite <- (substring_contiguous text lastIndex index) by lia.
        exact Hinv.
      * replace index with lastIndex by lia. exact Hinv.
    + simpl. eauto.
Qed.

(** The property for any case folding that keeps a text that is not empty
    from becoming empty. *)
Lemma highlightText_with_concat (lower : string -> string)
    (text searchTerm : string) (caseSensitive : bool) :
  (forall s, s <> EmptyString -> lower s <> EmptyString) ->
  exists segments,
    highlightText_with lower text searchTerm caseSensitive = Some segments
    /\ segments_text segments = text.
Proof.
  intros Hlower. unfold highlightText_with.
  destruct (is_empty searchTerm) eqn:Hs.
  { simpl. eexists; split; [reflexivity|]. unfold segments_text. simpl. reflexivity. }
  destruct (is_empty text) eqn:Ht.
  { simpl. eexists; split; [reflexivity|]. unfold segments_text. simpl. reflexivity. }
  simpl orb. cbv iota.
  apply is_empty_false in Hs.
  set (searchNormalized := if caseSensitive then searchTerm else lower searchTerm).
  set (textNormalized := if caseSensitive then text else lower text).
  assert (Hne : searchNormalized <> EmptyString).
  { subst searchNormalized. destruct caseSensitive; [exact Hs | now apply Hlower]. }
  assert (Hlen : 0 < String.length searchTerm).
  { destruct searchTerm; simpl; [congruence | lia]. }
  destruct (highlight_loop_concat text textNormalized searchNormalized
              (String.length searchTerm) Hne Hlen
              (String.length textNormalized) 0 [])
    as (segments & lastIndex & Hloop & Hinv); [lia | reflexivity |].
  rewrite Hloop.
  destruct (Nat.ltb_spec lastIndex (String.length text)) as [Hlt|Hge].
  - eexists; split; [reflexivity|].
    rewrite segments_text_push. cbn [segment_text].
    now rewrite <- substring_from_rest.
  - eexists; split; [reflexivity|].
    rewrite str_drop_all in Hinv by exact Hge.
    now rewrite str_append_nil_r in Hinv.
Qed.

Lemma toLowerCase_nonempty (s : string) :
  s <> EmptyString -> toLowerCase s <> EmptyString.
Proof. destruct s; simpl; congruence. Qed.

(** C9. For every text and every search term, in either case mode,
    [highlightText] returns, and the texts of its segments, put one after
    the other in order, are the input text, character for character. *)
Theorem highlightText_concat (text searchTerm : string) (caseSensitive : bool) :
  exists segments : list Segment,
    highlightText text searchTerm caseSensitive = Some segments
    /\ segments_text segments = text.
Proof.
  apply highlightText_with_concat, toLowerCase_nonempty.
Qed.

(** ** calculateDistribution: the order of the doubles *)

Lemma double_ltb_rank (x y : double) :
  is_nan x = false -> is_nan y = false ->
  (double_ltb x y = true <-> rank_lt x y).
Proof.
  intros Hx Hy. unfold double_ltb, SFltb, SFcompare, rank_lt.
  destruct x as [[|]|[|]| |[|] m e], y as [[|]|[|]| |[|] m' e'];
    try discriminate; cbn [rank_class rank_exponent rank_mantissa];
    try (split; [discriminate | intros H; exfalso; lia]);
    try (split; [intros _; lia | reflexivity]).
  - change (Pos.compare_cont Eq m m') with (Pos.compare m m').
    destruct (Z.compare_spec e e'), (Pos.compare_spec m m'); cbn [CompOpp];
      (split; [try discriminate; intros _; lia | intros H'; try reflexivity; exfalso; lia]).
  - change (Pos.compare_cont Eq m m') with (Pos.compare m m').
    destruct (Z.compare_spec e e'), (Pos.compare_spec m m');
      (split; [try discriminate; intros _; lia | intros H'; try reflexivity; exfalso; lia]).
Qed.

Lemma double_eqb_rank (x y : double) :
  is_nan x = false -> is_nan y = false ->
  (double_eqb x y = true <-> rank_eq x y).
Proof.
  intros Hx Hy. unfold double_eqb, SFeqb, SFcompare, rank_eq.
  destruct x as [[|]|[|]| |[|] m e], y as [[|]|[|]| |[|] m' e'];
    try discriminate; cbn [rank_class rank_exponent rank_mantissa];
    try (split; [discriminate | intros H; exfalso; lia]);
    try (split; [intros _; lia | reflexivity]).
  - change (Pos.compare_cont Eq m m') with (Pos.compare m m').
    destruct (Z.compare_spec e e'), (Pos.compare_spec m m'); cbn [CompOpp];
      (split; [try discriminate; intros _; lia | intros H'; try reflexivity; exfalso; lia]).
  - change (Pos.compare_cont Eq m m') with (Pos.compare m m').
    destruct (Z.compare_spec e e'), (Pos.compare_spec m m');
      (split; [try discriminate; intros _; lia | intros H'; try reflexivity; exfalso; lia]).
Qed.

Lemma double_leb_rank (x y : double) :
  is_nan x = false -> is_nan y = false ->
  (double_leb x y = true <-> rank_lt x y \/ rank_eq x y).
Proof.
  intros Hx Hy.
  rewrite <- (double_ltb_rank x y Hx Hy), <- (double_eqb_rank x y Hx Hy).
  unfold double_leb, double_ltb, double_eqb, SFleb, SFltb, SFeqb.
  destruct (SFcompare x y) as [[| |]|]; intuition discriminate.
Qed.

Lemma double_leb_refl (x : double) : is_nan x = false -> double_leb x x = true.
Proof.
  intros Hx. apply double_leb_rank; [exact Hx | exact Hx|]. right.
  unfold rank_eq. auto.
Qed.

Lemma double_leb_trans (x y z : double) :
  is_nan x = false -> is_nan y = false -> is_nan z = false ->
  double_leb x y = true -> double_leb y z = true -> double_leb x z = true.
Proof.
  intros Hx Hy Hz Hxy Hyz.
  apply double_leb_rank in Hxy; [|exact Hx | exact Hy].
  apply double_leb_rank in Hyz; [|exact Hy | exact Hz].
  apply double_leb_rank; [exact Hx | exact Hz|].
  unfold rank_lt, rank_eq in *. lia.
Qed.

Lemma double_ltb_leb (x y : double) :
  double_ltb x y = true -> double_leb x y = true.
Proof.
  unfold double_ltb, double_leb, SFltb, SFleb.
  destruct (SFcompare x y) as [[| |]|]; auto.
Qed.

Lemma double_eqb_leb (x y : double) :
  double_eqb x y = true -> double_leb x y = true.
Proof.
  unfold double_eqb, double_leb, SFeqb, SFleb.
  destruct (SFcompare x y) as [[| |]|]; auto.
Qed.

(** Two doubles that are not [NaN] compare one way or the other. *)
Lemma double_ltb_total (x y : double) :
  is_nan x = false -> is_nan y = false ->
  double_ltb x y = false -> double_leb y x = true.
Proof.
  intros Hx Hy H.
  apply double_leb_rank; [exact Hy | exact Hx|].
  assert (Hn : ~ rank_lt x y).
  { intros Hlt. apply (double_ltb_rank x y Hx Hy) in Hlt. congruence. }
  unfold rank_lt, rank_eq in *. lia.
Qed.

Lemma is_nan_eq (x : double) : is_nan x = true -> x = S754_nan.
Proof. destruct x; try discriminate. reflexivity. Qed.

(** ** calculateDistribution: the least and the greatest time *)

(** One round of [Math.max]: the new highest value is the old one or the
    number, and neither is above it. *)
Lemma max_loop_step (highest number : double) (rest : list double) :
  is_nan highest = false -> is_nan number = false ->
  exists pick : double,
    max_loop highest (number :: rest) = max_loop pick rest
    /\ (pick = highest \/ pick = number)
    /\ double_leb highest pick = true
    /\ double_leb number pick = true.
Proof.
  intros Hh Hn. cbn [max_loop]. rewrite Hn.
  assert (Hgen :
    exists pick : double,
      (if double_ltb highest number then max_loop number rest
       else max_loop highest rest) = max_loop pick rest
      /\ (pick = highest \/ pick = number)
      /\ double_leb highest pick = true
      /\ double_leb number pick = true).
  { destruct (double_ltb highest number) eqn:E.
    - exists number. split; [reflexivity|]. split; [now right|].
      split; [now apply double_ltb_leb | now apply double_leb_refl].
    - exists highest. split; [reflexivity|]. split; [now left|].
      split; [now apply double_leb_refl | now apply double_ltb_total]. }
  destruct number as [[|]| | |]; try exact Hgen.
  destruct highest as [[|]| | |]; try exact Hgen.
  exists (S754_zero false). split; [reflexivity|]. split; [now right|].
  split; reflexivity.
Qed.

Lemma min_loop_step (lowest number : double) (rest : list double) :
  is_nan lowest = false -> is_nan number = false ->
  exists pick : double,
    min_loop lowest (number :: rest) = min_loop pick rest
    /\ (pick = lowest \/ pick = number)
    /\ double_leb pick lowest = true
    /\ double_leb pick number = true.
Proof.
  intros Hl Hn. cbn [min_loop]. rewrite Hn.
  assert (Hgen :
    exists pick : double,
      (if double_ltb number lowest then min_loop number rest
       else min_loop lowest rest) = min_loop pick rest
      /\ (pick = lowest \/ pick = number)
      /\ double_leb pick lowest = true
      /\ double_leb pick number = true).
  { destruct (double_ltb number lowest) eqn:E.
    - exists number. split; [reflexivity|]. split; [now right|].
      split; [now apply double_ltb_leb | now apply double_leb_refl].
    - exists lowest. split; [reflexivity|]. split; [now left|].
      split; [now apply double_leb_refl | now apply double_ltb_total]. }
  destruct number as [[|]| | |]; try exact Hgen.
  destruct lowest as [[|]| | |]; try exact Hgen.
  exists (S754_zero true). split; [reflexivity|]. split; [now right|].
  split; reflexivity.
Qed.

Lemma max_loop_spec (coerced : list double) :
  forall highest : double,
  is_nan highest = false ->
  Forall (fun t => is_nan t = false) coerced ->
  let r := max_loop highest coerced in
  is_nan r = false
  /\ (r = highest \/ In r coerced)
  /\ double_leb highest r = true
  /\ forall t, In t coerced -> double_leb t r = true.
Proof.
  induction coerced as [|number rest IH]; intros highest Hh Hall; cbv zeta.
  - cbn [max_loop]. split; [exact Hh|]. split; [now left|].
    split; [now apply double_leb_refl | intros t []].
  - inversion Hall as [|? ? Hn Hrest]; subst.
    destruct (max_loop_step highest number rest Hh Hn)
      as (pick & -> & Hpick & Hhp & Hnp).
    assert (Hp : is_nan pick = false) by (destruct Hpick; now subst).
    destruct (IH pick Hp Hrest) as (Hr & Hin & Hle & Hall').
    cbv zeta in *. set (r := max_loop pick rest) in *.
    split; [exact Hr|]. split.
    + destruct Hin as [->|Hin]; [|right; now right].
      destruct Hpick as [->| ->]; [now left | right; now left].
    + split; [now apply (double_leb_trans highest pick r)|].
      intros t [<-|Ht]; [now apply (double_leb_trans number pick r)|].
      now apply Hall'.
Qed.

Lemma min_loop_spec (coerced : list double) :
  forall lowest : double,
  is_nan lowest = false ->
  Forall (fun t => is_nan t = false) coerced ->
  let r := min_loop lowest coerced in
  is_nan r = false
  /\ (r = lowest \/ In r coerced)
  /\ double_leb r lowest = true
  /\ forall t, In t coerced -> double_leb r t = true.
Proof.
  induction coerced as [|number rest IH]; intros lowest Hl Hall; cbv zeta.
  - cbn [min_loop]. split; [exact Hl|]. split; [now left|].
    split; [now apply double_leb_refl | intros t []].
  - inversion Hall as [|? ? Hn Hrest]; subst.
    destruct (min_loop_step lowest number rest Hl Hn)
      as (pick & -> & Hpick & Hpl & Hpn).
    assert (Hp : is_nan pick = false) by (destruct Hpick; now subst).
    destruct (IH pick Hp Hrest) as (Hr & Hin & Hle & Hall').
    cbv zeta in *. set (r := min_loop pick rest) in *.
    split; [exact Hr|]. split.
    + destruct Hin as [->|Hin]; [|right; now right].
      destruct Hpick as [->| ->]; [now left | right; now left].
    + split; [now apply (double_leb_trans r pick lowest)|].
      intros t [<-|Ht]; [now apply (double_leb_trans r pick number)|].
      now apply Hall'.
Qed.

(** With a [NaN] among the values both searches answer [NaN]. *)
Lemma max_loop_nan (coerced : list double) :
  forall highest : double,
  existsb is_nan coerced = true -> max_loop highest coerced = S754_nan.
Proof.
  induction coerced as [|number rest IH]; intros highest H; [discriminate|].
  cbn [existsb] in H. cbn [max_loop].
  destruct (is_nan number) eqn:E; [reflexivity|]. cbn [orb] in H.
  destruct number as [[|]| | |], highest as [[|]| | |];
    try destruct (double_ltb _ _); now apply IH.
Qed.

Lemma min_loop_nan (coerced : list double) :
  forall lowest : double,
  existsb is_nan coerced = true -> min_loop lowest coerced = S754_nan.
Proof.
  induction coerced as [|number rest IH]; intros lowest H; [discriminate|].
  cbn [existsb] in H. cbn [min_loop].
  destruct (is_nan number) eqn:E; [reflexivity|]. cbn [orb] in H.
  destruct number as [[|]| | |], lowest as [[|]| | |];
    try destruct (double_ltb _ _); now apply IH.
Qed.

Lemma existsb_is_nan (values : list double) :
  existsb is_nan values = true -> In S754_nan values.
Proof.
  intros H. apply existsb_exists in H. destruct H as (x & Hin & Hx).
  apply is_nan_eq in Hx. now subst.
Qed.

Lemma existsb_not_nan (values : list double) :
  existsb is_nan values = false -> Forall (fun t => is_nan t = false) values.
Proof.
  induction values as [|x values IH]; intros H; [constructor|].
  cbn [existsb] in H. apply orb_false_iff in H. destruct H as [Hx H].
  constructor; [exact Hx | now apply IH].
Qed.

(** The one double at or below minus infinity is minus infinity. *)
Lemma double_leb_bottom (x : double) :
  double_leb x (S754_infinity true) = true -> x = S754_infinity true.
Proof. destruct x as [[|]|[|]| |[|] m e]; try discriminate. reflexivity. Qed.

Lemma double_leb_top (x : double) :
  double_leb (S754_infinity false) x = true -> x = S754_infinity false.
Proof. destruct x as [[|]|[|]| |[|] m e]; try discriminate. reflexivity. Qed.

(** [Math.max] of values that are not empty is one of them; without a [NaN]
    among them none is above it. *)
Lemma Math_max_spec (values : list double) :
  values <> [] ->
  In (Math_max values) values
  /\ (Forall (fun t => is_nan t = false) values ->
      is_nan (Math_max values) = false
      /\ forall t, In t values -> double_leb t (Math_max values) = true).
Proof.
  intros Hne. unfold Math_max.
  destruct (existsb is_nan values) eqn:E.
  - rewrite (max_loop_nan _ _ E). split; [now apply existsb_is_nan|].
    intros Hall. exfalso. apply existsb_exists in E.
    destruct E as (x & Hin & Hx). rewrite Forall_forall in Hall.
    rewrite (Hall x Hin) in Hx. discriminate.
  - destruct (max_loop_spec values (S754_infinity true) eq_refl
                (existsb_not_nan _ E)) as (Hr & Hin & _ & Hall).
    cbv zeta in *. split; [|intros _; split; assumption].
    destruct Hin as [Hin|Hin]; [|exact Hin].
    destruct values as [|t rest]; [congruence|].
    rewrite Hin in Hall |- *. left.
    apply double_leb_bottom, Hall. now left.
Qed.

Lemma Math_min_spec (values : list double) :
  values <> [] ->
  In (Math_min values) values
  /\ (Forall (fun t => is_nan t = false) values ->
      is_nan (Math_min values) = false
      /\ forall t, In t values -> double_leb (Math_min values) t = true).
Proof.
  intros Hne. unfold Math_min.
  destruct (existsb is_nan values) eqn:E.
  - rewrite (min_loop_nan _ _ E). split; [now apply existsb_is_nan|].
    intros Hall. exfalso. apply existsb_exists in E.
    destruct E as (x & Hin & Hx). rewrite Forall_forall in Hall.
    rewrite (Hall x Hin) in Hx. discriminate.
  - destruct (min_loop_spec values (S754_infinity false) eq_refl
                (existsb_not_nan _ E)) as (Hr & Hin & _ & Hall).
    cbv zeta in *. split; [|intros _; split; assumption].
    destruct Hin as [Hin|Hin]; [|exact Hin].
    destruct values as [|t rest]; [congruence|].
    rewrite Hin in Hall |- *. left.
    apply double_leb_top, Hall. now left.
Qed.

(** ** calculateDistribution: the width and the bounds *)

Lemma double_eqb_refl (x : double) : is_nan x = false -> double_eqb x x = true.
Proof.
  intros Hx. apply double_eqb_rank; [exact Hx | exact Hx|].
  unfold rank_eq. auto.
Qed.

Lemma double_eqb_nan (x y : double) :
  double_eqb x y = true -> is_nan x = false /\ is_nan y = false.
Proof. destruct x, y; try discriminate; auto. Qed.

(** The difference of two equal doubles is a zero or, for two infinities,
    [NaN]; a tenth of it is falsy. *)
Lemma double_sub_equal (x y : double) :
  double_eqb x y = true ->
  double_truthy (double_div (double_sub x y) (double_of_nat 10)) = false.
Proof.
  intros H. destruct (double_eqb_nan _ _ H) as [Hx Hy].
  apply (double_eqb_rank x y Hx Hy) in H. unfold rank_eq in H.
  destruct x as [[|]|[|]| |[|] m e], y as [[|]|[|]| |[|] m' e'];
    cbn [rank_class rank_exponent rank_mantissa] in H;
    try discriminate; try (exfalso; lia); try reflexivity.
  - assert (e = e') by lia. assert (m = m') by lia. subst e' m'.
    unfold double_sub, SFsub. rewrite Z.sub_diag. reflexivity.
  - assert (e = e') by lia. assert (m = m') by lia. subst e' m'.
    unfold double_sub, SFsub. rewrite Z.sub_diag. reflexivity.
Qed.

(** The lower bound of the first bin is the least time, when the width is
    finite. *)
Lemma first_bound (min width : double) :
  is_nan min = false -> is_nan width = false -> is_infinite width = false ->
  double_eqb (double_add min (double_mul (double_of_nat 0) width)) min = true.
Proof.
  intros Hm Hw Hi.
  assert (Hz : exists s, double_mul (double_of_nat 0) width = S754_zero s).
  { destruct width as [s|s| |s m e]; try discriminate;
      eexists; reflexivity. }
  destruct Hz as [s ->].
  destruct min as [[|]|[|]| |sm m e]; try discriminate;
    try (destruct s; reflexivity).
  change (double_add (S754_finite sm m e) (S754_zero s))
    with (S754_finite sm m e).
  now apply double_eqb_refl.
Qed.

(** With an infinite width the first bound is already [NaN]. *)
Lemma bin_bound_finite_width (min width : double) :
  is_nan (bin_bound min width 0) = false -> is_infinite width = false.
Proof.
  unfold bin_bound. destruct width as [s|s| |s m e]; try reflexivity.
  destruct min; discriminate.
Qed.

(** The bins leave no gap: a time from bound [k] on and not above the last
    bound is in one of the bins [k] to 9. *)
Lemma bins_cover (min width t : double) :
  is_nan t = false ->
  (forall i, i <= 10 -> is_nan (bin_bound min width i) = false) ->
  double_leb t (bin_bound min width 10) = true ->
  forall n k : nat, k + n = 9 ->
  double_leb (bin_bound min width k) t = true ->
  exists i : nat,
    i < 10
    /\ double_leb (bin_bound min width i) t
       && (if i =? 9 then double_leb t (bin_bound min width (i + 1))
           else double_ltb t (bin_bound min width (i + 1))) = true.
Proof.
  intros Ht Hb Hlast. induction n as [|n IH]; intros k Hk Hlo.
  - assert (k = 9) by lia. subst k. exists 9. split; [lia|].
    rewrite Hlo. exact Hlast.
  - destruct (double_ltb t (bin_bound min width (k + 1))) eqn:E.
    + exists k. split; [lia|]. rewrite Hlo.
      replace (k =? 9) with false by (symmetry; apply Nat.eqb_neq; lia).
      exact E.
    + apply (IH (k + 1)); [lia|].
      apply double_ltb_total; [exact Ht | apply Hb; lia | exact E].
Qed.

(** The loop makes one bin for each round, in order. *)
Lemma distribution_loop_bins (Number_toString : double -> string)
    (binCount : nat) (min binSize : double) (times : list double) (total : nat) :
  forall (todo i : nat) (bins : list PerformanceDistribution),
  distribution_loop Number_toString binCount min binSize times total todo i bins
  = (bins
     ++ map (distribution_bin Number_toString binCount min binSize times total)
          (seq i todo))%list.
Proof.
  induction todo as [|todo IH]; intros i bins; simpl.
  - now rewrite app_nil_r.
  - rewrite IH. unfold push. now rewrite <- app_assoc.
Qed.

(** C6, as the claim states it, fails: the empty list of metrics yields no
    bin at all, not ten. *)
Lemma calculateDistribution_empty :
  (forall Number_toString : double -> string,
     calculateDistribution Number_toString [] = [])
  /\ ~ (forall (Number_toString : double -> string) (metrics : list IEEE.QueryMetrics),
          List.length (calculateDistribution Number_toString metrics)
          = spec_bin_count).
Proof.
  split; [reflexivity|]. intros H. specialize (H (fun _ => EmptyString) []).
  discriminate H.
Qed.

(** C6, amended.  For every list of metrics that is not empty there are ten
    bins.  With [min] and [max] the least and the greatest execution time,
    the width of the bins is the double [(max - min) / 10], or 1 when that
    is zero (or [NaN]), as it is when all times are equal.  Bin [i] runs
    from the double [min + i * width] to the double [min + (i + 1) * width];
    its count is the number of times at or above the lower bound and below
    the upper bound, the upper bound itself counting for the last bin only;
    its percentage is [Math.round] of the double [count / total * 100].  For
    times none of which is [NaN]: [min] is at or below and [max] at or above
    every time; when the width is finite the first bin starts at [min], so
    that no time lies below the bins; and when no bound is [NaN] the bins
    leave no gap, every time up to the last upper bound being in one of
    them.  (Whether the last upper bound reaches [max] depends on the
    rounding and is not stated.) *)
Theorem calculateDistribution_bins (Number_toString : double -> string)
    (metrics : list IEEE.QueryMetrics) :
  metrics <> [] ->
  let times := map IEEE.metric_executionTime metrics in
  let total := List.length metrics in
  let bins := calculateDistribution Number_toString metrics in
  exists min max width : double,
    (In min times /\ In max times)
    /\ (Forall (fun t => is_nan t = false) times ->
        forall t, In t times ->
        double_leb min t = true /\ double_leb t max = true)
    /\ (let tenth := double_div (double_sub max min) (double_of_nat 10) in
        width = if double_truthy tenth then tenth else double_of_nat 1)
    /\ ((forall t u, In t times -> In u times -> double_eqb t u = true) ->
        width = double_of_nat 1)
    /\ List.length bins = 10
    /\ (forall i : nat, i < 10 ->
        exists bin : PerformanceDistribution,
          nth_error bins i = Some bin
          /\ let lo := bin_bound min width i in
             let hi := bin_bound min width (i + 1) in
             bin_count bin
             = List.length
                 (filter
                    (fun t =>
                       double_leb lo t
                       && (if i =? 9 then double_leb t hi else double_ltb t hi))
                    times)
             /\ bin_percentage bin
                = Math_round_double
                    (double_mul
                       (double_div (double_of_nat (bin_count bin))
                          (double_of_nat total))
                       (double_of_nat 100)))
    /\ (Forall (fun t => is_nan t = false) times ->
        is_infinite width = false ->
        double_eqb (bin_bound min width 0) min = true
        /\ forall t, In t times -> double_leb (bin_bound min width 0) t = true)
    /\ (Forall (fun t => is_nan t = false) times ->
        (forall i, i <= 10 -> is_nan (bin_bound min width i) = false) ->
        forall t, In t times ->
        double_leb t (bin_bound min width 10) = true ->
        exists i : nat,
          i < 10
          /\ double_leb (bin_bound min width i) t
             && (if i =? 9 then double_leb t (bin_bound min width (i + 1))
                 else double_ltb t (bin_bound min width (i + 1))) = true).
Proof.
  intros Hne. cbv zeta.
  assert (Hz : (List.length metrics =? 0) = false)
    by (destruct metrics; [congruence | reflexivity]).
  set (times := map IEEE.metric_executionTime metrics).
  assert (Htimes : times <> []).
  { subst times. destruct metrics; [congruence | discriminate]. }
  unfold calculateDistribution. rewrite Hz. fold times.
  destruct (Math_max_spec times Htimes) as [Hmax_in Hmax].
  destruct (Math_min_spec times Htimes) as [Hmin_in Hmin].
  set (max := Math_max times) in *. set (min := Math_min times) in *.
  set (tenth := double_div (double_sub max min) (double_of_nat 10)).
  set (width := if double_truthy tenth then tenth else double_of_nat 1).
  assert (Hwidth : is_nan width = false).
  { subst width. destruct tenth; reflexivity. }
  exists min, max, width.
  split; [split; assumption|].
  split.
  { intros Hall t Ht. split; [now apply Hmin | now apply Hmax]. }
  split; [reflexivity|].
  split.
  { intros Hall. subst width tenth.
    now rewrite (double_sub_equal max min (Hall max min Hmax_in Hmin_in)). }
  rewrite distribution_loop_bins. cbn [app].
  split; [now rewrite length_map, length_seq|].
  split.
  { intros i Hi.
    exists (distribution_bin Number_toString 10 min width times
              (List.length metrics) i).
    split.
    { rewrite nth_error_map, nth_error_seq.
      destruct (Nat.ltb_spec i 10); [reflexivity | lia]. }
    cbv zeta. unfold distribution_bin. cbn [bin_count bin_percentage].
    split; reflexivity. }
  assert (Hfirst : Forall (fun t => is_nan t = false) times ->
            is_infinite width = false ->
            double_eqb (bin_bound min width 0) min = true
            /\ forall t, In t times ->
               double_leb (bin_bound min width 0) t = true).
  { intros Hall Hinf.
    destruct (Hmin Hall) as [Hmin_nan Hmin_le].
    pose proof (first_bound min width Hmin_nan Hwidth Hinf) as Hlo.
    split; [exact Hlo|].
    intros t Ht.
    destruct (double_eqb_nan _ _ Hlo) as [Hlo_nan _].
    apply (double_leb_trans _ min t); auto.
    - rewrite Forall_forall in Hall. now apply Hall.
    - now apply double_eqb_leb. }
  split; [exact Hfirst|].
  intros Hall Hbounds t Ht Hlast.
  assert (Hinf : is_infinite width = false).
  { apply (bin_bound_finite_width min). apply Hbounds. lia. }
  destruct (Hfirst Hall Hinf) as [_ Hlow].
  apply (bins_cover min width t) with (n := 9) (k := 0); auto.
  rewrite Forall_forall in Hall. now apply Hall.
Qed.

(** The theorem on the five times of the specification's example, 10 to 50
    milliseconds. *)
Lemma calculateDistribution_bins_witness :
  List.length
    (calculateDistribution (fun _ => EmptyString)
       (map five_times_metric [10; 20; 30; 40; 50]))
  = 10.
Proof.
  destruct (calculateDistribution_bins (fun _ => EmptyString)
              (map five_times_metric [10; 20; 30; 40; 50])
              ltac:(discriminate))
    as (min & max & width & _ & _ & _ & _ & Hlen & _).
  exact Hlen.
Defined.
(** ** jsonToCsv: the lexicographic order *)

Lemma str_ltb_lt (a b : string) : str_ltb a b = true <-> str_lt a b.
Proof.
  revert b; induction a as [|x a IH]; intros [|y b]; simpl.
  - split; [discriminate | inversion 1].
  - split; [constructor | reflexivity].
  - split; [discriminate | inversion 1].
  - destruct (Nat.ltb_spec (code x) (code y)) as [Hxy|Hxy].
    + split; [intros _; now constructor | reflexivity].
    + destruct (Nat.ltb_spec (code y) (code x)) as [Hyx|Hyx].
      * split; [discriminate|]. inversion 1; subst; lia.
      * assert (x = y).
        { rewrite <- (ascii_nat_embedding x), <- (ascii_nat_embedding y).
          unfold code in *. f_equal. lia. }
        subst y. rewrite IH. split; [now constructor|].
        inversion 1; subst; [lia | assumption].
Qed.

Lemma str_lt_irrefl (a : string) : ~ str_lt a a.
Proof.
  induction a as [|x a IH]; inversion 1; subst; [lia | contradiction].
Qed.

Lemma str_lt_trans (a b c : string) : str_lt a b -> str_lt b c -> str_lt a c.
Proof.
  intros Hab; revert c; induction Hab as [x b|x y a b Hxy|x a b Hab IH];
    intros c Hbc; inversion Hbc; subst.
  - constructor.
  - constructor.
  - constructor. lia.
  - now constructor.
  - now constructor.
  - apply str_lt_tail. now apply IH.
Qed.

(** Two different keys are ordered one way or the other. *)
Lemma str_lt_total (a b : string) : a <> b -> str_ltb a b = false -> str_lt b a.
Proof.
  revert b; induction a as [|x a IH]; intros [|y b] Hne H; simpl in H.
  - congruence.
  - discriminate.
  - constructor.
  - destruct (Nat.ltb_spec (code x) (code y)) as [Hxy|Hxy]; [discriminate|].
    destruct (Nat.ltb_spec (code y) (code x)) as [Hyx|Hyx]; [now constructor|].
    assert (x = y).
    { rewrite <- (ascii_nat_embedding x), <- (ascii_nat_embedding y).
      unfold code in *. f_equal. lia. }
    subst y. apply str_lt_tail. apply IH; [congruence | exact H].
Qed.

(** ** jsonToCsv: the set of keys and its sorting *)

Lemma existsb_eqb_In (key : string) (keys : list string) :
  existsb (String.eqb key) keys = true <-> In key keys.
Proof.
  rewrite existsb_exists. split.
  - intros (k & Hin & E). apply String.eqb_eq in E. now subst.
  - intros H. exists key. split; [exact H | apply String.eqb_refl].
Qed.

Lemma set_add_key_In (keys : list string) (key k : string) :
  In k (set_add_key keys key) <-> In k keys \/ k = key.
Proof.
  unfold set_add_key, push.
  destruct (existsb (String.eqb key) keys) eqn:E.
  - apply existsb_eqb_In in E. split; [auto | intros [H| ->]; assumption].
  - rewrite in_app_iff. simpl. intuition auto.
Qed.

Lemma set_add_key_NoDup (keys : list string) (key : string) :
  NoDup keys -> NoDup (set_add_key keys key).
Proof.
  intros H. unfold set_add_key, push.
  destruct (existsb (String.eqb key) keys) eqn:E; [exact H|].
  apply NoDup_app; [exact H | repeat constructor; auto |].
  intros k Hk [<-|[]]. apply existsb_eqb_In in Hk. congruence.
Qed.

Lemma fold_set_add_In (added : list string) :
  forall (keys : list string) (k : string),
  In k (fold_left set_add_key added keys) <-> In k keys \/ In k added.
Proof.
  induction added as [|a added IH]; intros keys k; simpl; [tauto|].
  rewrite IH, set_add_key_In. intuition auto.
Qed.

Lemma fold_set_add_NoDup (added : list string) :
  forall keys : list string,
  NoDup keys -> NoDup (fold_left set_add_key added keys).
Proof.
  induction added as [|a added IH]; intros keys H; simpl; [exact H|].
  apply IH. now apply set_add_key_NoDup.
Qed.

(** The first loop: the rows are those of [data], flattened, in order; the
    set holds their keys, each once. *)
Lemma flattened_rows_items (data : list JSON) (maxDepth : Z) :
  map own_properties (map (flattened_item maxDepth) data)
  = flattened_rows data maxDepth.
Proof. unfold flattened_rows. rewrite map_map. reflexivity. Qed.

Lemma collect_rows_acc (data : list JSON) (maxDepth : Z) :
  forall (rows : list Flattened) (keys : list string),
  let r :=
    fold_left
      (fun (acc : list Flattened * list string) item =>
         let flattened := flattened_item maxDepth item in
         (push (fst acc) flattened,
          fold_left set_add_key (row_keys (own_properties flattened)) (snd acc)))
      data (rows, keys) in
  fst r = (rows ++ map (flattened_item maxDepth) data)%list
  /\ (NoDup keys -> NoDup (snd r))
  /\ forall k, In k (snd r)
       <-> In k keys
           \/ exists row, In row (flattened_rows data maxDepth) /\ In k (row_keys row).
Proof.
  induction data as [|item data IH]; intros rows keys; cbv zeta.
  - simpl. rewrite app_nil_r. split; [reflexivity|]. split; [auto|].
    intros k. split; [auto | intros [H|(row & [] & _)]; exact H].
  - cbn [fold_left fst snd map flattened_rows].
    specialize (IH (push rows (flattened_item maxDepth item))
                  (fold_left set_add_key
                     (row_keys (own_properties (flattened_item maxDepth item)))
                     keys)).
    cbv zeta in IH. destruct IH as (Hf & Hn & Hk).
    split; [rewrite Hf; unfold push; now rewrite <- app_assoc|].
    split; [intros H; apply Hn; now apply fold_set_add_NoDup|].
    intros k. rewrite Hk, fold_set_add_In.
    change (own_properties (flattened_item maxDepth item))
      with (flattenObject item EmptyString maxDepth 0).
    change (flattened_rows (item :: data) maxDepth)
      with (flattenObject item EmptyString maxDepth 0
            :: flattened_rows data maxDepth).
    cbn [In]. split.
    + intros [[H|H]|(row & Hr & Hin)]; [now left | right | right].
      * eexists; split; [left; reflexivity | exact H].
      * exists row. split; [now right | exact Hin].
    + intros [H|(row & [<-|Hr] & Hin)]; [left; now left | left; now right |].
      right. exists row. split; assumption.
Qed.

Lemma collect_rows_spec (data : list JSON) (maxDepth : Z) :
  fst (collect_rows data maxDepth) = map (flattened_item maxDepth) data
  /\ NoDup (snd (collect_rows data maxDepth))
  /\ forall k, In k (snd (collect_rows data maxDepth))
       <-> exists row, In row (flattened_rows data maxDepth) /\ In k (row_keys row).
Proof.
  destruct (collect_rows_acc data maxDepth [] []) as (Hf & Hn & Hk).
  cbv zeta in *. fold (collect_rows data maxDepth) in *.
  split; [exact Hf|]. split; [apply Hn; constructor|].
  intros k. rewrite Hk. split; [intros [[]|H]; exact H | auto].
Qed.

Lemma sort_insert_In (key : string) (sorted : list string) (k : string) :
  In k (sort_insert key sorted) <-> k = key \/ In k sorted.
Proof.
  induction sorted as [|x sorted IH]; simpl; [intuition auto|].
  destruct (str_ltb key x); simpl; [intuition auto|].
  rewrite IH. intuition auto.
Qed.

Lemma sort_insert_sorted (key : string) (sorted : list string) :
  ~ In key sorted ->
  Sorted str_lt sorted -> Sorted str_lt (sort_insert key sorted).
Proof.
  intros Hnot Hs. induction Hs as [|x sorted Hs IH Hhd]; simpl.
  - repeat constructor.
  - destruct (str_ltb key x) eqn:E.
    + constructor; [now constructor|]. constructor. now apply str_ltb_lt.
    + assert (Hx : str_lt x key).
      { apply str_lt_total; [|exact E]. intros ->. apply Hnot. now left. }
      constructor; [apply IH; intros H; apply Hnot; now right|].
      destruct sorted as [|y sorted]; simpl.
      * now constructor.
      * destruct (str_ltb key y); constructor; [exact Hx|].
        now inversion Hhd.
Qed.

Lemma sort_keys_acc (keys : list string) :
  forall sorted : list string,
  NoDup keys -> (forall k, In k keys -> ~ In k sorted) ->
  Sorted str_lt sorted ->
  let r := fold_left (fun sorted key => sort_insert key sorted) keys sorted in
  Sorted str_lt r /\ forall k, In k r <-> In k sorted \/ In k keys.
Proof.
  induction keys as [|key keys IH]; intros sorted Hn Hd Hs; cbv zeta; simpl.
  - split; [exact Hs | tauto].
  - inversion Hn as [|? ? Hkey Hn']; subst.
    destruct (IH (sort_insert key sorted)) as [Hsorted Hin].
    + exact Hn'.
    + intros k Hk H. apply sort_insert_In in H. destruct H as [->|H].
      * contradiction.
      * apply (Hd k); [now right | exact H].
    + apply sort_insert_sorted; [|exact Hs]. apply Hd. now left.
    + cbv zeta in *. split; [exact Hsorted|].
      intros k. rewrite Hin, sort_insert_In. intuition auto.
Qed.

(** [sort] on a set of keys: the same keys, in strictly increasing
    lexicographic order. *)
Lemma sort_keys_spec (keys : list string) :
  NoDup keys ->
  StronglySorted str_lt (sort_keys keys)
  /\ forall k, In k (sort_keys keys) <-> In k keys.
Proof.
  intros Hn. destruct (sort_keys_acc keys [] Hn) as [Hs Hin].
  - intros k _ [].
  - constructor.
  - cbv zeta in *. fold (sort_keys keys) in *. split.
    + apply Sorted_StronglySorted; [|exact Hs].
      intros a b c. apply str_lt_trans.
    + intros k. rewrite Hin. simpl. tauto.
Qed.

(** ** jsonToCsv: the lines *)

Lemma fold_push_map {A B : Type} (f : A -> B) (xs : list A) :
  forall acc : list B,
  fold_left (fun acc x => push acc (f x)) xs acc = (acc ++ map f xs)%list.
Proof.
  induction xs as [|x xs IH]; intros acc; simpl.
  - now rewrite app_nil_r.
  - rewrite IH. unfold push. now rewrite <- app_assoc.
Qed.

Lemma csv_row_line_spec (native_code : string -> string)
    (includeRowNumbers : bool) (columns : list string)
    (row : Flattened) (index : nat) :
  csv_row_line native_code includeRowNumbers columns row index
  = join "," (spec_row native_code includeRowNumbers columns index row).
Proof.
  unfold csv_row_line, spec_row.
  rewrite fold_push_map, Nat.add_1_r. reflexivity.
Qed.

Lemma csv_rows_loop_spec (native_code : string -> string)
    (includeRowNumbers : bool) (columns : list string)
    (rows : list Flattened) :
  forall (index : nat) (csvLines : list string),
  csv_rows_loop native_code includeRowNumbers columns rows index csvLines
  = (csvLines
     ++ map (join ",")
          (map_indexed (spec_row native_code includeRowNumbers columns) index rows))%list.
Proof.
  induction rows as [|row rows IH]; intros index csvLines; simpl.
  - now rewrite app_nil_r.
  - rewrite IH, csv_row_line_spec. unfold push. now rewrite <- app_assoc.
Qed.

Lemma row_get_missing (key : string) (row : FlatRow) :
  ~ In key (row_keys row) -> row_get key row = None.
Proof.
  induction row as [|[k v] row IH]; simpl; intros H; [reflexivity|].
  destruct (String.eqb_spec k key) as [->|Hne]; [exfalso; apply H; now left|].
  apply IH. intros Hin. apply H. now right.
Qed.

Lemma row_get_own (key : string) (row : FlatRow) :
  In key (row_keys row) -> exists v, row_get key row = Some v /\ In (key, v) row.
Proof.
  induction row as [|[k v] row IH]; simpl; intros H; [contradiction|].
  destruct (String.eqb_spec k key) as [->|Hne].
  - exists v. split; [reflexivity | now left].
  - destruct H as [H|H]; [congruence|].
    destruct (IH H) as (w & Hw & Hin). exists w. split; [exact Hw | now right].
Qed.

Lemma escape_text_not_empty (s : string) :
  s <> EmptyString -> escape_text s <> EmptyString.
Proof.
  unfold escape_text. intros Hs.
  destruct (includes s "," || includes s newline || includes s carriage_return
            || includes s quote_mark); [discriminate | exact Hs].
Qed.

(** C7, at the rows of two race entries: the second row has no key
    [constructor], and yet its cell in that column is not empty.  The row
    inherits a property of that name from [Object.prototype], the function
    [Object], and [row[key]] reads it; the cell is the print of that
    function, which begins with the word [function]. *)
Theorem jsonToCsv_inherited_member (native_code : string -> string) :
  let first := JObj [("driver", JStr "Sainz"); ("constructor", JStr "Ferrari")] in
  let second := JObj [("driver", JStr "Doohan")] in
  let cell := escape_text ("function" ++ native_code "Object") in
  ~ In "constructor" (row_keys (flattenObject second EmptyString 5 0))
  /\ jsonToCsv native_code [first; second] (mkCsvOptions None (Some false))
     = "constructor,driver" ++ newline
       ++ "Ferrari,Sainz" ++ newline
       ++ cell ++ ",Doohan"
  /\ cell <> EmptyString.
Proof.
  cbv zeta. split; [|split].
  - simpl. intuition discriminate.
  - reflexivity.
  - apply escape_text_not_empty. discriminate.
Qed.

(** ** flattenObject on a row that is not a plain object *)

Lemma flattenObject_value (row : JSON) (maxDepth : Z) :
  is_plain_object row = false ->
  flattenObject row EmptyString maxDepth 0
  = [("value", spec_value_cell maxDepth row)].
Proof.
  intros H. unfold spec_value_cell.
  destruct row; try discriminate H; simpl;
    destruct (Z.geb_spec 0 maxDepth), (Z.leb_spec maxDepth 0);
    try lia; reflexivity.
Qed.

Lemma sorted_singleton (v : string) (l : list string) :
  StronglySorted str_lt l -> (forall k, In k l <-> k = v) -> l = [v].
Proof.
  intros Hs Hin.
  destruct l as [|x l].
  - exfalso. apply (Hin v). reflexivity.
  - assert (x = v) by (apply Hin; now left). subst x.
    destruct l as [|y l]; [reflexivity|].
    assert (y = v) by (apply Hin; right; now left). subst y.
    inversion Hs as [|? ? _ Hall]; subst. inversion Hall; subst.
    exfalso. eapply str_lt_irrefl; eassumption.
Qed.

(** C10. When no row of a list that is not empty is a plain object
    (each is a primitive, [null], [undefined] or an array), every row
    flattens to exactly one entry, under the key [value], holding the row as
    it is, or its JSON text for an array and for a depth bound already
    reached at the top level; and [value] is the one column of the
    export. *)
Theorem flattenObject_non_object_rows (data : list JSON) (maxDepth : Z) :
  data <> [] ->
  Forall (fun row => is_plain_object row = false) data ->
  Forall
    (fun row =>
       flattenObject row EmptyString maxDepth 0
       = [("value", spec_value_cell maxDepth row)]) data
  /\ csv_columns data maxDepth = ["value"].
Proof.
  intros Hne Hall.
  assert (Hrows : Forall
            (fun row =>
               flattenObject row EmptyString maxDepth 0
               = [("value", spec_value_cell maxDepth row)]) data).
  { eapply Forall_impl; [|exact Hall]. intros row. apply flattenObject_value. }
  split; [exact Hrows|].
  unfold csv_columns.
  destruct (collect_rows_spec data maxDepth) as (_ & Hn & Hk).
  destruct (sort_keys_spec _ Hn) as [Hsorted Hin].
  apply sorted_singleton; [exact Hsorted|].
  intros k. rewrite Hin, Hk. unfold flattened_rows. split.
  - intros (row & Hrow & Hkey). apply in_map_iff in Hrow.
    destruct Hrow as (item & <- & Hitem).
    rewrite Forall_forall in Hrows. rewrite (Hrows item Hitem) in Hkey.
    destruct Hkey as [<-|[]]. reflexivity.
  - intros ->. destruct data as [|item data]; [congruence|].
    exists (flattenObject item EmptyString maxDepth 0). split.
    + apply in_map_iff. exists item. split; [reflexivity | now left].
    + inversion Hrows as [|? ? Hitem _]; subst. rewrite Hitem. now left.
Qed.

(** A list of bare numbers: the header is the row number sign and
    [value]. *)
Lemma flattenObject_non_object_rows_witness :
  csv_columns [JNum 42; JNum 7] 5 = ["value"]
  /\ jsonToCsv v8_native_code [JNum 42; JNum 7] (mkCsvOptions None None)
     = "#,value" ++ newline ++ "1,42" ++ newline ++ "2,7".
Proof.
  split; [|reflexivity].
  apply (flattenObject_non_object_rows [JNum 42; JNum 7] 5).
  - discriminate.
  - repeat constructor.
Defined.

(** ** The matches of a search accumulate *)

(** The matches pushed by [searchValue] do not depend on the matches that
    were there before: the array it is given comes back with the new matches
    appended. *)
Lemma searchValue_appends (caseSensitive : bool) (searchNormalized : string)
    (value : JSON) :
  forall (path : list string) (matches : list SearchMatch),
  searchValue caseSensitive searchNormalized value path matches
  = (matches ++ searchValue caseSensitive searchNormalized value path [])%list.
Proof.
  induction value as [| |b|n|s|items IH|entries IH] using JSON_nested_ind;
    intros path matches.
  1-5: simpl; unfold search_leaf, push;
    match goal with |- context [if ?c then _ else _] => destruct c end;
    simpl; now rewrite ?app_nil_r.
  - simpl. generalize 0 as index. revert matches.
    induction IH as [|item items Hitem _ IHitems]; intros matches index.
    + now rewrite app_nil_r.
    + rewrite IHitems, Hitem.
      rewrite (IHitems (searchValue _ _ item _ [])).
      now rewrite app_assoc.
  - simpl. revert matches.
    induction IH as [|[key val] entries Hval _ IHentries]; intros matches.
    + now rewrite app_nil_r.
    + simpl in Hval. rewrite IHentries, Hval.
      rewrite (IHentries (searchValue _ _ val _ _)).
      rewrite (Hval _ (if includes _ _ then _ else [])).
      unfold push.
      destruct (includes (if caseSensitive then key else toLowerCase key)
                  searchNormalized); simpl; now rewrite <- ?app_assoc.
Qed.
(** ** The examples of the specification and of the repository's tests *)

Example buildJsonPathQuery_default :
  buildJsonPathQuery "$" [] [] None false = "$".
Proof. reflexivity. Qed.

Example buildJsonPathQuery_path :
  buildJsonPathQuery "$" ["brand"; "name"] [] None false = "$.brand.name".
Proof. reflexivity. Qed.

Example buildJsonPathQuery_filter :
  buildJsonPathQuery "$" [] [mkFilter "1" "year" OpGe "2020" None] None false
  = "$[?(@.year >= 2020)]".
Proof. reflexivity. Qed.

Example buildJsonPathQuery_recursive_slice :
  buildJsonPathQuery "$" ["items"] [] (Some (mkSlice None (Some 3%Z) None)) true
  = "$..items[:3]".
Proof. reflexivity. Qed.

Example isNaN_Number_samples :
  map isNaN_Number ["Toyota"; "2015"; " 12 "; "1e3"; "0x1F"; "-0x1F"; "."; "Infinity"]
  = [true; false; false; false; false; true; true; false]
  /\ isNaN_Number EmptyString = false.
Proof. split; reflexivity. Qed.

(** Two times, 15.72 and 26.66 milliseconds: the double [min + 10 * width] is
    26.659999999999997, below the greatest time, which no bin counts. *)
Example calculateDistribution_rounded_bound :
  let low := S754_finite false 8849573267783025 (-49) in
  let high := S754_finite false 7504122879106089 (-48) in
  let width := double_div (double_sub high low) (double_of_nat 10) in
  let timed query time :=
    IEEE.mkMetric "m" query time (double_of_nat 1) (double_of_nat 0)
      (double_of_nat 2) None in
  forall Number_toString : double -> string,
    double_ltb (double_add low (double_mul (double_of_nat 10) width)) high = true
    /\ map bin_count
         (calculateDistribution Number_toString
            [timed "$.a" low; timed "$.b" high])
       = [1; 0; 0; 0; 0; 0; 0; 0; 0; 0]
    /\ map bin_range
         (calculateDistribution Number_toString
            [timed "$.a" low; timed "$.b" high])
       = ["15.7-16.8ms"; "16.8-17.9ms"; "17.9-19.0ms"; "19.0-20.1ms";
          "20.1-21.2ms"; "21.2-22.3ms"; "22.3-23.4ms"; "23.4-24.5ms";
          "24.5-25.6ms"; "25.6-26.7ms"].
Proof. cbv zeta. intros Number_toString. repeat split; vm_compute; reflexivity. Qed.

(** 23 metrics of 40 in a bin: the double [23 / 40 * 100] is
    57.49999999999999 and the percentage 57. *)
Example calculateDistribution_percentage :
  Math_round_double
    (double_mul (double_div (double_of_nat 23) (double_of_nat 40))
       (double_of_nat 100))
  = double_of_nat 57.
Proof. vm_compute. reflexivity. Qed.

(** The five times 10 to 50: bins of width 4, the last one closed. *)
Example calculateDistribution_five_times :
  forall Number_toString : double -> string,
    map (fun bin => (bin_range bin, bin_count bin))
      (calculateDistribution Number_toString
         (map five_times_metric [10; 20; 30; 40; 50]))
    = [("10.0-14.0ms", 1); ("14.0-18.0ms", 0); ("18.0-22.0ms", 1);
       ("22.0-26.0ms", 0); ("26.0-30.0ms", 0); ("30.0-34.0ms", 1);
       ("34.0-38.0ms", 0); ("38.0-42.0ms", 1); ("42.0-46.0ms", 0);
       ("46.0-50.0ms", 1)].
Proof. intros Number_toString. vm_compute. reflexivity. Qed.

(** An entry under the key [__proto__] goes to the setter of the prototype
    and leaves no property. *)
Example flattenObject_proto_key :
  flattenObject (JObj [("__proto__", JNum 5); ("a", JNum 1)]) EmptyString 5 0
  = [("a", JNum 1)].
Proof. reflexivity. Qed.

(** Three rows: the first one has lost its prototype and reads no
    [toString] at all, the third one reads the function it inherits. *)
Example jsonToCsv_prototype :
  jsonToCsv v8_native_code
    [JObj [("__proto__", JNull); ("a", JNum 1)];
     JObj [("toString", JNum 2)];
     JObj [("a", JNum 3)]]
    (mkCsvOptions None (Some false))
  = "a,toString" ++ newline
    ++ "1," ++ newline
    ++ ",2" ++ newline
    ++ "3,function toString() { [native code] }".
Proof. reflexivity. Qed.

Example jsonToCsv_empty :
  jsonToCsv v8_native_code [] (mkCsvOptions None (Some true)) = "#" ++ newline
  /\ jsonToCsv v8_native_code [] (mkCsvOptions None (Some false)) = EmptyString.
Proof. split; reflexivity. Qed.

Example jsonToCsv_missing_key :
  jsonToCsv v8_native_code [JObj [("b", JNum 2)]; JObj [("a", JNum 1)]]
    (mkCsvOptions None None)
  = "#,a,b" ++ newline ++ "1,,2" ++ newline ++ "2,1,".
Proof. reflexivity. Qed.

Example filterResults_toyota :
  filterResults
    [JObj [("name", JStr "Toyota Camry")]; JObj [("name", JStr "Honda")]]
    "Toyota" false
  = [JObj [("name", JStr "Toyota Camry")]].
Proof. reflexivity. Qed.

Example recursiveSearch_key_match :
  recursiveSearch (JObj [("userName", JStr "test")]) "userName" false []
  = [mkMatch ["userName"] (JStr "test") "userName"].
Proof. reflexivity. Qed.

Example highlightText_three_matches :
  highlightText "test test test" "test" false
  = Some [mkSegment "test" true; mkSegment " " false; mkSegment "test" true;
          mkSegment " " false; mkSegment "test" true].
Proof. reflexivity. Qed.

Example highlightText_keeps_case :
  highlightText "Hello World" "hello" false
  = Some [mkSegment "Hello" true; mkSegment " World" false].
Proof. reflexivity. Qed.

Example analyzeSchema_negative_bound :
  schema_depth (analyzeSchema (JArr [JNum 1]) (-1)) = 0
  /\ schema_totalFields (analyzeSchema (JArr [JNum 1]) (-1)) = 0.
Proof. split; reflexivity. Qed.

Example calculateComplexityScore_sample :
  (calculateComplexityScore "$..book[?(@.price<10)][0:5].*" == 124 # 10)%Q.
Proof. reflexivity. Qed.

(** * Part III: further properties *)

(** ** The filter chain editor *)

Lemma later_carry_updateFilter (id : string) (updates : FilterUpdates)
    (filters : list FilterCondition) :
  update_logicalOperator updates <> Some None ->
  later_carry_operator filters ->
  later_carry_operator (updateFilter id updates filters).
Proof.
  intros Hu. unfold later_carry_operator, updateFilter.
  destruct filters as [|first rest]; simpl; [auto|].
  intros H. induction H as [|f rest Hf _ IH]; simpl; constructor; [|exact IH].
  destruct (String.eqb (filter_id f) id); [|exact Hf].
  unfold apply_updates. simpl.
  destruct (update_logicalOperator updates) as [[op|]|]; congruence.
Qed.

Lemma later_carry_filter (p : FilterCondition -> bool)
    (filters : list FilterCondition) :
  later_carry_operator filters ->
  later_carry_operator (filter p filters).
Proof.
  unfold later_carry_operator.
  destruct filters as [|first rest]; simpl; [auto|].
  intros H.
  assert (Hrest : Forall (fun f => filter_logicalOperator f <> None) (filter p rest)).
  { apply Forall_forall. intros f Hf. apply filter_In in Hf.
    rewrite Forall_forall in H. apply H, Hf. }
  destruct (p first); simpl; [exact Hrest|].
  destruct (filter p rest) as [|x l]; simpl; [constructor|].
  inversion Hrest; subst; assumption.
Qed.

(** X2. Every chain that the filter editor can produce from the empty chain, by
    adding, removing and editing conditions in any order, has an operator on
    every condition after the first: it is of the form for which the filter
    clause is synthesized with a separator before each later condition. *)
Theorem editor_chain_later_carry (filters : list FilterCondition) :
  editor_chain filters ->
  later_carry_operator filters
  /\ exists ops : list LogicalOperator,
       map filter_logicalOperator (tl filters) = map Some ops.
Proof.
  intros H.
  assert (Hc : later_carry_operator filters).
  { induction H as [|randomId fields filters _ IH|id filters _ IH
                    |id v filters _ IH|id v filters _ IH|id v filters _ IH
                    |id operator filters _ IH].
    - constructor.
    - unfold later_carry_operator, addFilter in *.
      destruct filters as [|first rest]; simpl; [constructor|].
      apply Forall_app. split; [exact IH|]. repeat constructor. discriminate.
    - unfold removeFilter.
      pose proof (later_carry_filter
                    (fun f => negb (String.eqb (filter_id f) id)) filters IH) as Hf.
      destruct (filter _ filters) as [|first rest]; [exact Hf|].
      destruct (filter_logicalOperator first); exact Hf.
    - apply later_carry_updateFilter; [discriminate | exact IH].
    - apply later_carry_updateFilter; [discriminate | exact IH].
    - apply later_carry_updateFilter; [discriminate | exact IH].
    - apply later_carry_updateFilter; [discriminate | exact IH]. }
  split; [exact Hc|].
  unfold later_carry_operator in Hc.
  induction Hc as [|f rest Hf _ [ops IH]]; [now exists []|].
  destruct (filter_logicalOperator f) as [op|] eqn:E; [|congruence].
  exists (op :: ops). simpl. now rewrite E, IH.
Qed.

(** Two conditions added, the first removed, the operator of what is left
    edited. *)
Lemma editor_chain_later_carry_witness :
  later_carry_operator
    (updateLogicalOperator "b" OR
       (removeFilter "a" (addFilter "b" ["year"] (addFilter "a" ["year"] [])))).
Proof.
  apply editor_chain_later_carry.
  apply chain_logical, chain_remove, chain_add, chain_add, chain_initial.
Defined.

(** X3. Removing a condition: no condition with that identifier is left, the
    other conditions stay in their order, and the condition that comes first
    afterwards carries no logical operator, whatever the chain was. *)
Theorem removeFilter_restitches (id : string) (filters : list FilterCondition) :
  let result := removeFilter id filters in
  Forall (fun f => filter_id f <> id) result
  /\ map filter_id result
     = filter (fun i => negb (String.eqb i id)) (map filter_id filters)
  /\ match result with
     | first :: _ => filter_logicalOperator first = None
     | [] => True
     end.
Proof.
  cbv zeta. unfold removeFilter.
  assert (Hall : Forall (fun f => filter_id f <> id)
                   (filter (fun f => negb (String.eqb (filter_id f) id)) filters)).
  { apply Forall_forall. intros f Hf. apply filter_In in Hf.
    destruct Hf as [_ Hf]. apply negb_true_iff in Hf.
    now apply String.eqb_neq in Hf. }
  assert (Hids : map filter_id
                   (filter (fun f => negb (String.eqb (filter_id f) id)) filters)
                 = filter (fun i => negb (String.eqb i id)) (map filter_id filters)).
  { clear Hall. induction filters as [|f filters IH]; simpl; [reflexivity|].
    destruct (String.eqb (filter_id f) id); simpl; [exact IH|].
    now rewrite IH. }
  rewrite <- Hids.
  destruct (filter _ filters) as [|first rest].
  { split; [constructor | split; [reflexivity | exact I]]. }
  destruct (filter_logicalOperator first) eqn:E.
  - inversion Hall; subst.
    split; [constructor; assumption | split; reflexivity].
  - split; [exact Hall | split; [reflexivity | exact E]].
Qed.

(** ** The synthesized query is valid *)

Lemma match_brackets_app (a b : string) :
  match_brackets (a ++ b) = (match_brackets a ++ match_brackets b)%list.
Proof.
  induction a as [|c a IH]; simpl; [reflexivity|].
  destruct (is_open_bracket c || is_close_bracket c); simpl; now rewrite IH.
Qed.

Lemma bracket_free_app (a b : string) :
  bracket_free a -> bracket_free b -> bracket_free (a ++ b).
Proof.
  unfold bracket_free. intros Ha Hb. now rewrite match_brackets_app, Ha, Hb.
Qed.

Lemma bracket_free_join (sep : string) (parts : list string) :
  bracket_free sep -> Forall bracket_free parts -> bracket_free (join sep parts).
Proof.
  intros Hsep H. unfold join.
  induction H as [|x parts Hx Hparts IH]; [reflexivity|].
  destruct parts as [|y parts]; [exact Hx|].
  change (bracket_free (x ++ sep ++ String.concat sep (y :: parts))).
  now repeat apply bracket_free_app.
Qed.

Lemma bracket_free_uint (d : Decimal.uint) :
  bracket_free (NilEmpty.string_of_uint d).
Proof. induction d; simpl; try reflexivity; exact IHd. Qed.

Lemma bracket_free_string_of_Z (z : Z) : bracket_free (string_of_Z z).
Proof.
  unfold string_of_Z, NilZero.string_of_int.
  destruct (Z.to_int z) as [d|d]; unfold NilZero.string_of_uint.
  - destruct d; try reflexivity; apply (bracket_free_uint (_ d)).
  - change (bracket_free ("-" ++ match d with
                                 | Decimal.Nil => "0"
                                 | _ => NilEmpty.string_of_uint d
                                 end)).
    apply bracket_free_app; [reflexivity|].
    destruct d; try reflexivity; apply (bracket_free_uint (_ d)).
Qed.

Lemma bracket_free_bound (x : option Z) : bracket_free (slice_bound_text x).
Proof. destruct x; [apply bracket_free_string_of_Z | reflexivity]. Qed.

(** The brackets of the slice notation: one pair. *)
Lemma match_brackets_slice (slice : ArraySlice) :
  match_brackets (generateArraySlice slice) = ["["; "]"]%char.
Proof.
  unfold generateArraySlice.
  pose proof (bracket_free_bound (slice_start slice)) as Hs.
  pose proof (bracket_free_bound (slice_end slice)) as He.
  pose proof (bracket_free_bound (slice_step slice)) as Ht.
  unfold bracket_free in *.
  destruct (truthy_int (slice_step slice));
    [|destruct (not_empty_text (slice_start slice) || not_empty_text (slice_end slice))];
    rewrite ?match_brackets_app, ?Hs, ?He, ?Ht; reflexivity.
Qed.

Lemma bracket_free_condition (index : nat) (f : FilterCondition) :
  bracket_free (filter_property f) -> bracket_free (filter_value f) ->
  bracket_free (filter_condition index f).
Proof.
  intros Hp Hv. unfold filter_condition.
  assert (Hc : bracket_free
                 match filter_logicalOperator f with
                 | Some lop =>
                     if 0 <? index
                     then match lop with AND => " && " | OR => " || " end
                     else EmptyString
                 | None => EmptyString
                 end).
  { destruct (filter_logicalOperator f) as [[|]|], (0 <? index); reflexivity. }
  assert (Hq : bracket_free
                 (if isNaN_Number (filter_value f)
                  then "'" ++ filter_value f ++ "'"
                  else filter_value f)).
  { destruct (isNaN_Number (filter_value f)); [|exact Hv].
    repeat apply bracket_free_app; auto; reflexivity. }
  destruct (filter_operator f);
    repeat apply bracket_free_app; auto; reflexivity.
Qed.

Lemma bracket_free_conditions (filters : list FilterCondition) :
  Forall (fun f => bracket_free (filter_property f) /\ bracket_free (filter_value f))
    filters ->
  forall index, Forall bracket_free (map_indexed filter_condition index filters).
Proof.
  induction 1 as [|f filters [Hp Hv] _ IH]; intros index; simpl; constructor.
  - now apply bracket_free_condition.
  - apply IH.
Qed.

(** The brackets of the filter clause: the bracket and the parenthesis it
    opens with, and the two that close it. *)
Lemma match_brackets_filters (filters : list FilterCondition) :
  Forall (fun f => bracket_free (filter_property f) /\ bracket_free (filter_value f))
    filters ->
  match_brackets (generateFilterExpression filters)
  = match filters with [] => [] | _ => ["["; "("; ")"; "]"]%char end.
Proof.
  intros H. unfold generateFilterExpression.
  destruct filters as [|f filters]; [reflexivity|].
  simpl Nat.eqb. cbv iota.
  pose proof (bracket_free_join EmptyString _ eq_refl
                (bracket_free_conditions _ H 0)) as Hj.
  unfold bracket_free in Hj.
  change ("[?(" ++ ?x ++ ")]") with ("[?(" ++ (x ++ ")]")).
  now rewrite !match_brackets_app, Hj.
Qed.

Lemma startsWith_app (a b p : string) :
  startsWith a p = true -> startsWith (a ++ b) p = true.
Proof.
  unfold startsWith. revert a.
  induction p as [|c p IH]; intros [|d a] H; simpl in *;
    try reflexivity; try discriminate.
  - now destruct b.
  - destruct (ascii_dec c d); [now apply IH | discriminate].
Qed.

(** A text that starts with the dollar or the at sign and whose brackets
    close in order is valid. *)
Lemma isValidJsonPath_of_brackets (query : string) :
  startsWith query "$" = true \/ startsWith query "@" = true ->
  scan_brackets (match_brackets query) 0 = Some 0%Z ->
  isValidJsonPath query = true.
Proof.
  intros Hs Hb. unfold isValidJsonPath. rewrite Hb.
  destruct query as [|c query]; [destruct Hs; discriminate|].
  cbn [is_empty].
  destruct Hs as [-> | ->]; simpl; rewrite ?andb_false_r; reflexivity.
Qed.

(** X1. From a root path that is empty or starts with the dollar or the at sign,
    and with no bracket or parenthesis in the root path, in the path
    segments and in the properties and values of the filters, the query built
    by [buildJsonPathQuery] passes [isValidJsonPath], with or without a slice,
    filters and recursive descent. *)
Theorem buildJsonPathQuery_valid (rootPath : string) (selectedPath : list string)
    (filters : list FilterCondition) (arraySlice : option ArraySlice)
    (recursiveDescent : bool) :
  rootPath = EmptyString \/ startsWith rootPath "$" = true
    \/ startsWith rootPath "@" = true ->
  bracket_free rootPath ->
  Forall bracket_free selectedPath ->
  Forall (fun f => bracket_free (filter_property f) /\ bracket_free (filter_value f))
    filters ->
  isValidJsonPath
    (buildJsonPathQuery rootPath selectedPath filters arraySlice recursiveDescent)
  = true.
Proof.
  intros Hroot Hfree Hpath Hfilters.
  rewrite buildJsonPathQuery_parts.
  set (base := buildJsonPathQuery rootPath selectedPath [] None recursiveDescent).
  assert (Hbase : bracket_free base
                  /\ (startsWith base "$" = true \/ startsWith base "@" = true)).
  { subst base. unfold buildJsonPathQuery.
    set (root := if is_empty rootPath then "$" else rootPath).
    assert (Hr : bracket_free root
                 /\ (startsWith root "$" = true \/ startsWith root "@" = true)).
    { subst root. destruct rootPath as [|c r]; [split; [reflexivity | now left]|].
      cbn [is_empty]. split; [exact Hfree|].
      destruct Hroot as [H|[H|H]]; [discriminate | now left | now right]. }
    destruct Hr as [Hr Hs].
    pose proof (bracket_free_join "." selectedPath eq_refl Hpath) as Hj.
    assert (Hstart : forall rest, startsWith (root ++ rest) "$" = true
                                  \/ startsWith (root ++ rest) "@" = true).
    { intros rest. destruct Hs; [left | right]; now apply startsWith_app. }
    simpl List.length. cbv iota.
    destruct (0 <? List.length selectedPath);
      rewrite ?andb_true_r, ?andb_false_r;
      [|split; [exact Hr | rewrite <- (str_append_nil_r root); apply Hstart]].
    destruct recursiveDescent; cbv iota.
    - destruct (endsWith (root ++ "..") "$"), (negb (endsWith (root ++ "..") ".."));
        rewrite ?str_append_assoc;
        (split; [repeat apply bracket_free_app; auto; reflexivity | apply Hstart]).
    - destruct (endsWith root "$"), (negb (endsWith root ".."));
        (split; [repeat apply bracket_free_app; auto; reflexivity | apply Hstart]). }
  destruct Hbase as [Hb Hs].
  apply isValidJsonPath_of_brackets.
  - destruct Hs; [left | right]; now apply startsWith_app.
  - unfold bracket_free in Hb.
    rewrite !match_brackets_app, Hb, (match_brackets_filters filters Hfilters).
    destruct arraySlice as [slice|]; rewrite ?match_brackets_slice;
      destruct filters; reflexivity.
Qed.

(** A built query with a path, a slice and a filter. *)
Lemma buildJsonPathQuery_valid_witness :
  isValidJsonPath
    (buildJsonPathQuery "$" ["store"; "book"]
       [mkFilter "1" "price" OpLt "10" None]
       (Some (mkSlice (Some 0%Z) (Some 5%Z) None)) true)
  = true.
Proof.
  apply buildJsonPathQuery_valid.
  - right. left. reflexivity.
  - reflexivity.
  - repeat constructor.
  - repeat constructor.
Defined.

(** ** The fields of the schema *)

(** Within the bound, [analyzeValue] makes a node with the name and the
    path it is given and the type of the value. *)
Lemma analyzeValue_node (maxDepth : Z) (value : JSON) (name path : string)
    (depth : nat) (st : Counters) :
  (Z.of_nat depth <= maxDepth)%Z ->
  exists node st',
    analyzeValue maxDepth value name path depth st = (Some node, st')
    /\ field_summary node = (name, path, getType value).
Proof.
  intros Hd.
  destruct value as [| |b|n|s|items|entries]; simpl;
    destruct (Z.gtb_spec (Z.of_nat depth) maxDepth); try lia;
    try (eexists; eexists; split; reflexivity).
  - destruct items as [|[| |b|n|s|elems|entries] items];
      try (eexists; eexists; split; reflexivity).
    + destruct (forEach_index _ _ _ _ _). eexists; eexists; split; reflexivity.
    + destruct (forEach_entry _ _ _ _). eexists; eexists; split; reflexivity.
  - destruct (forEach_entry _ _ _ _). eexists; eexists; split; reflexivity.
Qed.

Lemma forEach_entry_summary (prefix : string)
    (analyze : JSON -> string -> Counters -> option FieldNode * Counters)
    (entries : list (string * JSON)) :
  (forall v key st, exists node st',
      analyze v key st = (Some node, st')
      /\ field_summary node = (key, prefix ++ key, getType v)) ->
  forall children st,
    map field_summary (fst (forEach_entry analyze entries children st))
    = (map field_summary children ++ map (entry_summary prefix) entries)%list.
Proof.
  intros Hf. induction entries as [|[k v] entries IH]; intros children st; simpl.
  - now rewrite app_nil_r.
  - destruct (Hf v k st) as (node & st' & -> & Hnode).
    rewrite IH. unfold push_node, push. rewrite map_app, <- app_assoc.
    simpl. unfold entry_summary at 2. simpl. now rewrite Hnode.
Qed.

Lemma object_fields_summary (entries : list (string * JSON)) (maxDepth : Z) :
  (0 <= maxDepth)%Z ->
  map field_summary (schema_fields (analyzeSchema (JObj entries) maxDepth))
  = map (entry_summary "$.") entries.
Proof.
  intros Hd. unfold analyzeSchema.
  match goal with
  | |- context [forEach_entry ?f ?l ?c ?s] =>
      pose proof (forEach_entry_summary "$." f l) as H;
      destruct (forEach_entry f l c s) as [fields st] eqn:E
  end.
  cbn [schema_fields].
  change fields with (fst (fields, st)). rewrite <- E. rewrite H; [reflexivity|].
  intros v key st0. apply analyzeValue_node. simpl. lia.
Qed.

(** X4. For a root object and a bound of at least 0 there is exactly one
    top-level field per key, in the order of the keys, named after the key,
    with the path of the dollar sign, a dot and the key, and with the type of
    the value. *)
Theorem analyzeSchema_object_fields (entries : list (string * JSON)) (maxDepth : Z) :
  (0 <= maxDepth)%Z ->
  map field_summary (schema_fields (analyzeSchema (JObj entries) maxDepth))
  = map (entry_summary "$.") entries.
Proof. apply object_fields_summary. Qed.

Lemma analyzeSchema_object_fields_witness :
  map field_summary
    (schema_fields
       (analyzeSchema (JObj [("brand", JStr "Suzuki"); ("tags", JArr [])]) 0))
  = [("brand", "$.brand", TString); ("tags", "$.tags", TArray)].
Proof.
  apply (analyzeSchema_object_fields
           [("brand", JStr "Suzuki"); ("tags", JArr [])] 0). lia.
Defined.

Lemma array_fields_summary (entries : list (string * JSON))
    (rest : list JSON) (maxDepth : Z) :
  (1 <= maxDepth)%Z ->
  map field_summary
    (schema_fields (analyzeSchema (JArr (JObj entries :: rest)) maxDepth))
  = map (entry_summary "$[*].") entries.
Proof.
  intros Hd.
  unfold analyzeSchema. simpl analyzeValue.
  destruct (Z.gtb_spec 0 maxDepth) as [Hgt|Hle]; [lia|].
  match goal with
  | |- context [forEach_entry ?f ?l ?c ?s] =>
      pose proof (forEach_entry_summary "$[*]." f l) as Hsum;
      destruct (forEach_entry f l c s) as [fields st] eqn:E
  end.
  cbn [schema_fields field_children].
  change fields with (fst (fields, st)). rewrite <- E. rewrite Hsum; [reflexivity|].
  intros v key st0. apply analyzeValue_node. simpl. lia.
Qed.

(** X5. For a root array whose first item is an object, and a bound of at least
    1, the top-level fields are those of the first item alone: one per key of
    that item, in order, at the path of the dollar sign, the wildcard and the
    key; the items after the first have no part in the result at all. *)
Theorem analyzeSchema_array_fields (entries : list (string * JSON))
    (rest : list JSON) (maxDepth : Z) :
  (1 <= maxDepth)%Z ->
  map field_summary
    (schema_fields (analyzeSchema (JArr (JObj entries :: rest)) maxDepth))
  = map (entry_summary "$[*].") entries
  /\ analyzeSchema (JArr (JObj entries :: rest)) maxDepth
     = analyzeSchema (JArr [JObj entries]) maxDepth.
Proof.
  intros Hd. split; [now apply array_fields_summary | reflexivity].
Qed.

Lemma analyzeSchema_array_fields_witness :
  map field_summary
    (schema_fields
       (analyzeSchema (JArr [JObj [("id", JNum 1)]; JObj [("other", JNull)]]) 3))
  = [("id", "$[*].id", TNumber)].
Proof.
  apply (analyzeSchema_array_fields [("id", JNum 1)] [JObj [("other", JNull)]] 3).
  lia.
Defined.

Lemma fold_push_suggestions (fields : list FieldNode) :
  forall suggestions : list string,
  fold_left (fun suggestions field => push suggestions (field_suggestion field))
    fields suggestions
  = (suggestions ++ map field_suggestion fields)%list.
Proof.
  induction fields as [|f fields IH]; intros suggestions; simpl.
  - now rewrite app_nil_r.
  - rewrite IH. unfold push. now rewrite <- app_assoc.
Qed.

Lemma suggestCompletions_root (schema : SchemaAnalysis) :
  suggestCompletions EmptyString schema = map field_suggestion (schema_fields schema)
  /\ suggestCompletions "$" schema = map field_suggestion (schema_fields schema).
Proof.
  unfold suggestCompletions. cbn [is_empty orb].
  change (String.eqb "$" "$") with true. cbv iota.
  now rewrite fold_push_suggestions.
Qed.

(** X6. For the schema of a root object, analysed with a depth bound of at
    least 1, the completions suggested for the empty
    query and for the bare dollar sign are the paths of the top-level fields,
    one per key in order; any other partial query has no suggestion.  For a
    root array whose first item is an object they are still the dollar sign,
    a dot and the key, which are not the paths of the fields. *)
Theorem suggestCompletions_schema (entries : list (string * JSON))
    (rest : list JSON) (maxDepth : Z) (partialQuery : string) :
  (1 <= maxDepth)%Z ->
  let object_schema := analyzeSchema (JObj entries) maxDepth in
  let array_schema := analyzeSchema (JArr (JObj entries :: rest)) maxDepth in
  suggestCompletions EmptyString object_schema = map field_path (schema_fields object_schema)
  /\ suggestCompletions "$" object_schema = map (fun kv => "$." ++ fst kv) entries
  /\ suggestCompletions "$" array_schema = map (fun kv => "$." ++ fst kv) entries
  /\ map field_path (schema_fields array_schema)
     = map (fun kv => "$[*]." ++ fst kv) entries
  /\ (partialQuery <> EmptyString -> partialQuery <> "$" ->
      suggestCompletions partialQuery object_schema = []).
Proof.
  intros Hd. cbv zeta.
  pose proof (object_fields_summary entries maxDepth) as Ho.
  pose proof (array_fields_summary entries rest maxDepth Hd) as Ha.
  assert (Hnames : forall prefix fields,
             map field_summary fields = map (entry_summary prefix) entries ->
             map field_suggestion fields
             = map (fun kv => "$." ++ fst kv) entries
             /\ map field_path fields = map (fun kv => prefix ++ fst kv) entries).
  { intros prefix fields H. split.
    - transitivity (map (fun s : string * string * FieldType => "$." ++ fst (fst s))
                      (map field_summary fields)).
      + rewrite map_map. reflexivity.
      + rewrite H, map_map. reflexivity.
    - transitivity (map (fun s : string * string * FieldType => snd (fst s))
                      (map field_summary fields)).
      + rewrite map_map. reflexivity.
      + rewrite H, map_map. reflexivity. }
  destruct (Hnames _ _ (Ho ltac:(lia))) as [Ho1 Ho2].
  destruct (Hnames _ _ Ha) as [Ha1 Ha2].
  rewrite (proj1 (suggestCompletions_root _)), !(proj2 (suggestCompletions_root _)).
  repeat split.
  - now rewrite Ho1, Ho2.
  - exact Ho1.
  - exact Ha1.
  - exact Ha2.
  - intros H1 H2. unfold suggestCompletions.
    destruct (is_empty partialQuery) eqn:E1;
      [apply is_empty_true in E1; contradiction|].
    destruct (String.eqb_spec partialQuery "$"); [contradiction | reflexivity].
Qed.

Lemma suggestCompletions_schema_witness :
  suggestCompletions "$" (analyzeSchema (JArr [JObj [("id", JNum 1)]]) 3) = ["$.id"]
  /\ map field_path (schema_fields (analyzeSchema (JArr [JObj [("id", JNum 1)]]) 3))
     = ["$[*].id"].
Proof.
  destruct (suggestCompletions_schema [("id", JNum 1)] [] 3 "$.x" ltac:(lia))
    as (_ & _ & Hs & Hp & _).
  split; [exact Hs | exact Hp].
Defined.

(** ** Cells of the export *)

Lemma includes_head (c : ascii) (s : string) :
  includes (String c s) (String c EmptyString) = true.
Proof.
  unfold includes, indexOf. simpl.
  destruct (ascii_dec c c); [|congruence]. now destruct s.
Qed.

Lemma csv_unquote_doubled (s : string) :
  csv_unquote (double_quotes s ++ quote_mark) false = s.
Proof.
  induction s as [|c s IH]; [reflexivity|].
  simpl. destruct (Ascii.eqb c quote_char) eqn:E.
  - apply Ascii.eqb_eq in E. subst c. simpl. now rewrite IH.
  - simpl. rewrite E. now rewrite IH.
Qed.

Lemma escapeCsvValue_read (s : string) :
  csv_read_cell (escapeCsvValue (Some (JStr s))) = s.
Proof.
  unfold escapeCsvValue, escape_text. cbn [String_of].
  destruct (includes s "," || includes s newline || includes s carriage_return
            || includes s quote_mark) eqn:E.
  - unfold quote_mark at 1. simpl. apply csv_unquote_doubled.
  - apply orb_false_iff in E. destruct E as [_ Hq].
    destruct s as [|c s]; [reflexivity|].
    simpl. destruct (Ascii.eqb c quote_char) eqn:Ec; [|reflexivity].
    apply Ascii.eqb_eq in Ec. subst c.
    unfold quote_mark in Hq. now rewrite includes_head in Hq.
Qed.

(** X7. The cell made from a text reads back as that text: a cell in quotes by
    undoing the quotes, a bare cell as it stands.  So two different texts
    never give the same cell. *)
Theorem escapeCsvValue_faithful :
  (forall s : string, csv_read_cell (escapeCsvValue (Some (JStr s))) = s)
  /\ (forall a b : string,
        escapeCsvValue (Some (JStr a)) = escapeCsvValue (Some (JStr b)) -> a = b).
Proof.
  split; [apply escapeCsvValue_read|].
  intros a b H.
  rewrite <- (escapeCsvValue_read a), <- (escapeCsvValue_read b). now rewrite H.
Qed.

(** ** Flattened rows *)

Lemma row_define_keys (key : string) (v : JSON) (row : FlatRow) (k : string) :
  In k (row_keys (row_define key v row)) <-> In k (row_keys row) \/ k = key.
Proof.
  induction row as [|[k0 w] row IH]; simpl; [intuition auto|].
  destruct (String.eqb_spec k0 key) as [->|Hne]; simpl.
  - intuition auto.
  - rewrite IH. intuition auto.
Qed.

Lemma row_define_NoDup (key : string) (v : JSON) (row : FlatRow) :
  NoDup (row_keys row) -> NoDup (row_keys (row_define key v row)).
Proof.
  induction row as [|[k0 w] row IH]; simpl; intros H.
  - repeat constructor. auto.
  - inversion H as [|? ? Hnot Hrest]; subst.
    destruct (String.eqb_spec k0 key) as [->|Hne]; simpl.
    + constructor; assumption.
    + constructor; [|now apply IH].
      intros Hin. apply row_define_keys in Hin.
      destruct Hin; [contradiction | congruence].
Qed.

Lemma row_define_scalar (key : string) (v : JSON) (row : FlatRow) :
  is_scalar v = true ->
  Forall (fun kv => is_scalar (snd kv) = true) row ->
  Forall (fun kv => is_scalar (snd kv) = true) (row_define key v row).
Proof.
  intros Hv. induction 1 as [|[k0 w] row Hw Hrow IH]; simpl.
  - repeat constructor. exact Hv.
  - destruct (String.eqb k0 key); constructor; simpl; auto.
Qed.

(** An assignment adds its key to the keys of the row, but for [__proto__],
    which it leaves to the setter of the prototype. *)
Lemma row_set_keys (key : string) (v : JSON) (row : FlatRow) (k : string) :
  In k (row_keys (row_set key v row))
  <-> In k (row_keys row) \/ (k = key /\ key <> "__proto__").
Proof.
  unfold row_set. destruct (String.eqb_spec key "__proto__") as [->|Hne].
  - intuition congruence.
  - rewrite row_define_keys. intuition auto.
Qed.

Lemma row_set_NoDup (key : string) (v : JSON) (row : FlatRow) :
  NoDup (row_keys row) -> NoDup (row_keys (row_set key v row)).
Proof.
  unfold row_set. destruct (String.eqb key "__proto__"); [auto|].
  apply row_define_NoDup.
Qed.

Lemma row_set_scalar (key : string) (v : JSON) (row : FlatRow) :
  is_scalar v = true ->
  Forall (fun kv => is_scalar (snd kv) = true) row ->
  Forall (fun kv => is_scalar (snd kv) = true) (row_set key v row).
Proof.
  unfold row_set. destruct (String.eqb key "__proto__"); [auto|].
  apply row_define_scalar.
Qed.

Lemma row_assign_keys (source : FlatRow) :
  forall (target : FlatRow) (k : string),
  In k (row_keys (row_assign target source))
  -> In k (row_keys target) \/ (In k (row_keys source) /\ k <> "__proto__").
Proof.
  unfold row_assign.
  induction source as [|[k0 w] source IH]; intros target k; simpl; [tauto|].
  intros H. apply IH in H. rewrite row_set_keys in H.
  destruct H as [[H|[-> Hp]]|[H Hp]]; auto.
Qed.

Lemma row_assign_NoDup (source target : FlatRow) :
  NoDup (row_keys target) -> NoDup (row_keys (row_assign target source)).
Proof.
  unfold row_assign. revert target.
  induction source as [|[k0 w] source IH]; intros target H; simpl; [exact H|].
  apply IH. now apply row_set_NoDup.
Qed.

Lemma row_assign_scalar (source : FlatRow) :
  forall target : FlatRow,
  Forall (fun kv => is_scalar (snd kv) = true) source ->
  Forall (fun kv => is_scalar (snd kv) = true) target ->
  Forall (fun kv => is_scalar (snd kv) = true) (row_assign target source).
Proof.
  unfold row_assign.
  induction source as [|[k0 w] source IH]; intros target Hs Ht; simpl; [exact Ht|].
  inversion Hs; subst. apply IH; [assumption|]. now apply row_set_scalar.
Qed.

Lemma stringified_scalar (v : JSON) : is_scalar (stringified v) = true.
Proof. unfold stringified. now destruct (JSON_stringify v). Qed.

Lemma under_prefix_step (prefix key k : string) :
  under_prefix (prefix ++ "." ++ key) k -> under_prefix prefix k.
Proof.
  intros [->|[rest ->]]; right.
  - now exists key.
  - exists (key ++ "." ++ rest). now rewrite !str_append_assoc.
Qed.

Lemma row_set_under (P : string -> Prop) (key : string) (v : JSON) (row : FlatRow) :
  P key -> Forall P (row_keys row) -> Forall P (row_keys (row_set key v row)).
Proof.
  intros Hk H. apply Forall_forall. intros k Hin.
  apply row_set_keys in Hin. rewrite Forall_forall in H.
  destruct Hin as [Hin|[-> _]]; auto.
Qed.

Lemma row_assign_under (P : string -> Prop) (target source : FlatRow) :
  Forall P (row_keys source) -> Forall P (row_keys target) ->
  Forall P (row_keys (row_assign target source)).
Proof.
  intros Hs Ht. apply Forall_forall. intros k Hin.
  apply row_assign_keys in Hin. rewrite Forall_forall in Hs, Ht.
  destruct Hin as [Hin|[Hin _]]; auto.
Qed.

Lemma row_ok_single (prefix : string) (v : JSON) :
  is_scalar v = true ->
  row_ok [(prefix_or_value prefix, v)]
  /\ (prefix <> EmptyString ->
      Forall (under_prefix prefix) (row_keys [(prefix_or_value prefix, v)])).
Proof.
  intros Hv. split; [split|].
  - constructor; [intros [] | constructor].
  - constructor; [exact Hv | constructor].
  - intros Hp. constructor; [|constructor]. left.
    unfold prefix_or_value. destruct prefix; [congruence | reflexivity].
Qed.

Lemma flattenObject_row (obj : JSON) :
  forall (prefix : string) (maxDepth : Z) (currentDepth : nat),
  row_ok (flattenObject obj prefix maxDepth currentDepth)
  /\ (prefix <> EmptyString ->
      Forall (under_prefix prefix)
        (row_keys (flattenObject obj prefix maxDepth currentDepth))).
Proof.
  induction obj as [| |b|n|s|items IH|entries IH] using JSON_nested_ind;
    intros prefix maxDepth currentDepth.
  1-6: simpl; destruct (Z.of_nat currentDepth >=? maxDepth)%Z;
    apply row_ok_single; try reflexivity; apply stringified_scalar.
  simpl. destruct (Z.of_nat currentDepth >=? maxDepth)%Z.
  { apply row_ok_single, stringified_scalar. }
  assert (Hstart : row_ok ([] : FlatRow)
                   /\ (prefix <> EmptyString ->
                       Forall (under_prefix prefix) (row_keys ([] : FlatRow)))).
  { split; [split; constructor | intros _; constructor]. }
  revert Hstart. generalize ([] : FlatRow) as flattened.
  induction IH as [|[key value] entries Hvalue _ IHentries]; intros flattened Hacc;
    [exact Hacc|].
  apply IHentries. simpl in Hvalue.
  destruct Hacc as [[Hn Hs] Hu].
  set (newKey := if is_empty prefix then key else prefix ++ "." ++ key).
  assert (HnewKey : prefix <> EmptyString -> under_prefix prefix newKey).
  { intros Hp. subst newKey. destruct prefix; [congruence|].
    cbn [is_empty]. right. now exists key. }
  assert (Hset : forall v, is_scalar v = true ->
            row_ok (row_set newKey v flattened)
            /\ (prefix <> EmptyString ->
                Forall (under_prefix prefix) (row_keys (row_set newKey v flattened)))).
  { intros v Hv. split; [split; [now apply row_set_NoDup | now apply row_set_scalar]|].
    intros Hp. apply row_set_under; auto. }
  destruct value as [| |b|n|s|items|sub]; try (apply Hset; reflexivity).
  destruct (Hvalue newKey maxDepth (S currentDepth)) as [[Hn' Hs'] Hu'].
  split; [split; [now apply row_assign_NoDup | now apply row_assign_scalar]|].
  intros Hp. apply row_assign_under; [|auto].
  assert (Hne : newKey <> EmptyString).
  { subst newKey. destruct prefix; [congruence|]. cbn [is_empty]. discriminate. }
  specialize (Hu' Hne). eapply Forall_impl; [|exact Hu'].
  intros k Hk. subst newKey. destruct prefix; [congruence|].
  cbn [is_empty] in Hk. now apply under_prefix_step in Hk.
Qed.

(** X8. Every flattened row has pairwise distinct keys and holds no array and
    no object: what was nested is either taken apart or turned into its JSON
    text.  Under a prefix that is not empty every key is the prefix itself or
    continues it after a dot. *)
Theorem flattenObject_scalar_row (obj : JSON) (prefix : string) (maxDepth : Z)
    (currentDepth : nat) :
  let row := flattenObject obj prefix maxDepth currentDepth in
  NoDup (row_keys row)
  /\ Forall (fun kv => is_scalar (snd kv) = true) row
  /\ (prefix <> EmptyString -> Forall (under_prefix prefix) (row_keys row)).
Proof.
  cbv zeta.
  destruct (flattenObject_row obj prefix maxDepth currentDepth) as [[Hn Hs] Hu].
  auto.
Qed.

Lemma row_define_fresh (key : string) (v : JSON) (row : FlatRow) :
  ~ In key (row_keys row) -> row_define key v row = (row ++ [(key, v)])%list.
Proof.
  induction row as [|[k0 w] row IH]; simpl; intros H; [reflexivity|].
  destruct (String.eqb_spec k0 key) as [->|Hne]; [exfalso; apply H; now left|].
  rewrite IH; [reflexivity|]. intros Hin. apply H. now right.
Qed.

Lemma row_set_fresh (key : string) (v : JSON) (row : FlatRow) :
  key <> "__proto__" ->
  ~ In key (row_keys row) -> row_set key v row = (row ++ [(key, v)])%list.
Proof.
  intros Hp. unfold row_set.
  destruct (String.eqb_spec key "__proto__"); [contradiction|].
  apply row_define_fresh.
Qed.

(** X9. A record that is already flat and has no key [__proto__] is left as
    it is: when the depth bound is at least 1, the keys are pairwise distinct,
    none of them is [__proto__] and no value is an array or an object,
    flattening returns the entries themselves, in their order.  (An entry
    under the key [__proto__] is lost: its assignment goes to the setter of
    the prototype.) *)
Theorem flattenObject_flat_record (entries : list (string * JSON)) (maxDepth : Z) :
  (1 <= maxDepth)%Z ->
  NoDup (map fst entries) ->
  ~ In "__proto__" (map fst entries) ->
  Forall (fun kv => is_scalar (snd kv) = true) entries ->
  flattenObject (JObj entries) EmptyString maxDepth 0 = entries.
Proof.
  intros Hd Hn Hp Hs. simpl.
  destruct (Z.geb_spec 0 maxDepth); [lia|].
  change entries with (([] : FlatRow) ++ entries)%list at 2.
  change (map fst entries) with (row_keys entries) in Hn, Hp.
  assert (Hacc : NoDup (row_keys ([] : FlatRow) ++ row_keys entries)%list)
    by exact Hn.
  revert Hacc. clear Hn. generalize ([] : FlatRow) as flattened.
  induction Hs as [|[key value] entries Hv _ IH]; intros flattened Hacc.
  - now rewrite app_nil_r.
  - simpl in Hacc. pose proof (NoDup_remove_2 _ _ _ Hacc) as Hfresh.
    assert (Hkey : key <> "__proto__") by (intros ->; apply Hp; now left).
    assert (Hrest : ~ In "__proto__" (row_keys entries))
      by (intros Hin; apply Hp; now right).
    specialize (IH Hrest).
    assert (Hset : row_set key value flattened = (flattened ++ [(key, value)])%list).
    { apply row_set_fresh; [exact Hkey|].
      intros Hin. apply Hfresh, in_or_app. now left. }
    assert (Hnext : NoDup (row_keys (flattened ++ [(key, value)])%list
                           ++ row_keys entries)%list).
    { unfold row_keys in *. rewrite map_app, <- app_assoc. exact Hacc. }
    specialize (IH _ Hnext). rewrite <- app_assoc in IH. simpl in IH.
    simpl in Hv.
    destruct value; try discriminate Hv; rewrite Hset; exact IH.
Qed.

Lemma flattenObject_flat_record_witness :
  flattenObject (JObj [("model", JStr "Civic"); ("year", JNum 2020)]) EmptyString 5 0
  = [("model", JStr "Civic"); ("year", JNum 2020)].
Proof.
  apply flattenObject_flat_record.
  - lia.
  - repeat constructor; simpl; intuition discriminate.
  - simpl; intuition discriminate.
  - repeat constructor.
Defined.


(** ** The table of the export *)

(** No row that [jsonToCsv] makes has the key [__proto__]. *)
Lemma flattenObject_top_keys (item : JSON) (maxDepth : Z) :
  ~ In "__proto__" (row_keys (flattenObject item EmptyString maxDepth 0)).
Proof.
  assert (Hone : forall v : JSON,
            ~ In "__proto__" (row_keys [(prefix_or_value EmptyString, v)])).
  { intros v [H|[]]. discriminate H. }
  destruct item as [| |b|n|s|items|entries]; simpl;
    destruct (0 >=? maxDepth)%Z; try apply Hone.
  assert (Hstart : ~ In "__proto__" (row_keys ([] : FlatRow))) by (intros []).
  revert Hstart. generalize ([] : FlatRow) as flattened.
  induction entries as [|[key value] entries IH]; intros flattened Hacc;
    [exact Hacc|].
  apply IH.
  assert (Hset : forall v, ~ In "__proto__" (row_keys (row_set key v flattened))).
  { intros v H. apply row_set_keys in H. destruct H as [H|[E H]]; [auto|].
    now apply H. }
  destruct value; try apply Hset.
  intros H. apply row_assign_keys in H. destruct H as [H|[_ H]]; [auto|].
  now apply H.
Qed.

(** X24. For every list of rows that is not empty, the columns of the export
    are the keys of the flattened rows, every key once, in strictly
    increasing lexicographic order, whatever the order in which the rows
    bring them; the text is the header line and one line per row, lines
    separated by a line feed and cells by commas, every row giving its cells
    in the order of the columns.  The cell of a row in the column of one of
    its keys is the value under that key, escaped.  In the column of a key
    that the row lacks the cell is empty when [Object.prototype] has no
    property of that name, or when the row has lost its prototype; when
    [Object.prototype] has a function of that name, the cell is the print of
    that function and is not empty. *)
Theorem jsonToCsv_table (native_code : string -> string) (data : list JSON)
    (options : CsvExportOptions) :
  data <> [] ->
  let maxDepth := csv_option_maxDepth options in
  let columns := csv_columns data maxDepth in
  let rows := map (flattened_item maxDepth) data in
  StronglySorted str_lt columns
  /\ (forall k : string,
        In k columns
        <-> exists item, In item data
              /\ In k (row_keys (flattenObject item EmptyString maxDepth 0)))
  /\ jsonToCsv native_code data options
     = join newline
         (map (join ",")
            (spec_table native_code (csv_option_rowNumbers options) columns rows))
  /\ (forall (row : Flattened) (key : string),
        In row rows -> In key columns ->
        (In key (row_keys (own_properties row)) ->
         exists v, In (key, v) (own_properties row)
                   /\ csv_cell native_code row key = escapeCsvValue (Some v))
        /\ (~ In key (row_keys (own_properties row)) ->
            match inherited_function key Object_prototype with
            | Some name =>
                if has_prototype row
                then csv_cell native_code row key
                     = escape_text ("function" ++ native_code name)
                     /\ csv_cell native_code row key <> EmptyString
                else csv_cell native_code row key = EmptyString
            | None => csv_cell native_code row key = EmptyString
            end)).
Proof.
  intros Hne. cbv zeta. unfold csv_columns.
  destruct (collect_rows_spec data (csv_option_maxDepth options)) as (Hf & Hn & Hk).
  destruct (sort_keys_spec _ Hn) as [Hsorted Hin].
  split; [exact Hsorted|]. split; [|split].
  - intros k. rewrite Hin, Hk. unfold flattened_rows. split.
    + intros (row & Hrow & Hkey). apply in_map_iff in Hrow.
      destruct Hrow as (item & <- & Hitem). now exists item.
    + intros (item & Hitem & Hkey). eexists. split; [|exact Hkey].
      apply in_map_iff. now exists item.
  - unfold jsonToCsv.
    fold (csv_option_maxDepth options). fold (csv_option_rowNumbers options).
    replace (List.length data =? 0) with false
      by (destruct data; [congruence | reflexivity]).
    destruct (collect_rows data (csv_option_maxDepth options)) as [rows keys].
    cbn [fst snd] in *. subst rows.
    rewrite csv_rows_loop_spec. unfold spec_table, spec_header.
    cbn [map app]. rewrite map_app.
    destruct (csv_option_rowNumbers options); reflexivity.
  - intros row key Hrow Hcol. split.
    + intros Hkey. destruct (row_get_own _ _ Hkey) as (v & Hget & Hv).
      exists v. split; [exact Hv|]. unfold csv_cell, row_member. now rewrite Hget.
    + intros Hkey. unfold csv_cell, row_member.
      rewrite (row_get_missing _ _ Hkey).
      assert (Hproto : key <> "__proto__").
      { intros ->. apply Hin, Hk in Hcol. destruct Hcol as (r & Hr & Hp).
        unfold flattened_rows in Hr. apply in_map_iff in Hr.
        destruct Hr as (item & <- & _).
        now apply flattenObject_top_keys in Hp. }
      destruct (String.eqb_spec key "__proto__") as [|_]; [contradiction|].
      destruct (inherited_function key Object_prototype) as [name|];
        destruct (has_prototype row); cbn [negb]; try reflexivity.
      split; [reflexivity|]. apply escape_text_not_empty. discriminate.
Qed.

(** The export of the specification's example: the comma makes the cell of
    [b] quoted. *)
Lemma jsonToCsv_table_witness :
  jsonToCsv v8_native_code
    [JObj [("b", JStr "x,y"); ("a", JNum 1)]] (mkCsvOptions None (Some false))
  = "a,b" ++ newline ++ "1," ++ quote_mark ++ "x,y" ++ quote_mark.
Proof.
  destruct (jsonToCsv_table v8_native_code
              [JObj [("b", JStr "x,y"); ("a", JNum 1)]]
              (mkCsvOptions None (Some false)) ltac:(discriminate))
    as (_ & _ & Heq & _).
  rewrite Heq. reflexivity.
Defined.

(** ** Search *)

Lemma searchValue_sound (caseSensitive : bool) (searchNormalized : string)
    (base : list string) (value : JSON) :
  forall (pre : list string) (matches : list SearchMatch),
  Forall (sound_match caseSensitive searchNormalized base) matches ->
  Forall (sound_match caseSensitive searchNormalized base)
    (searchValue caseSensitive searchNormalized value (base ++ pre)%list matches).
Proof.
  induction value as [| |b|n|s|items IH|entries IH] using JSON_nested_ind;
    intros pre matches Hm.
  1-5: simpl; unfold search_leaf, push;
    match goal with |- context [if ?c then _ else _] => destruct c eqn:E end;
    [ apply Forall_app; split; [exact Hm|]; constructor; [|constructor];
      split; [now exists pre | exact E]
    | exact Hm ].
  - simpl. generalize 0 as index. revert matches Hm.
    induction IH as [|item items Hitem _ IHitems]; intros matches Hm index;
      [exact Hm|].
    apply IHitems. rewrite <- app_assoc. apply Hitem, Hm.
  - simpl. revert matches Hm.
    induction IH as [|[key val] entries Hval _ IHentries]; intros matches Hm;
      [exact Hm|].
    apply IHentries. simpl in Hval. rewrite <- app_assoc. apply Hval.
    destruct (includes (if caseSensitive then key else toLowerCase key)
                searchNormalized) eqn:E; [|exact Hm].
    unfold push. apply Forall_app. split; [exact Hm|].
    constructor; [|constructor]. split; [|exact E].
    exists (pre ++ [key])%list. simpl. now rewrite app_assoc.
Qed.

(** X10. Every match that [recursiveSearch] reports lies below the path the
    search started from, and the text it reports (the printed value, or the
    key for a match on a key) contains the search term, both taken in lower
    case unless the search is case-sensitive. *)
Theorem recursiveSearch_sound (data : JSON) (searchTerm : string)
    (caseSensitive : bool) (currentPath : list string) :
  Forall
    (sound_match caseSensitive (normalize caseSensitive searchTerm) currentPath)
    (recursiveSearch data searchTerm caseSensitive currentPath).
Proof.
  unfold recursiveSearch.
  destruct (is_empty searchTerm); [constructor|].
  rewrite <- (app_nil_r currentPath) at 2.
  apply searchValue_sound. constructor.
Qed.

(** The number of matches does not depend on the path the search starts
    from, nor on what the matches are appended to. *)
Lemma searchValue_count (caseSensitive : bool) (searchNormalized : string)
    (value : JSON) :
  forall (path path' : list string) (matches matches' : list SearchMatch),
  List.length matches = List.length matches' ->
  List.length (searchValue caseSensitive searchNormalized value path matches)
  = List.length (searchValue caseSensitive searchNormalized value path' matches').
Proof.
  induction value as [| |b|n|s|items IH|entries IH] using JSON_nested_ind;
    intros path path' matches matches' Hm.
  1-5: simpl; unfold search_leaf, push;
    match goal with |- context [if ?c then _ else _] => destruct c end;
    rewrite ?length_app, ?Hm; reflexivity.
  - simpl. generalize 0 as index. revert matches matches' Hm.
    induction IH as [|item items Hitem _ IHitems]; intros matches matches' Hm index;
      [exact Hm|].
    apply IHitems. apply Hitem, Hm.
  - simpl. revert matches matches' Hm.
    induction IH as [|[key val] entries Hval _ IHentries]; intros matches matches' Hm;
      [exact Hm|].
    apply IHentries. simpl in Hval. apply Hval.
    destruct (includes (if caseSensitive then key else toLowerCase key)
                searchNormalized); [|exact Hm].
    unfold push. now rewrite !length_app, Hm.
Qed.

Lemma has_match_any_path (searchTerm : string) (caseSensitive : bool)
    (result : JSON) (path : list string) :
  (0 <? List.length (recursiveSearch result searchTerm caseSensitive path))
  = has_match searchTerm caseSensitive result.
Proof.
  unfold has_match, recursiveSearch.
  destruct (is_empty searchTerm); [reflexivity|].
  now rewrite (searchValue_count _ _ result path [] [] []).
Qed.

Lemma filter_indexed (p : JSON -> bool) (q : nat * JSON -> bool) (results : list JSON) :
  (forall i r, q (i, r) = p r) ->
  forall start : nat,
  map snd (filter q (combine (seq start (List.length results)) results))
  = filter p results.
Proof.
  intros Hq. induction results as [|r results IH]; intros start; [reflexivity|].
  simpl. rewrite Hq. destruct (p r); simpl; now rewrite IH.
Qed.

Lemma filterResults_filter (results : list JSON) (searchTerm : string)
    (caseSensitive : bool) :
  searchTerm <> EmptyString ->
  filterResults results searchTerm caseSensitive
  = filter (has_match searchTerm caseSensitive) results.
Proof.
  intros Hne. unfold filterResults.
  destruct (is_empty searchTerm) eqn:E; [apply is_empty_true in E; contradiction|].
  apply filter_indexed. intros i r. simpl. apply has_match_any_path.
Qed.

Lemma filter_filter {A : Type} (p : A -> bool) (l : list A) :
  filter p (filter p l) = filter p l.
Proof.
  induction l as [|x l IH]; [reflexivity|].
  simpl. destruct (p x) eqn:E; simpl; rewrite ?E, IH; reflexivity.
Qed.

(** X11. [filterResults] keeps exactly the results in which a search from the
    empty path finds a match, in their order: whether a result is kept does
    not depend on its position, although the search is started from the
    token of that position.  Filtering what has been filtered changes
    nothing, and the empty term keeps everything. *)
Theorem filterResults_position_free (results : list JSON) (searchTerm : string)
    (caseSensitive : bool) :
  (searchTerm = EmptyString ->
     filterResults results searchTerm caseSensitive = results)
  /\ (searchTerm <> EmptyString ->
      filterResults results searchTerm caseSensitive
      = filter (has_match searchTerm caseSensitive) results)
  /\ filterResults (filterResults results searchTerm caseSensitive)
       searchTerm caseSensitive
     = filterResults results searchTerm caseSensitive.
Proof.
  split; [|split].
  - intros ->. reflexivity.
  - apply filterResults_filter.
  - destruct searchTerm as [|c s] eqn:E; [reflexivity|]. rewrite <- E.
    assert (Hne : searchTerm <> EmptyString) by (rewrite E; discriminate).
    rewrite !filterResults_filter by exact Hne. apply filter_filter.
Qed.

Lemma prefix_toLowerCase (needle hay : string) :
  String.prefix needle hay = true ->
  String.prefix (toLowerCase needle) (toLowerCase hay) = true.
Proof.
  revert hay; induction needle as [|c needle IH]; intros [|d hay] H; simpl in *;
    try reflexivity; try discriminate.
  destruct (ascii_dec c d) as [->|]; [|discriminate].
  destruct (ascii_dec (lower_char d) (lower_char d)); [now apply IH | congruence].
Qed.

Lemma indexOf_scan_toLowerCase (needle hay : string) :
  forall k i : nat,
  indexOf_scan needle hay k = Some i ->
  exists j, indexOf_scan (toLowerCase needle) (toLowerCase hay) k = Some j.
Proof.
  induction hay as [|c hay IH]; intros k i H; cbn [indexOf_scan] in H.
  - destruct (String.prefix needle EmptyString) eqn:E; [|discriminate].
    apply prefix_toLowerCase in E. cbn [toLowerCase] in E.
    cbn [toLowerCase indexOf_scan]. rewrite E. eauto.
  - destruct (String.prefix needle (String c hay)) eqn:E.
    + apply prefix_toLowerCase in E. cbn [toLowerCase] in E.
      cbn [toLowerCase indexOf_scan]. rewrite E. eauto.
    + cbn [toLowerCase indexOf_scan].
      destruct (String.prefix (toLowerCase needle)
                  (String (lower_char c) (toLowerCase hay))); [eauto|].
      eapply IH, H.
Qed.

(** What is found as written is found in lower case too. *)
Lemma includes_toLowerCase (hay needle : string) :
  includes hay needle = true ->
  includes (toLowerCase hay) (toLowerCase needle) = true.
Proof.
  unfold includes, indexOf. cbn [Nat.min str_drop].
  destruct (indexOf_scan needle _ 0) as [i|] eqn:E; [|discriminate].
  intros _. replace (str_drop 0 hay) with hay in E by now destruct hay.
  replace (str_drop 0 (toLowerCase hay)) with (toLowerCase hay)
    by now destruct hay.
  destruct (indexOf_scan_toLowerCase _ _ _ _ E) as [j ->]. reflexivity.
Qed.

Lemma searchValue_case_count (searchTerm : string) (value : JSON) :
  forall (path path' : list string) (matches matches' : list SearchMatch),
  List.length matches <= List.length matches' ->
  List.length (searchValue true searchTerm value path matches)
  <= List.length (searchValue false (toLowerCase searchTerm) value path' matches').
Proof.
  induction value as [| |b|n|s|items IH|entries IH] using JSON_nested_ind;
    intros path path' matches matches' Hm.
  1-5: cbn [searchValue]; unfold search_leaf, push;
    match goal with
    | |- context [includes (toLowerCase ?h) (toLowerCase ?t)] =>
        destruct (includes h t) eqn:E;
        [ rewrite (includes_toLowerCase _ _ E), !length_app; simpl; lia
        | destruct (includes (toLowerCase h) (toLowerCase t));
          rewrite ?length_app; simpl; lia ]
    end.
  - simpl. generalize 0 as index. revert matches matches' Hm.
    induction IH as [|item items Hitem _ IHitems]; intros matches matches' Hm index;
      [exact Hm|].
    apply IHitems. apply Hitem, Hm.
  - simpl. revert matches matches' Hm.
    induction IH as [|[key val] entries Hval _ IHentries]; intros matches matches' Hm;
      [exact Hm|].
    apply IHentries. simpl in Hval. apply Hval.
    destruct (includes key searchTerm) eqn:E.
    + rewrite (includes_toLowerCase _ _ E). unfold push.
      rewrite !length_app. simpl. lia.
    + destruct (includes (toLowerCase key) (toLowerCase searchTerm));
        unfold push; rewrite ?length_app; simpl; lia.
Qed.

Lemma has_match_case (searchTerm : string) (result : JSON) :
  has_match searchTerm true result = true ->
  has_match searchTerm false result = true.
Proof.
  unfold has_match, recursiveSearch.
  destruct (is_empty searchTerm); [discriminate|].
  pose proof (searchValue_case_count searchTerm result [] [] [] [] (Nat.le_refl _)).
  rewrite !Nat.ltb_lt. lia.
Qed.

(** X12. On data and terms whose code units are all below 256, where
    [toLowerCase] works code unit by code unit, ignoring case never loses a
    match: the case-insensitive search reports at least as many matches as
    the case-sensitive search for the same term, and every result that
    [filterResults] keeps in the case-sensitive mode is kept in the other
    mode too.  (Beyond that range the lower case of a text is not made of
    the lower cases of its parts, the final sigma being one case, and the
    statement is not made.) *)
Theorem search_case_monotone (searchTerm : string) :
  (forall (data : JSON) (currentPath : list string),
     List.length (recursiveSearch data searchTerm true currentPath)
     <= List.length (recursiveSearch data searchTerm false currentPath))
  /\ (forall (results : list JSON) (result : JSON),
        In result (filterResults results searchTerm true) ->
        In result (filterResults results searchTerm false)).
Proof.
  split.
  - intros data currentPath. unfold recursiveSearch.
    destruct (is_empty searchTerm); [apply Nat.le_refl|].
    apply searchValue_case_count. apply Nat.le_refl.
  - intros results result.
    destruct searchTerm as [|c s] eqn:E; [auto|]. rewrite <- E.
    assert (Hne : searchTerm <> EmptyString) by (rewrite E; discriminate).
    rewrite !filterResults_filter by exact Hne.
    rewrite !filter_In. intros [Hin H]. split; [exact Hin|].
    now apply has_match_case.
Qed.

(** ** Highlighting *)

Lemma substring_empty (s : string) (a : nat) : substring s a a = EmptyString.
Proof. unfold substring. now rewrite Nat.min_id, Nat.max_id, Nat.sub_diag. Qed.

Lemma render_segments_push (segments : list Segment) (seg : Segment) :
  render_segments (push segments seg) = render_segments segments ++ render_segment seg.
Proof.
  unfold render_segments, push. rewrite map_app, join_empty_app.
  simpl. reflexivity.
Qed.

(** The two loops run in step: from the same position and with the markup
    of the segments as the result so far, the second ends where the first
    does, with the markup of its segments. *)
Lemma highlight_loops_agree (text textNormalized searchNormalized : string)
    (termLength : nat) :
  searchNormalized <> EmptyString ->
  forall (fuel lastIndex : nat) (segments : list Segment),
  highlight_json_loop fuel text textNormalized searchNormalized termLength
    (indexOf textNormalized searchNormalized lastIndex) lastIndex
    (render_segments segments)
  = match
      highlight_loop fuel text textNormalized searchNormalized termLength
        (indexOf textNormalized searchNormalized lastIndex) lastIndex segments
    with
    | Some (segments', last) => Some (render_segments segments', last)
    | None => None
    end.
Proof.
  intros Hne. induction fuel as [|fuel IH]; intros lastIndex segments.
  - destruct (indexOf textNormalized searchNormalized lastIndex); reflexivity.
  - destruct (indexOf textNormalized searchNormalized lastIndex) as [index|] eqn:E;
      [|reflexivity].
    apply indexOf_bounds in E; [|exact Hne]. destruct E as [Hlo _].
    cbn [highlight_loop highlight_json_loop].
    rewrite <- IH. f_equal.
    rewrite render_segments_push. unfold render_segment.
    cbn [segment_isMatch segment_text].
    destruct (Nat.ltb_spec lastIndex index) as [Hlt|Hge].
    + rewrite render_segments_push. unfold render_segment.
      cbn [segment_isMatch segment_text].
      now rewrite !str_append_assoc.
    + replace index with lastIndex by lia.
      now rewrite substring_empty, str_append_nil_r, ?str_append_assoc.
Qed.

(** X13. [highlightJsonText] is the markup of the segments of [highlightText]:
    for every text and term, in either mode, both return, and the string of
    the first is the segments of the second put one after the other, each
    match between the opening and the closing [mark] tag. *)
Theorem highlightJsonText_renders (text searchTerm : string) (caseSensitive : bool) :
  exists segments : list Segment,
    highlightText text searchTerm caseSensitive = Some segments
    /\ highlightJsonText text searchTerm caseSensitive
       = Some (render_segments segments).
Proof.
  destruct (highlightText_with_concat toLowerCase text searchTerm caseSensitive
              toLowerCase_nonempty) as (segments & Hsome & Hconcat).
  exists segments. split; [exact Hsome|].
  unfold highlightText, highlightText_with in *. unfold highlightJsonText.
  destruct (is_empty searchTerm) eqn:Hs.
  { simpl in Hsome. injection Hsome as <-.
    unfold render_segments. simpl. reflexivity. }
  destruct (is_empty text) eqn:Ht.
  { simpl in Hsome. injection Hsome as <-.
    apply is_empty_true in Ht. subst text.
    destruct searchTerm as [|c s]; [discriminate Hs|].
    unfold render_segments. destruct caseSensitive; reflexivity. }
  simpl orb in Hsome. cbv iota in Hsome.
  apply is_empty_false in Hs.
  set (searchNormalized := if caseSensitive then searchTerm else toLowerCase searchTerm) in *.
  set (textNormalized := if caseSensitive then text else toLowerCase text) in *.
  assert (Hne : searchNormalized <> EmptyString).
  { subst searchNormalized. destruct caseSensitive;
      [exact Hs | now apply toLowerCase_nonempty]. }
  pose proof (highlight_loops_agree text textNormalized searchNormalized
                (String.length searchTerm) Hne
                (String.length textNormalized) 0 []) as Hagree.
  change (render_segments []) with EmptyString in Hagree.
  rewrite Hagree.
  destruct (highlight_loop _ _ _ _ _ _ _ _) as [[segs last]|]; [|discriminate].
  injection Hsome as <-. f_equal.
  destruct (Nat.ltb_spec last (String.length text)) as [Hlt|Hge].
  - now rewrite render_segments_push.
  - rewrite <- substring_from_rest, str_drop_all by exact Hge.
    now rewrite str_append_nil_r.
Qed.

Lemma toLowerCase_length (s : string) :
  String.length (toLowerCase s) = String.length s.
Proof. induction s as [|c s IH]; simpl; [reflexivity | now rewrite IH]. Qed.

Lemma toLowerCase_take (n : nat) (s : string) :
  toLowerCase (str_take n s) = str_take n (toLowerCase s).
Proof.
  revert s; induction n as [|n IH]; intros [|c s]; simpl; try reflexivity.
  now rewrite IH.
Qed.

Lemma toLowerCase_drop (n : nat) (s : string) :
  toLowerCase (str_drop n s) = str_drop n (toLowerCase s).
Proof.
  revert s; induction n as [|n IH]; intros [|c s]; simpl; try reflexivity.
  apply IH.
Qed.

Lemma normalize_length (caseSensitive : bool) (s : string) :
  String.length (normalize caseSensitive s) = String.length s.
Proof. destruct caseSensitive; [reflexivity | apply toLowerCase_length]. Qed.

Lemma normalize_substring (caseSensitive : bool) (s : string) (a b : nat) :
  normalize caseSensitive (substring s a b)
  = substring (normalize caseSensitive s) a b.
Proof.
  destruct caseSensitive; [reflexivity|]. unfold normalize, substring.
  now rewrite toLowerCase_take, toLowerCase_drop, toLowerCase_length.
Qed.

Lemma prefix_take (p s : string) :
  String.prefix p s = true -> str_take (String.length p) s = p.
Proof.
  revert s; induction p as [|c p IH]; intros [|d s] H; simpl in *;
    try reflexivity; try discriminate.
  destruct (ascii_dec c d) as [->|]; [|discriminate]. now rewrite IH.
Qed.

Lemma indexOf_scan_found (needle hay : string) :
  forall k i : nat,
  indexOf_scan needle hay k = Some i ->
  str_take (String.length needle) (str_drop (i - k) hay) = needle.
Proof.
  induction hay as [|c hay IH]; intros k i H; cbn [indexOf_scan] in H.
  - destruct (String.prefix needle EmptyString) eqn:E; [|discriminate].
    injection H as <-. rewrite Nat.sub_diag. now apply prefix_take.
  - destruct (String.prefix needle (String c hay)) eqn:E.
    + injection H as <-. rewrite Nat.sub_diag. now apply prefix_take.
    + pose proof (indexOf_scan_bounds _ _ _ _ H) as [Hk _].
      apply IH in H. replace (i - k) with (S (i - S k)) by lia. exact H.
Qed.

(** Where [indexOf] finds the needle, the text has the needle. *)
Lemma indexOf_found (hay needle : string) (pos i : nat) :
  needle <> EmptyString ->
  indexOf hay needle pos = Some i ->
  substring hay i (i + String.length needle) = needle.
Proof.
  intros Hne H. pose proof (indexOf_bounds _ _ _ _ Hne H) as [Hlo Hhi].
  unfold indexOf in H.
  pose proof (indexOf_scan_bounds _ _ _ _ H) as [Hk Hend].
  apply indexOf_scan_found in H.
  rewrite str_length_drop in Hend. rewrite str_drop_drop in H.
  assert (Hpos : Nat.min pos (String.length hay) <= i) by lia.
  replace (Nat.min pos (String.length hay) + (i - Nat.min pos (String.length hay)))
    with i in H by lia.
  unfold substring.
  assert (Hfit : i + String.length needle <= String.length hay) by lia.
  rewrite (Nat.min_l i) by lia.
  rewrite (Nat.min_l (i + String.length needle)) by lia.
  rewrite Nat.min_l, Nat.max_r by lia.
  replace (i + String.length needle - i) with (String.length needle) by lia.
  exact H.
Qed.

Lemma str_take_nonempty (n : nat) (s : string) :
  0 < n -> s <> EmptyString -> str_take n s <> EmptyString.
Proof. destruct n, s; simpl; try lia; congruence. Qed.

Lemma substring_nonempty (s : string) (a b : nat) :
  a < b -> a < String.length s -> substring s a b <> EmptyString.
Proof.
  intros Hab Ha. unfold substring.
  rewrite (Nat.min_l a) by lia.
  assert (Hb : a < Nat.min b (String.length s)) by lia.
  rewrite (Nat.min_l a (Nat.min b (String.length s))),
    (Nat.max_r a (Nat.min b (String.length s))) by lia.
  apply str_take_nonempty; [lia|].
  intros E. pose proof (str_length_drop a s) as Hl. rewrite E in Hl. simpl in Hl. lia.
Qed.

Lemma segment_ok_push (caseSensitive : bool) (searchTerm : string)
    (segments : list Segment) (seg : Segment) :
  Forall (segment_ok caseSensitive searchTerm) segments ->
  segment_ok caseSensitive searchTerm seg ->
  Forall (segment_ok caseSensitive searchTerm) (push segments seg).
Proof.
  intros H Hs. unfold push. apply Forall_app. split; [exact H|].
  now repeat constructor.
Qed.

(** The segments of the loop for a term that is not empty: each is as it
    should be, those that were there stay, and a match is among them as soon
    as the term is found once. *)
Lemma highlight_loop_segments (caseSensitive : bool) (text searchTerm : string) :
  searchTerm <> EmptyString ->
  forall (fuel lastIndex : nat) (segments segments' : list Segment) (last : nat),
  Forall (segment_ok caseSensitive searchTerm) segments ->
  highlight_loop fuel text (normalize caseSensitive text)
    (normalize caseSensitive searchTerm) (String.length searchTerm)
    (indexOf (normalize caseSensitive text) (normalize caseSensitive searchTerm)
       lastIndex) lastIndex segments
  = Some (segments', last) ->
  Forall (segment_ok caseSensitive searchTerm) segments'
  /\ (exists more, segments' = (segments ++ more)%list)
  /\ match indexOf (normalize caseSensitive text)
             (normalize caseSensitive searchTerm) lastIndex with
     | Some _ => existsb segment_isMatch segments' = true
     | None => segments' = segments
     end.
Proof.
  intros Hterm.
  assert (Hne : normalize caseSensitive searchTerm <> EmptyString).
  { destruct caseSensitive; [exact Hterm | now apply toLowerCase_nonempty]. }
  induction fuel as [|fuel IH]; intros lastIndex segments segments' last Hok Hloop.
  - destruct (indexOf _ _ lastIndex); [discriminate|].
    injection Hloop as <- <-. split; [exact Hok|]. split; [|reflexivity].
    exists []. now rewrite app_nil_r.
  - destruct (indexOf _ _ lastIndex) as [index|] eqn:E.
    + pose proof (indexOf_bounds _ _ _ _ Hne E) as [Hlo Hhi].
      rewrite normalize_length in Hhi.
      pose proof (indexOf_found _ _ _ _ Hne E) as Hfound.
      rewrite normalize_length in Hfound.
      cbn [highlight_loop] in Hloop.
      apply IH in Hloop.
      * destruct Hloop as (Hall & [more Hmore] & _).
        split; [exact Hall|]. split.
        -- destruct (lastIndex <? index); unfold push in Hmore;
             rewrite <- ?app_assoc in Hmore; eauto.
        -- subst segments'. unfold push.
           rewrite !existsb_app. simpl. now rewrite !orb_true_r.
      * apply segment_ok_push.
        -- destruct (Nat.ltb_spec lastIndex index) as [Hlt|Hge]; [|exact Hok].
           apply segment_ok_push; [exact Hok|].
           unfold segment_ok. cbn [segment_isMatch segment_text].
           apply substring_nonempty; lia.
        -- unfold segment_ok. cbn [segment_isMatch segment_text].
           now rewrite normalize_substring.
    + injection Hloop as <- <-. split; [exact Hok|]. split; [|reflexivity].
      exists []. now rewrite app_nil_r.
Qed.

(** X14. On a text and a term that are not empty and whose code units are
    all below 256, where [toLowerCase] keeps the length of a text, every
    segment that [highlightText] marks as a match is the term, letter for
    letter up to case (exactly, in the case-sensitive mode), and every other
    segment is not empty; and there is a match among the segments exactly
    when the term occurs in the text, both in lower case unless the mode is
    case-sensitive.  (Beyond that range the lower case of a text can be
    longer than the text, the positions found in it no longer fit the text,
    and the statement is not made.) *)
Theorem highlightText_segments (text searchTerm : string) (caseSensitive : bool)
    (segments : list Segment) :
  text <> EmptyString -> searchTerm <> EmptyString ->
  highlightText text searchTerm caseSensitive = Some segments ->
  Forall (segment_ok caseSensitive searchTerm) segments
  /\ existsb segment_isMatch segments
     = includes (normalize caseSensitive text) (normalize caseSensitive searchTerm).
Proof.
  intros Htext Hterm H. unfold highlightText, highlightText_with in H.
  apply is_empty_false in Htext, Hterm. rewrite Htext, Hterm in H.
  simpl orb in H. cbv iota in H. apply is_empty_false in Htext, Hterm.
  change (if caseSensitive then searchTerm else toLowerCase searchTerm)
    with (normalize caseSensitive searchTerm) in H.
  change (if caseSensitive then text else toLowerCase text)
    with (normalize caseSensitive text) in H.
  destruct (highlight_loop _ _ _ _ _ _ _ _) as [[segs last]|] eqn:Hloop;
    [|discriminate].
  injection H as <-.
  destruct (highlight_loop_segments caseSensitive text searchTerm Hterm _ _ _ _ _
              (Forall_nil _) Hloop) as (Hall & _ & Hfound).
  assert (Hfinal : Forall (segment_ok caseSensitive searchTerm)
                     (if last <? String.length text
                      then push segs (mkSegment (substring_from text last) false)
                      else segs)).
  { destruct (Nat.ltb_spec last (String.length text)) as [Hlt|Hge]; [|exact Hall].
    apply segment_ok_push; [exact Hall|].
    unfold segment_ok. cbn [segment_isMatch segment_text].
    unfold substring_from. apply substring_nonempty; lia. }
  split; [exact Hfinal|].
  unfold includes.
  destruct (indexOf (normalize caseSensitive text)
              (normalize caseSensitive searchTerm) 0).
  - destruct (last <? String.length text); [|exact Hfound].
    unfold push. rewrite existsb_app, Hfound. reflexivity.
  - subst segs. destruct (last <? String.length text); reflexivity.
Qed.

Lemma highlightText_segments_witness :
  Forall (segment_ok false "camry")
    [mkSegment "Toyota " false; mkSegment "Camry" true; mkSegment " SE" false].
Proof.
  apply (highlightText_segments "Toyota Camry SE" "camry" false);
    [discriminate | discriminate | reflexivity].
Defined.

(** ** Sorting with a comparison function *)

Lemma sort_insert_by_perm {A : Type} (compareFn : A -> A -> Q) (x : A)
    (l : list A) :
  Permutation (x :: l) (sort_insert_by compareFn x l).
Proof.
  induction l as [|y l IH]; simpl; [reflexivity|].
  destruct (Qle_bool (compareFn x y) 0); [reflexivity|].
  rewrite perm_swap. now constructor.
Qed.

Lemma Array_sort_perm {A : Type} (compareFn : A -> A -> Q) (l : list A) :
  Permutation l (Array_sort compareFn l).
Proof.
  induction l as [|x l IH]; simpl; [constructor|].
  rewrite <- sort_insert_by_perm. now constructor.
Qed.

Section SortedBy.

Context {A : Type}.
Variable le : A -> A -> Prop.
Variable compareFn : A -> A -> Q.
Hypothesis le_true : forall a b, Qle_bool (compareFn a b) 0 = true -> le a b.
Hypothesis le_false : forall a b, Qle_bool (compareFn a b) 0 = false -> le b a.
Hypothesis le_trans : forall a b c, le a b -> le b c -> le a c.

Lemma sort_insert_by_sorted (x : A) (l : list A) :
  StronglySorted le l -> StronglySorted le (sort_insert_by compareFn x l).
Proof.
  induction 1 as [|y l Hs IH Hall]; simpl.
  - constructor; constructor.
  - destruct (Qle_bool (compareFn x y) 0) eqn:E.
    + constructor; [constructor; assumption|].
      constructor; [now apply le_true|].
      apply le_true in E. rewrite Forall_forall in *.
      intros z Hz. eapply le_trans; [exact E | now apply Hall].
    + constructor; [exact IH|].
      rewrite Forall_forall in *. intros z Hz.
      apply (Permutation_in _ (Permutation_sym (sort_insert_by_perm compareFn x l)))
        in Hz.
      destruct Hz as [<-|Hz]; [now apply le_false | now apply Hall].
Qed.

Lemma Array_sort_sorted (l : list A) : StronglySorted le (Array_sort compareFn l).
Proof.
  induction l as [|x l IH]; simpl; [constructor|].
  now apply sort_insert_by_sorted.
Qed.

End SortedBy.

Lemma Qle_bool_false (x y : Q) : Qle_bool x y = false -> (y < x)%Q.
Proof.
  intros H. apply Qnot_le_lt. intros Hle.
  apply Qle_bool_iff in Hle. congruence.
Qed.

Lemma Array_sort_ascending {A : Type} (key : A -> Q) (l : list A) :
  ascending key (Array_sort (fun a b => (key a - key b)%Q) l).
Proof.
  apply Array_sort_sorted.
  - intros a b H. apply Qle_bool_iff in H. lra.
  - intros a b H. apply Qle_bool_false in H. lra.
  - intros a b c Hab Hbc. lra.
Qed.

Lemma Array_sort_descending {A : Type} (key : A -> Q) (l : list A) :
  descending key (Array_sort (fun a b => (key b - key a)%Q) l).
Proof.
  apply Array_sort_sorted.
  - intros a b H. apply Qle_bool_iff in H. lra.
  - intros a b H. apply Qle_bool_false in H. lra.
  - intros a b c Hab Hbc. lra.
Qed.

Lemma Array_sort_descending_Z {A : Type} (key : A -> Z) (l : list A) :
  descending (fun a => inject_Z (key a))
    (Array_sort (fun a b => inject_Z (key b - key a)) l).
Proof.
  apply Array_sort_sorted.
  - intros a b H. apply Qle_bool_iff in H.
    change 0%Q with (inject_Z 0) in H. rewrite <- Zle_Qle in H.
    rewrite <- Zle_Qle. lia.
  - intros a b H. apply Qle_bool_false in H.
    change 0%Q with (inject_Z 0) in H. rewrite <- Zlt_Qlt in H.
    rewrite <- Zle_Qle. lia.
  - intros a b c Hab Hbc. lra.
Qed.

Lemma StronglySorted_app {A : Type} (R : A -> A -> Prop) (a b : list A) :
  StronglySorted R a -> StronglySorted R b ->
  (forall x y, In x a -> In y b -> R x y) ->
  StronglySorted R (a ++ b)%list.
Proof.
  intros Ha Hb Hab. induction Ha as [|x a Ha IH Hall]; simpl; [exact Hb|].
  constructor.
  - apply IH. intros u v Hu Hv. apply Hab; [now right | exact Hv].
  - apply Forall_app. split; [exact Hall|].
    rewrite Forall_forall. intros y Hy. apply Hab; [now left | exact Hy].
Qed.

Lemma StronglySorted_rev {A : Type} (R : A -> A -> Prop) (l : list A) :
  StronglySorted R l -> StronglySorted (fun a b => R b a) (rev l).
Proof.
  induction 1 as [|x l Hs IH Hall]; simpl; [constructor|].
  apply StronglySorted_app; [exact IH | repeat constructor |].
  intros u v Hu [<-|[]]. rewrite Forall_forall in Hall.
  apply Hall. now apply in_rev.
Qed.

(** The first [n] of a sorted array, with the elements left out. *)
Lemma slice_first_ranked {A : Type} (R : A -> A -> Prop) (n : nat)
    (l sorted : list A) :
  Permutation l sorted -> StronglySorted R sorted ->
  List.length (slice_first n sorted) = Nat.min n (List.length l)
  /\ exists rest : list A,
       Permutation l (slice_first n sorted ++ rest)%list
       /\ StronglySorted R (slice_first n sorted ++ rest)%list.
Proof.
  intros Hp Hs. unfold slice_first. split.
  - rewrite length_firstn, (Permutation_length Hp). reflexivity.
  - exists (skipn n sorted). rewrite firstn_skipn. split; assumption.
Qed.

(** The last [n] of a sorted array, reversed. *)
Lemma slice_last_ranked {A : Type} (R : A -> A -> Prop) (n : nat)
    (l sorted : list A) :
  Permutation l sorted -> StronglySorted R sorted ->
  List.length (rev (slice_last n sorted)) = Nat.min n (List.length l)
  /\ exists rest : list A,
       Permutation l (rev (slice_last n sorted) ++ rest)%list
       /\ StronglySorted (fun a b => R b a) (rev (slice_last n sorted) ++ rest)%list.
Proof.
  intros Hp Hs. unfold slice_last. split.
  - rewrite length_rev, length_skipn, (Permutation_length Hp). lia.
  - exists (rev (firstn (List.length sorted - n) sorted)).
    rewrite <- rev_app_distr, firstn_skipn. split.
    + rewrite <- Permutation_rev. exact Hp.
    + now apply StronglySorted_rev.
Qed.

(** X15. The top lists of the analytics: each holds the first five of its
    ranking, or all the metrics when there are fewer; [fastest] is in
    ascending order of execution time and no metric left out of it is faster
    than one it holds; [slowest] is in descending order of execution time and
    no metric left out of it is slower; [mostComplex] and [mostResults] are
    in descending order of complexity score and of result count, with the
    same guarantee.  With five metrics or fewer, [slowest] is [fastest]
    read backwards. *)
Theorem topQueries_ranked (metrics : list QueryMetrics) :
  let top := topQueries metrics in
  let n := Nat.min 5 (List.length metrics) in
  (List.length (top_fastest top) = n
   /\ exists rest,
        Permutation metrics (top_fastest top ++ rest)%list
        /\ ascending metric_executionTime (top_fastest top ++ rest)%list)
  /\ (List.length (top_slowest top) = n
      /\ exists rest,
           Permutation metrics (top_slowest top ++ rest)%list
           /\ descending metric_executionTime (top_slowest top ++ rest)%list)
  /\ (List.length (top_mostComplex top) = n
      /\ exists rest,
           Permutation metrics (top_mostComplex top ++ rest)%list
           /\ descending metric_complexityScore (top_mostComplex top ++ rest)%list)
  /\ (List.length (top_mostResults top) = n
      /\ exists rest,
           Permutation metrics (top_mostResults top ++ rest)%list
           /\ descending (fun m => inject_Z (metric_resultCount m))
                (top_mostResults top ++ rest)%list)
  /\ (List.length metrics <= 5 -> top_slowest top = rev (top_fastest top)).
Proof.
  cbv zeta. unfold topQueries. cbn [top_fastest top_slowest top_mostComplex top_mostResults].
  split; [|split; [|split; [|split]]].
  - apply slice_first_ranked; [apply Array_sort_perm | apply Array_sort_ascending].
  - apply (slice_last_ranked (fun a b => (metric_executionTime a <= metric_executionTime b)%Q));
      [apply Array_sort_perm | apply Array_sort_ascending].
  - apply slice_first_ranked; [apply Array_sort_perm | apply Array_sort_descending].
  - apply slice_first_ranked; [apply Array_sort_perm|].
    apply (Array_sort_descending_Z metric_resultCount).
  - intros Hn. unfold slice_last, slice_first.
    set (sorted := Array_sort _ metrics).
    assert (Hlen : List.length sorted = List.length metrics)
      by (symmetry; apply Permutation_length, Array_sort_perm).
    replace (List.length sorted - 5) with 0 by lia.
    rewrite firstn_all2 by lia. reflexivity.
Qed.

(** ** Percentiles *)














(** ** Statistics *)






(** ** The complexity score *)

Lemma Math_round_integer (x : Q) (z : Z) : (x == inject_Z z)%Q -> Math_round x = z.
Proof.
  intros H. unfold Math_round.
  assert (E : (x + (1 # 2) == inject_Z z + (1 # 2))%Q) by (rewrite H; reflexivity).
  rewrite (Qfloor_comp _ _ E).
  unfold Qfloor, Qplus, inject_Z. cbn [Qnum Qden Pos.mul].
  rewrite Z.mul_1_l. symmetry. apply Z.div_unique with (r := 1%Z); lia.
Qed.

(** X18. The complexity score in closed form: one, plus 3 per filter
    opening, 2 for a recursive descent, 2 per slice, 1.5 per wildcard, 1 per
    comma, 2 per empty pair of parentheses and a tenth per character.  Ten
    times this sum is an integer, so the final rounding to one decimal
    changes nothing; the score is at least 1 plus a tenth of the length. *)
Theorem calculateComplexityScore_tenths (query : string) :
  (calculateComplexityScore query == inject_Z (complexity_tenths query) / 10)%Q
  /\ (calculateComplexityScore query
      == 1 + inject_Z (Z.of_nat (filterCount query)) * 3
         + (if includes query ".." then 2 else 0)
         + inject_Z (Z.of_nat (sliceCount query)) * 2
         + inject_Z (Z.of_nat (wildcardCount query)) * (3 # 2)
         + inject_Z (Z.of_nat (unionCount query)) * 1
         + inject_Z (Z.of_nat (scriptCount query)) * 2
         + inject_Z (Z.of_nat (String.length query)) / 10)%Q
  /\ (1 + inject_Z (Z.of_nat (String.length query)) / 10
      <= calculateComplexityScore query)%Q.
Proof.
  unfold calculateComplexityScore, complexity_tenths.
  fold (filterCount query) (sliceCount query) (wildcardCount query)
    (unionCount query) (scriptCount query).
  cbv zeta.
  set (f := Z.of_nat (filterCount query)).
  set (s := Z.of_nat (sliceCount query)).
  set (w := Z.of_nat (wildcardCount query)).
  set (u := Z.of_nat (unionCount query)).
  set (c := Z.of_nat (scriptCount query)).
  set (n := Z.of_nat (String.length query)).
  assert (Hf : (0 <= inject_Z f)%Q)
    by (change 0%Q with (inject_Z 0); rewrite <- Zle_Qle; subst f; lia).
  assert (Hs : (0 <= inject_Z s)%Q)
    by (change 0%Q with (inject_Z 0); rewrite <- Zle_Qle; subst s; lia).
  assert (Hw : (0 <= inject_Z w)%Q)
    by (change 0%Q with (inject_Z 0); rewrite <- Zle_Qle; subst w; lia).
  assert (Hu : (0 <= inject_Z u)%Q)
    by (change 0%Q with (inject_Z 0); rewrite <- Zle_Qle; subst u; lia).
  assert (Hc : (0 <= inject_Z c)%Q)
    by (change 0%Q with (inject_Z 0); rewrite <- Zle_Qle; subst c; lia).
  assert (E : forall r : Q, (r / 10 == r * (1 # 10))%Q) by (intros r; field).
  destruct (includes query "..").
  - assert (Hr : Math_round
                   ((1 + inject_Z f * 3 + 2 + inject_Z s * 2 + inject_Z w * (3 # 2)
                     + inject_Z u * 1 + inject_Z c * 2 + inject_Z n / 10) * 10)
                 = (10 + 30 * f + 20 + 20 * s + 15 * w + 10 * u + 20 * c + n)%Z).
    { apply Math_round_integer.
      rewrite !inject_Z_plus, !inject_Z_mult. rewrite E.
      change (inject_Z 10) with 10%Q. change (inject_Z 30) with 30%Q.
      change (inject_Z 20) with 20%Q. change (inject_Z 15) with 15%Q. ring. }
    rewrite Hr. rewrite !inject_Z_plus, !inject_Z_mult, !E.
    change (inject_Z 10) with 10%Q. change (inject_Z 30) with 30%Q.
    change (inject_Z 20) with 20%Q. change (inject_Z 15) with 15%Q.
    split; [reflexivity|]. split; [ring | lra].
  - assert (Hr : Math_round
                   ((1 + inject_Z f * 3 + inject_Z s * 2 + inject_Z w * (3 # 2)
                     + inject_Z u * 1 + inject_Z c * 2 + inject_Z n / 10) * 10)
                 = (10 + 30 * f + 0 + 20 * s + 15 * w + 10 * u + 20 * c + n)%Z).
    { apply Math_round_integer.
      rewrite !inject_Z_plus, !inject_Z_mult. rewrite E.
      change (inject_Z 10) with 10%Q. change (inject_Z 30) with 30%Q.
      change (inject_Z 20) with 20%Q. change (inject_Z 15) with 15%Q.
      change (inject_Z 0) with 0%Q. ring. }
    rewrite Hr. rewrite !inject_Z_plus, !inject_Z_mult, !E.
    change (inject_Z 10) with 10%Q. change (inject_Z 30) with 30%Q.
    change (inject_Z 20) with 20%Q. change (inject_Z 15) with 15%Q.
    change (inject_Z 0) with 0%Q.
    split; [reflexivity|]. split; [ring | lra].
Qed.
(** ** The query in the URL *)

Lemma string_triple_ind (P : string -> Prop) :
  P EmptyString ->
  (forall a, P (String a EmptyString)) ->
  (forall a b, P (String a (String b EmptyString))) ->
  (forall a b c rest, P rest -> P (String a (String b (String c rest)))) ->
  forall s, P s.
Proof.
  intros H0 H1 H2 H3. fix IH 1.
  intros [|a [|b [|c rest]]].
  - exact H0.
  - apply H1.
  - apply H2.
  - apply H3. apply IH.
Qed.

Lemma sextet_ok_all (v : nat) : v < 64 -> sextet_ok v = true.
Proof.
  intros Hv.
  assert (H : forallb sextet_ok (seq 0 64) = true) by (vm_compute; reflexivity).
  rewrite forallb_forall in H. apply H, in_seq. lia.
Qed.

Lemma sextet_facts (v : nat) :
  v < 64 ->
  let c := base64_char v in
  base64_value c = Some v
  /\ Ascii.eqb c equals_sign = false
  /\ is_ascii_whitespace c = false
  /\ is_url_safe (url_char c) = true
  /\ Ascii.eqb (url_char c) equals_sign = false
  /\ base64_of_url_char (url_char c) = c.
Proof.
  intros Hv c. pose proof (sextet_ok_all v Hv) as H. unfold sextet_ok in H.
  fold c in H.
  repeat (apply andb_prop in H; destruct H as [H ?]).
  repeat match goal with
         | Hn : negb _ = true |- _ => apply negb_true_iff in Hn
         end.
  split.
  { destruct (base64_value c) as [u|]; [|discriminate].
    apply Nat.eqb_eq in H. now subst. }
  repeat split; try assumption.
  now apply Ascii.eqb_eq.
Qed.

(** *** Six-bit values *)

Lemma div_small (q r k : nat) : r < k -> (q * k + r) / k = q.
Proof.
  intros H. symmetry. apply Nat.div_unique with (r := r); [exact H | lia].
Qed.

Lemma mod_small (q r k : nat) : r < k -> (q * k + r) mod k = r.
Proof.
  intros H. symmetry. apply Nat.mod_unique with (q := q); [exact H | lia].
Qed.

Lemma div_bound (a k m : nat) : a < k * m -> a / k < m.
Proof. apply Nat.Div0.div_lt_upper_bound. Qed.

Lemma code_bound (a : ascii) : code a < 256.
Proof. apply nat_ascii_bounded. Qed.

Lemma sextet_bounds (a b c : nat) :
  a < 256 -> b < 256 -> c < 256 ->
  a / 4 < 64 /\ a mod 4 * 16 < 64 /\ a mod 4 * 16 + b / 16 < 64
  /\ b mod 16 * 4 < 64 /\ b mod 16 * 4 + c / 64 < 64 /\ c mod 64 < 64.
Proof.
  intros Ha Hb Hc.
  pose proof (Nat.mod_upper_bound a 4 ltac:(lia)).
  pose proof (Nat.mod_upper_bound b 16 ltac:(lia)).
  pose proof (Nat.mod_upper_bound c 64 ltac:(lia)).
  pose proof (div_bound a 4 64 ltac:(lia)).
  pose proof (div_bound b 16 16 ltac:(lia)).
  pose proof (div_bound c 64 4 ltac:(lia)).
  lia.
Qed.

Lemma sextets_bound (s : string) : Forall (fun v => v < 64) (sextets s).
Proof.
  induction s as [|a|a b|a b c rest IH] using string_triple_ind;
    cbn [sextets].
  - constructor.
  - destruct (sextet_bounds (code a) 0 0 (code_bound a) ltac:(lia) ltac:(lia))
      as (H1 & H2 & _).
    apply Forall_cons; [exact H1|]. apply Forall_cons; [exact H2|]. constructor.
  - destruct (sextet_bounds (code a) (code b) 0 (code_bound a) (code_bound b)
                ltac:(lia)) as (H1 & _ & H2 & H3 & _).
    apply Forall_cons; [exact H1|]. apply Forall_cons; [exact H2|].
    apply Forall_cons; [exact H3|]. constructor.
  - destruct (sextet_bounds (code a) (code b) (code c) (code_bound a)
                (code_bound b) (code_bound c)) as (H1 & _ & H2 & _ & H3 & H4).
    apply Forall_cons; [exact H1|]. apply Forall_cons; [exact H2|].
    apply Forall_cons; [exact H3|]. apply Forall_cons; [exact H4|]. exact IH.
Qed.

(** A byte is read back from the values that hold its bits. *)
Lemma byte_first (a b : nat) :
  b < 16 -> a / 4 * 4 + (a mod 4 * 16 + b) / 16 = a.
Proof.
  intros Hb. rewrite div_small by exact Hb.
  pose proof (Nat.div_mod_eq a 4). lia.
Qed.

Lemma byte_second (q b t : nat) :
  b < 256 -> t < 4 ->
  (q * 16 + b / 16) mod 16 * 16 + (b mod 16 * 4 + t) / 4 = b.
Proof.
  intros Hb Ht.
  rewrite mod_small by (apply div_bound; lia).
  rewrite div_small by exact Ht.
  pose proof (Nat.div_mod_eq b 16). lia.
Qed.

Lemma byte_third (q c : nat) :
  c < 256 -> (q * 4 + c / 64) mod 4 * 64 + c mod 64 = c.
Proof.
  intros Hc. rewrite mod_small by (apply div_bound; lia).
  pose proof (Nat.div_mod_eq c 64). lia.
Qed.

Lemma chr_code (a : ascii) : chr (code a) = a.
Proof. apply ascii_nat_embedding. Qed.

(** The bytes of the values that [btoa] writes are the text itself. *)
Lemma base64_bytes_sextets (s : string) : base64_bytes (sextets s) = s.
Proof.
  induction s as [|a|a b|a b c rest IH] using string_triple_ind;
    cbn [sextets base64_bytes].
  - reflexivity.
  - rewrite <- (Nat.add_0_r (code a mod 4 * 16)).
    rewrite byte_first by lia. now rewrite chr_code.
  - pose proof (code_bound b) as Hb.
    rewrite byte_first by (apply div_bound; lia).
    rewrite <- (Nat.add_0_r (code b mod 16 * 4)).
    rewrite byte_second by lia. now rewrite !chr_code.
  - pose proof (code_bound b) as Hb. pose proof (code_bound c) as Hc.
    rewrite byte_first by (apply div_bound; lia).
    rewrite byte_second by (try apply div_bound; lia).
    rewrite byte_third by lia.
    now rewrite !chr_code, IH.
Qed.

Lemma btoa_text (s : string) :
  btoa s = base64_text (sextets s) ++ equals_run (padding_of s).
Proof.
  induction s as [|a|a b|a b c rest IH] using string_triple_ind;
    cbn [btoa sextets base64_text padding_of equals_run append];
    [reflexivity..|].
  now rewrite IH.
Qed.

(** The number of values, by the length of the last group. *)
Lemma sextets_length (s : string) :
  exists q : nat,
    (List.length (sextets s) = 4 * q /\ padding_of s = 0)
    \/ (List.length (sextets s) = 4 * q + 2 /\ padding_of s = 2)
    \/ (List.length (sextets s) = 4 * q + 3 /\ padding_of s = 1).
Proof.
  induction s as [|a|a b|a b c rest IH] using string_triple_ind;
    cbn [sextets padding_of List.length].
  - exists 0. left. split; reflexivity.
  - exists 0. right. left. split; reflexivity.
  - exists 0. right. right. split; reflexivity.
  - destruct IH as (q & [[H1 H2]|[[H1 H2]|[H1 H2]]]); exists (S q); rewrite H1, H2.
    + left. split; [lia | reflexivity].
    + right. left. split; [lia | reflexivity].
    + right. right. split; [lia | reflexivity].
Qed.

Lemma base64_text_length (values : list nat) :
  String.length (base64_text values) = List.length values.
Proof. induction values as [|v vs IH]; simpl; [reflexivity | now rewrite IH]. Qed.

Lemma url_text_length (values : list nat) :
  String.length (url_text values) = List.length values.
Proof. induction values as [|v vs IH]; simpl; [reflexivity | now rewrite IH]. Qed.

Lemma length_append (a b : string) :
  String.length (a ++ b) = String.length a + String.length b.
Proof. induction a as [|c a IH]; simpl; [reflexivity | now rewrite IH]. Qed.

Lemma equals_run_length (n : nat) : String.length (equals_run n) = n.
Proof. induction n as [|n IH]; simpl; [reflexivity | now rewrite IH]. Qed.

Lemma add_padding_run (n : nat) :
  forall base64 : string, add_padding n base64 = base64 ++ equals_run n.
Proof.
  induction n as [|n IH]; intros base64; cbn [add_padding equals_run].
  - now rewrite str_append_nil_r.
  - rewrite IH, str_append_assoc. reflexivity.
Qed.

(** *** Encoding *)

Lemma replace_url_text (values : list nat) (k : nat) :
  replace_char (chr 47) (chr 95)
    (replace_char (chr 43) (chr 45) (base64_text values ++ equals_run k))
  = url_text values ++ equals_run k.
Proof.
  induction values as [|v vs IH]; cbn [base64_text url_text append replace_char].
  - induction k as [|k IHk]; cbn [equals_run replace_char]; [reflexivity|].
    rewrite IHk. reflexivity.
  - rewrite IH. reflexivity.
Qed.

Lemma strip_trailing_run (k : nat) :
  strip_trailing equals_sign (equals_run k) = EmptyString.
Proof.
  induction k as [|k IH]; cbn [equals_run strip_trailing]; [reflexivity|].
  rewrite IH. reflexivity.
Qed.

Lemma strip_trailing_url_text (values : list nat) (k : nat) :
  Forall (fun v => v < 64) values ->
  strip_trailing equals_sign (url_text values ++ equals_run k) = url_text values.
Proof.
  induction 1 as [|v vs Hv _ IH]; cbn [url_text append strip_trailing].
  - apply strip_trailing_run.
  - rewrite IH. destruct (sextet_facts v Hv) as (_ & _ & _ & _ & Hne & _).
    rewrite Hne. destruct (url_text vs); reflexivity.
Qed.

Lemma encodeValue_url_text (encodeURIComponent : string -> string) (val : string) :
  encodeValue encodeURIComponent true val = url_text (sextets val).
Proof.
  unfold encodeValue. cbn [negb]. rewrite btoa_text, replace_url_text.
  apply strip_trailing_url_text, sextets_bound.
Qed.

(** *** Decoding *)

Lemma base64_of_url_text (values : list nat) :
  Forall (fun v => v < 64) values ->
  replace_char (chr 95) (chr 47) (replace_char (chr 45) (chr 43) (url_text values))
  = base64_text values.
Proof.
  induction 1 as [|v vs Hv _ IH]; cbn [url_text base64_text replace_char];
    [reflexivity|].
  rewrite IH. destruct (sextet_facts v Hv) as (_ & _ & _ & _ & _ & Hback).
  f_equal. exact Hback.
Qed.

Lemma remove_whitespace_text (values : list nat) (k : nat) :
  Forall (fun v => v < 64) values ->
  remove_chars is_ascii_whitespace (base64_text values ++ equals_run k)
  = base64_text values ++ equals_run k.
Proof.
  induction 1 as [|v vs Hv _ IH]; cbn [base64_text append remove_chars].
  - induction k as [|k IHk]; cbn [equals_run remove_chars]; [reflexivity|].
    now rewrite IHk.
  - destruct (sextet_facts v Hv) as (_ & _ & Hws & _). rewrite Hws, IH.
    reflexivity.
Qed.

Lemma remove_padding_text (values : list nat) (k : nat) :
  Forall (fun v => v < 64) values -> k <= 2 ->
  remove_padding (base64_text values ++ equals_run k) = base64_text values.
Proof.
  intros Hall Hk. induction Hall as [|v vs Hv _ IH];
    cbn [base64_text append remove_padding].
  - destruct k as [|[|[|k]]]; [reflexivity.. | lia].
  - destruct (sextet_facts v Hv) as (_ & Hne & _). rewrite Hne, IH.
    reflexivity.
Qed.

Lemma base64_values_text (values : list nat) :
  Forall (fun v => v < 64) values ->
  base64_values (base64_text values) = Some values.
Proof.
  induction 1 as [|v vs Hv _ IH]; cbn [base64_text base64_values];
    [reflexivity|].
  destruct (sextet_facts v Hv) as (Hval & _). rewrite Hval, IH. reflexivity.
Qed.

Lemma mod4_remainder (q r : nat) : r < 4 -> (4 * q + r) mod 4 = r.
Proof.
  intros H. symmetry. apply Nat.mod_unique with (q := q); [exact H | lia].
Qed.

(** [atob] undoes [btoa]. *)
Lemma atob_btoa (s : string) : atob (btoa s) = Some s.
Proof.
  unfold atob. rewrite btoa_text.
  pose proof (sextets_bound s) as Hall.
  rewrite remove_whitespace_text by exact Hall.
  rewrite length_append, base64_text_length, equals_run_length.
  destruct (sextets_length s) as (q & Hq).
  assert (Hpad : padding_of s <= 2) by (destruct Hq as [[_ H]|[[_ H]|[_ H]]]; lia).
  assert (Hsum : (List.length (sextets s) + padding_of s) mod 4 = 0).
  { destruct Hq as [[H1 H2]|[[H1 H2]|[H1 H2]]]; rewrite H1, H2.
    - apply (mod4_remainder q 0). lia.
    - replace (4 * q + 2 + 2) with (4 * S q + 0) by lia. apply mod4_remainder. lia.
    - replace (4 * q + 3 + 1) with (4 * S q + 0) by lia. apply mod4_remainder. lia. }
  rewrite Hsum. cbn [Nat.eqb].
  rewrite remove_padding_text by assumption.
  rewrite base64_text_length.
  assert (Hone : (List.length (sextets s) mod 4 =? 1) = false).
  { apply Nat.eqb_neq.
    destruct Hq as [[H1 _]|[[H1 _]|[H1 _]]]; rewrite H1.
    - rewrite <- (Nat.add_0_r (4 * q)), mod4_remainder; lia.
    - rewrite mod4_remainder; lia.
    - rewrite mod4_remainder; lia. }
  rewrite Hone, base64_values_text by exact Hall.
  now rewrite base64_bytes_sextets.
Qed.

(** The padding that [decodeValue] restores is the one [encodeValue]
    removed. *)
Lemma restore_padding (s : string) :
  let base64 := base64_text (sextets s) in
  let padding := String.length base64 mod 4 in
  (if 0 <? padding then add_padding (4 - padding) base64 else base64) = btoa s.
Proof.
  cbv zeta. rewrite btoa_text, base64_text_length.
  destruct (sextets_length s) as (q & [[H1 H2]|[[H1 H2]|[H1 H2]]]);
    rewrite H1, H2.
  - rewrite <- (Nat.add_0_r (4 * q)), mod4_remainder by lia.
    cbn [Nat.ltb Nat.leb equals_run]. now rewrite str_append_nil_r.
  - rewrite mod4_remainder by lia. cbn [Nat.ltb Nat.leb Nat.sub].
    apply add_padding_run.
  - rewrite mod4_remainder by lia. cbn [Nat.ltb Nat.leb Nat.sub].
    apply add_padding_run.
Qed.

Lemma url_text_safe (values : list nat) :
  Forall (fun v => v < 64) values -> all_chars is_url_safe (url_text values) = true.
Proof.
  induction 1 as [|v vs Hv _ IH]; cbn [url_text all_chars]; [reflexivity|].
  destruct (sextet_facts v Hv) as (_ & _ & _ & Hsafe & _).
  now rewrite Hsafe, IH.
Qed.

Lemma sextets_count (s : string) :
  List.length (sextets s) = (4 * String.length s + 2) / 3.
Proof.
  induction s as [|a|a b|a b c rest IH] using string_triple_ind;
    [reflexivity..|].
  cbn [sextets List.length String.length]. rewrite IH.
  replace (4 * S (S (S (String.length rest))) + 2)
    with (4 * String.length rest + 2 + 4 * 3) by lia.
  rewrite Nat.div_add by lia. lia.
Qed.

(** X19. With compression on, a query survives the URL: [decodeValue]
    returns exactly the text that [encodeValue] was given, whatever the two
    URI functions of the platform do; the encoded text holds only letters,
    digits, hyphens and underscores, and has four characters for every three
    of the query, rounded up. *)
Theorem decodeValue_encodeValue (encodeURIComponent : string -> string)
    (decodeURIComponent : string -> option string) (val : string) :
  decodeValue decodeURIComponent true (encodeValue encodeURIComponent true val)
  = Some val
  /\ all_chars is_url_safe (encodeValue encodeURIComponent true val) = true
  /\ String.length (encodeValue encodeURIComponent true val)
     = (4 * String.length val + 2) / 3.
Proof.
  rewrite encodeValue_url_text.
  pose proof (sextets_bound val) as Hall.
  split; [|split].
  - unfold decodeValue. cbn [negb].
    rewrite base64_of_url_text by exact Hall.
    rewrite (restore_padding val), atob_btoa. reflexivity.
  - now apply url_text_safe.
  - rewrite url_text_length. apply sextets_count.
Qed.
(** ** The figures of an export *)

Lemma sorted_keys_NoDup (keys : list string) :
  StronglySorted str_lt keys -> NoDup keys.
Proof.
  induction 1 as [|k keys Hs IH Hall]; constructor; [|exact IH].
  intros Hin. rewrite Forall_forall in Hall.
  exact (str_lt_irrefl k (Hall k Hin)).
Qed.

(** The columns of an export are the keys of its flattened rows, each
    once. *)
Lemma csv_columns_keys (data : list JSON) (maxDepth : Z) :
  NoDup (csv_columns data maxDepth)
  /\ forall k : string,
       In k (csv_columns data maxDepth)
       <-> exists row,
             In row (flattened_rows data maxDepth) /\ In k (row_keys row).
Proof.
  destruct (collect_rows_spec data maxDepth) as (_ & Hn & Hk).
  destruct (sort_keys_spec _ Hn) as [Hs Hin]. unfold csv_columns. split.
  - now apply sorted_keys_NoDup.
  - intros k. rewrite Hin. apply Hk.
Qed.

(** X20. The figures of an export that is not empty: [rowCount] is the
    number of results, and [columnCount], which is read off the first result
    alone, never exceeds the number of columns that [jsonToCsv] writes for
    the same results; the two agree exactly when no later result brings a
    key that the first one lacks. *)
Theorem getCsvExportStats_columns (native_code : string -> string)
    (results : list JSON) :
  results <> [] ->
  let stats := getCsvExportStats native_code results in
  let columns := csv_columns results 5 in
  csv_rowCount stats = List.length results
  /\ csv_columnCount stats = List.length (first_row_keys results)
  /\ csv_columnCount stats <= List.length columns
  /\ (csv_columnCount stats = List.length columns
      <-> forall row k,
            In row (flattened_rows results 5) -> In k (row_keys row) ->
            In k (first_row_keys results)).
Proof.
  intros Hne. cbv zeta.
  destruct results as [|first rest]; [congruence|].
  unfold getCsvExportStats. cbv zeta.
  cbn [csv_rowCount csv_columnCount first_row_keys].
  set (keys := row_keys (flattenObject first EmptyString 5 0)).
  destruct (csv_columns_keys (first :: rest) 5) as [Hnd Hcols].
  set (columns := csv_columns (first :: rest) 5) in *.
  assert (Hkeys : NoDup keys)
    by (destruct (flattenObject_row first EmptyString 5 0) as [[H _] _]; exact H).
  assert (Hincl : incl keys columns).
  { intros k Hk. apply Hcols.
    exists (flattenObject first EmptyString 5 0). split; [now left | exact Hk]. }
  pose proof (NoDup_incl_length Hkeys Hincl) as Hle.
  split; [reflexivity|]. split; [reflexivity|]. split; [exact Hle|]. split.
  - intros Heq row k Hrow Hk.
    assert (Hback : incl columns keys)
      by (apply (NoDup_length_incl Hkeys); [lia | exact Hincl]).
    apply Hback, Hcols. exists row. split; assumption.
  - intros Hall.
    assert (Hback : incl columns keys).
    { intros k Hk. apply Hcols in Hk. destruct Hk as (row & Hrow & Hk).
      exact (Hall row k Hrow Hk). }
    pose proof (NoDup_incl_length Hnd Hback). lia.
Qed.

(** Two results with different keys: one column counted, two written. *)
Lemma getCsvExportStats_columns_witness :
  let results := [JObj [("a", JNum 1)]; JObj [("b", JNum 2)]] in
  csv_rowCount (getCsvExportStats v8_native_code results) = 2
  /\ csv_columnCount (getCsvExportStats v8_native_code results) = 1
  /\ List.length (csv_columns results 5) = 2.
Proof.
  cbv zeta.
  destruct (getCsvExportStats_columns v8_native_code
              [JObj [("a", JNum 1)]; JObj [("b", JNum 2)]] ltac:(discriminate))
    as (Hrows & Hcount & _).
  split; [exact Hrows|]. split; [exact Hcount | reflexivity].
Defined.
(** ** The description of a built query *)

Lemma all_chars_app (p : ascii -> bool) (a b : string) :
  all_chars p (a ++ b) = all_chars p a && all_chars p b.
Proof.
  induction a as [|c a IH]; simpl; [reflexivity|].
  now rewrite IH, andb_assoc.
Qed.

Lemma all_chars_weaken (p q : ascii -> bool) (s : string) :
  (forall c, p c = true -> q c = true) ->
  all_chars p s = true -> all_chars q s = true.
Proof.
  intros Hpq. induction s as [|c s IH]; simpl; [reflexivity|].
  intros H. apply andb_prop in H. destruct H as [Hc Hs].
  now rewrite (Hpq c Hc), IH.
Qed.

Lemma plain_app (a b : string) : plain a -> plain b -> plain (a ++ b).
Proof. unfold plain. intros Ha Hb. now rewrite all_chars_app, Ha, Hb. Qed.

Lemma plain_join (sep : string) (parts : list string) :
  plain sep -> Forall plain parts -> plain (join sep parts).
Proof.
  intros Hsep H. unfold join.
  induction H as [|x parts Hx Hparts IH]; [reflexivity|].
  destruct parts as [|y parts]; [exact Hx|].
  change (plain (x ++ sep ++ String.concat sep (y :: parts))).
  now repeat apply plain_app.
Qed.

Lemma plain_not_open (s : string) : plain s -> all_chars not_open s = true.
Proof.
  apply all_chars_weaken. intros c H. unfold plain_char, not_open in *.
  unfold is_open_bracket in H.
  destruct (Ascii.eqb c "["); [discriminate | reflexivity].
Qed.

Lemma slice_not_open (s : string) :
  all_chars slice_char s = true -> all_chars not_open s = true.
Proof.
  apply all_chars_weaken. intros c H. unfold slice_char, not_open in *.
  destruct (Ascii.eqb_spec c "[") as [->|_]; [discriminate H | reflexivity].
Qed.

(** *** The text before the slice *)

Lemma buildJsonPathQuery_stem (rootPath : string) (selectedPath : list string)
    (recursiveDescent : bool) :
  plain rootPath -> Forall plain selectedPath ->
  plain (buildJsonPathQuery rootPath selectedPath [] None recursiveDescent)
  /\ is_empty (buildJsonPathQuery rootPath selectedPath [] None recursiveDescent)
     = false.
Proof.
  intros Hroot Hpath. unfold buildJsonPathQuery.
  set (root := if is_empty rootPath then "$" else rootPath).
  assert (Hr : plain root /\ forall rest, is_empty (root ++ rest) = false).
  { subst root. destruct rootPath as [|c r]; cbn [is_empty].
    - split; [reflexivity | intros rest; reflexivity].
    - split; [exact Hroot | intros rest; reflexivity]. }
  destruct Hr as [Hr Hne].
  pose proof (plain_join "." selectedPath eq_refl Hpath) as Hj.
  simpl List.length. cbv iota.
  destruct (0 <? List.length selectedPath);
    rewrite ?andb_true_r, ?andb_false_r;
    [|split; [exact Hr | rewrite <- (str_append_nil_r root); apply Hne]].
  destruct recursiveDescent; cbv iota.
  - destruct (endsWith (root ++ "..") "$"), (negb (endsWith (root ++ "..") ".."));
      rewrite ?str_append_assoc;
      (split; [repeat apply plain_app; auto; reflexivity | apply Hne]).
  - destruct (endsWith root "$"), (negb (endsWith root ".."));
      (split; [repeat apply plain_app; auto; reflexivity | apply Hne]).
Qed.

(** *** The filter expression *)

Lemma plain_condition (index : nat) (f : FilterCondition) :
  plain (filter_property f) -> plain (filter_value f) ->
  plain (filter_condition index f).
Proof.
  intros Hp Hv. unfold filter_condition.
  assert (Hc : plain
                 match filter_logicalOperator f with
                 | Some lop =>
                     if 0 <? index
                     then match lop with AND => " && " | OR => " || " end
                     else EmptyString
                 | None => EmptyString
                 end).
  { destruct (filter_logicalOperator f) as [[|]|], (0 <? index); reflexivity. }
  assert (Hq : plain (if isNaN_Number (filter_value f)
                      then "'" ++ filter_value f ++ "'"
                      else filter_value f)).
  { destruct (isNaN_Number (filter_value f)); [|exact Hv].
    repeat apply plain_app; auto; reflexivity. }
  destruct (filter_operator f);
    repeat apply plain_app; auto; reflexivity.
Qed.

Lemma plain_conditions (filters : list FilterCondition) :
  Forall (fun f => plain (filter_property f) /\ plain (filter_value f)) filters ->
  forall index, Forall plain (map_indexed filter_condition index filters).
Proof.
  induction 1 as [|f filters [Hp Hv] _ IH]; intros index; simpl; constructor.
  - now apply plain_condition.
  - apply IH.
Qed.

(** The filter expression is empty, or a plain text between the opening
    and the closing marks. *)
Lemma generateFilterExpression_shape (filters : list FilterCondition) :
  Forall (fun f => plain (filter_property f) /\ plain (filter_value f)) filters ->
  (filters = [] /\ generateFilterExpression filters = EmptyString)
  \/ (filters <> []
      /\ exists conditions : string,
           plain conditions
           /\ generateFilterExpression filters
              = String "[" (String "?" (String "(" (conditions ++ ")]")))).
Proof.
  intros H. destruct filters as [|f filters]; [left; split; reflexivity|].
  right. split; [discriminate|].
  exists (join "" (map_indexed filter_condition 0 (f :: filters))).
  split; [|reflexivity].
  apply plain_join; [reflexivity | now apply plain_conditions].
Qed.

(** *** Searching past a text without opening bracket *)

Lemma includes_occurs (s needle : string) : includes s needle = occurs needle s.
Proof.
  unfold includes, indexOf. rewrite Nat.min_0_l. cbn [str_drop].
  generalize 0 as k.
  induction s as [|c s IH]; intros k; cbn [indexOf_scan occurs].
  - destruct (String.prefix needle EmptyString); reflexivity.
  - destruct (String.prefix needle (String c s)); [reflexivity|].
    cbn [orb]. apply IH.
Qed.

Lemma occurs_skip (needle : string) (d : ascii) (a b : string) :
  all_chars not_open a = true ->
  occurs (String "[" (String d needle)) (a ++ b)
  = occurs (String "[" (String d needle)) b.
Proof.
  induction a as [|c a IH]; intros H; [reflexivity|].
  cbn [all_chars] in H. apply andb_prop in H. destruct H as [Hc Ha].
  cbn [append occurs String.prefix].
  unfold not_open in Hc. apply negb_true_iff in Hc.
  destruct (ascii_dec "[" c) as [<-|_]; [discriminate Hc|].
  cbn [orb]. now apply IH.
Qed.

Lemma match_items_head (c : ascii) (s : string) :
  not_open c = true -> match_items (String c s) = None.
Proof.
  unfold not_open. intros H. apply negb_true_iff in H.
  destruct (Ascii.eqb_spec c "[") as [->|Hne]; [discriminate|].
  unfold match_items.
  destruct c as [[] [] [] [] [] [] [] []]; try reflexivity.
  congruence.
Qed.

Lemma search_items_skip (a b : string) :
  all_chars not_open a = true -> search_items (a ++ b) = search_items b.
Proof.
  induction a as [|c a IH]; intros H; [reflexivity|].
  cbn [all_chars] in H. apply andb_prop in H. destruct H as [Hc Ha].
  cbn [append search_items]. rewrite (match_items_head c _ Hc).
  now apply IH.
Qed.

Lemma match_filter_head (c : ascii) (s : string) :
  not_open c = true -> match_filter (String c s) = false.
Proof.
  unfold not_open. intros H. apply negb_true_iff in H.
  unfold match_filter. cbn [String.prefix].
  destruct (ascii_dec "[" c) as [<-|_]; [discriminate H | reflexivity].
Qed.

Lemma search_filter_skip (a b : string) :
  all_chars not_open a = true -> search_filter (a ++ b) = search_filter b.
Proof.
  induction a as [|c a IH]; intros H; [reflexivity|].
  cbn [all_chars] in H. apply andb_prop in H. destruct H as [Hc Ha].
  cbn [append search_filter]. rewrite (match_filter_head c _ Hc).
  cbn [orb]. now apply IH.
Qed.

Lemma closes_on_line_plain (conditions : string) :
  plain conditions -> closes_on_line (conditions ++ ")]") = true.
Proof.
  unfold plain. induction conditions as [|c s IH]; intros H; [reflexivity|].
  cbn [all_chars] in H. apply andb_prop in H. destruct H as [Hc Hs].
  cbn [append closes_on_line].
  unfold plain_char in Hc. apply negb_true_iff in Hc.
  apply orb_false_elim in Hc. destruct Hc as [Hc Hlt].
  apply orb_false_elim in Hc. destruct Hc as [_ Hclose].
  unfold is_close_bracket in Hclose. apply orb_false_elim in Hclose.
  destruct Hclose as [_ Hparen]. rewrite Hparen, Hlt. cbn [andb].
  now apply IH.
Qed.

Lemma occurs_cons (needle : string) (c : ascii) (s : string) :
  occurs needle (String c s) = String.prefix needle (String c s) || occurs needle s.
Proof. reflexivity. Qed.

Lemma search_items_cons (c : ascii) (s : string) :
  search_items (String c s)
  = match match_items (String c s) with
    | Some groups => Some groups
    | None => search_items s
    end.
Proof. reflexivity. Qed.

Lemma search_filter_cons (c : ascii) (s : string) :
  search_filter (String c s) = match_filter (String c s) || search_filter s.
Proof. reflexivity. Qed.

(** What the three searches find in the filter expression alone. *)
Lemma filter_expression_searches (filters : list FilterCondition) :
  Forall (fun f => plain (filter_property f) /\ plain (filter_value f)) filters ->
  let expression := generateFilterExpression filters in
  occurs "[*]" expression = false
  /\ search_items expression = None
  /\ search_filter expression = (0 <? List.length filters).
Proof.
  intros H. cbv zeta.
  destruct (generateFilterExpression_shape filters H)
    as [[-> ->]|(Hne & conditions & Hplain & ->)].
  - repeat split; reflexivity.
  - set (inner := String "?" (String "(" (conditions ++ ")]"))).
    assert (Hopen : all_chars not_open inner = true).
    { subst inner. cbn [all_chars]. rewrite all_chars_app, (plain_not_open _ Hplain).
      reflexivity. }
    split; [|split].
    + rewrite occurs_cons.
      replace (String.prefix "[*]" (String "[" inner)) with false by reflexivity.
      cbn [orb]. rewrite <- (str_append_nil_r inner).
      rewrite (occurs_skip "]" "*" _ EmptyString Hopen). reflexivity.
    + rewrite search_items_cons.
      replace (match_items (String "[" inner)) with (@None (string * string))
        by reflexivity.
      rewrite <- (str_append_nil_r inner).
      rewrite (search_items_skip _ EmptyString Hopen). reflexivity.
    + destruct filters as [|f filters]; [congruence|].
      cbn [List.length Nat.ltb Nat.leb].
      rewrite search_filter_cons. unfold match_filter.
      assert (Hp : String.prefix "[?(" (String "[" inner) = true)
        by (subst inner; destruct (conditions ++ ")]"); reflexivity).
      rewrite Hp. subst inner. cbn [str_drop andb].
      rewrite (closes_on_line_plain _ Hplain). reflexivity.
Qed.

(** *** The text of a bound *)

Lemma uint_digits (d : Decimal.uint) :
  all_chars is_digit (NilEmpty.string_of_uint d) = true.
Proof. induction d; simpl; try reflexivity; exact IHd. Qed.

Lemma uint_zero_digits (d : Decimal.uint) :
  exists c s, NilZero.string_of_uint d = String c s
              /\ all_chars is_digit (String c s) = true.
Proof.
  unfold NilZero.string_of_uint.
  destruct d; [exists "0"%char, EmptyString; split; reflexivity|..];
    (eexists; eexists; split; [reflexivity|]);
    cbn [all_chars]; rewrite uint_digits; reflexivity.
Qed.

Lemma string_of_Z_digits (z : Z) :
  (0 <= z)%Z ->
  exists c s, string_of_Z z = String c s /\ all_chars is_digit (String c s) = true.
Proof.
  intros Hz. unfold string_of_Z, NilZero.string_of_int.
  destruct z as [|p|p]; [| |lia]; cbn [Z.to_int]; apply uint_zero_digits.
Qed.

Lemma string_of_Z_negative (z : Z) :
  (z < 0)%Z ->
  exists s, string_of_Z z = String "-" s /\ all_chars is_digit s = true.
Proof.
  intros Hz. unfold string_of_Z, NilZero.string_of_int.
  destruct z as [|p|p]; [lia | lia |]. cbn [Z.to_int].
  destruct (uint_zero_digits (Pos.to_uint p)) as (c & s & E & Hd).
  exists (String c s). split; [|exact Hd]. now rewrite E.
Qed.

Lemma digits_slice (s : string) :
  all_chars is_digit s = true -> all_chars slice_char s = true.
Proof.
  apply all_chars_weaken. intros c H. unfold slice_char. now rewrite H.
Qed.

Lemma slice_bound_chars (x : option Z) :
  all_chars slice_char (slice_bound_text x) = true.
Proof.
  destruct x as [z|]; [|reflexivity]. cbn [slice_bound_text].
  destruct (Z.lt_ge_cases z 0) as [Hneg|Hpos].
  - destruct (string_of_Z_negative z Hneg) as (s & -> & Hd).
    cbn [all_chars]. now rewrite (digits_slice s Hd).
  - destruct (string_of_Z_digits z Hpos) as (c & s & -> & Hd).
    now apply digits_slice.
Qed.

Lemma leading_digits (digits : string) (c : ascii) (rest : string) :
  all_chars is_digit digits = true -> is_digit c = false ->
  take_leading is_digit (digits ++ String c rest) = digits
  /\ drop_leading is_digit (digits ++ String c rest) = String c rest.
Proof.
  intros Hd Hc. unfold take_leading.
  induction digits as [|d ds IH]; cbn [append count_leading drop_leading].
  - rewrite Hc. split; reflexivity.
  - cbn [all_chars] in Hd. apply andb_prop in Hd. destruct Hd as [Hd Hds].
    rewrite Hd. cbn [str_take]. destruct (IH Hds) as [IH1 IH2].
    rewrite IH1, IH2. split; reflexivity.
Qed.

(** The digits that open the text of a bound followed by a character that
    is no digit: the whole text for a bound that is set and not negative,
    nothing otherwise. *)
Lemma leading_bound (x : option Z) (c : ascii) (rest : string) :
  is_digit c = false ->
  if plain_bound x
  then (exists d ds, slice_bound_text x = String d ds)
       /\ take_leading is_digit (slice_bound_text x ++ String c rest)
          = slice_bound_text x
       /\ drop_leading is_digit (slice_bound_text x ++ String c rest)
          = String c rest
  else take_leading is_digit (slice_bound_text x ++ String c rest) = EmptyString.
Proof.
  intros Hc. destruct x as [z|]; cbn [plain_bound slice_bound_text].
  - destruct (Z.leb_spec 0 z) as [Hpos|Hneg].
    + destruct (string_of_Z_digits z Hpos) as (d & ds & E & Hd).
      rewrite E. split; [now exists d, ds|].
      now apply leading_digits.
    + destruct (string_of_Z_negative z Hneg) as (s & -> & _).
      reflexivity.
  - unfold take_leading. cbn [append count_leading]. now rewrite Hc.
Qed.

(** *** The slice *)

Lemma match_items_two (start end_ : option Z) (rest : string) :
  match_items
    (String "[" (slice_bound_text start
                 ++ String ":" (slice_bound_text end_ ++ String "]" rest)))
  = if plain_bound start && plain_bound end_
    then Some (slice_bound_text start, slice_bound_text end_)
    else None.
Proof.
  unfold match_items.
  pose proof (leading_bound start ":" (slice_bound_text end_ ++ String "]" rest)
                eq_refl) as H1.
  pose proof (leading_bound end_ "]" rest eq_refl) as H2.
  destruct (plain_bound start).
  - destruct H1 as ((d & ds & E1) & T1 & D1). rewrite T1, D1, E1.
    rewrite <- E1. destruct (plain_bound end_).
    + destruct H2 as ((e & es & E2) & T2 & D2). rewrite T2, D2, E2.
      reflexivity.
    + rewrite H2. reflexivity.
  - rewrite H1. reflexivity.
Qed.

Lemma match_items_three (start end_ step : option Z) (rest : string) :
  match_items
    (String "[" (slice_bound_text start
                 ++ String ":" (slice_bound_text end_
                                ++ String ":" (slice_bound_text step
                                               ++ String "]" rest))))
  = None.
Proof.
  unfold match_items.
  pose proof (leading_bound start ":"
                (slice_bound_text end_
                 ++ String ":" (slice_bound_text step ++ String "]" rest))
                eq_refl) as H1.
  pose proof (leading_bound end_ ":" (slice_bound_text step ++ String "]" rest)
                eq_refl) as H2.
  destruct (plain_bound start).
  - destruct H1 as ((d & ds & E1) & T1 & D1). rewrite T1, D1, E1.
    destruct (plain_bound end_).
    + destruct H2 as ((e & es & E2) & T2 & D2). rewrite T2, D2, E2.
      reflexivity.
    + rewrite H2. reflexivity.
  - rewrite H1. reflexivity.
Qed.

(** The notation of a slice: the wildcard, or an opening bracket followed by
    a text of digits, signs, colons and the closing bracket at which the
    slice pattern matches, or not, as the bounds tell. *)
Lemma generateArraySlice_shape (slice : ArraySlice) :
  (slice_wildcard (Some slice) = true /\ generateArraySlice slice = "[*]")
  \/ (slice_wildcard (Some slice) = false
      /\ exists (c : ascii) (tail : string),
           generateArraySlice slice = String "[" (String c tail)
           /\ all_chars slice_char (String c tail) = true
           /\ forall rest,
                match_items (String "[" (String c tail ++ rest))
                = slice_items (Some slice)).
Proof.
  unfold generateArraySlice, slice_wildcard, slice_items.
  pose proof (slice_bound_chars (slice_start slice)) as Hs.
  pose proof (slice_bound_chars (slice_end slice)) as He.
  pose proof (slice_bound_chars (slice_step slice)) as Ht.
  destruct (truthy_int (slice_step slice)); cbn [negb andb].
  - right. split; [reflexivity|].
    set (text := slice_bound_text (slice_start slice) ++ ":"
                 ++ slice_bound_text (slice_end slice) ++ ":"
                 ++ slice_bound_text (slice_step slice) ++ "]").
    assert (Hall : all_chars slice_char text = true).
    { subst text. rewrite !all_chars_app, Hs, He, Ht. reflexivity. }
    assert (Hitems : forall rest, match_items (String "[" (text ++ rest)) = None).
    { intros rest. subst text. rewrite !str_append_assoc.
      apply match_items_three. }
    destruct text as [|c tail] eqn:E.
    + exfalso. subst text.
      destruct (slice_bound_text (slice_start slice)); discriminate E.
    + exists c, tail. split; [reflexivity|]. split; [exact Hall | exact Hitems].
  - destruct (not_empty_text (slice_start slice)
              || not_empty_text (slice_end slice)) eqn:Eset; cbn [negb].
    + right. split; [reflexivity|].
      set (text := slice_bound_text (slice_start slice) ++ ":"
                   ++ slice_bound_text (slice_end slice) ++ "]").
      assert (Hall : all_chars slice_char text = true).
      { subst text. rewrite !all_chars_app, Hs, He. reflexivity. }
      assert (Hitems : forall rest,
                 match_items (String "[" (text ++ rest))
                 = if plain_bound (slice_start slice)
                      && plain_bound (slice_end slice)
                   then Some (slice_bound_text (slice_start slice),
                              slice_bound_text (slice_end slice))
                   else None).
      { intros rest. subst text. rewrite !str_append_assoc.
        apply match_items_two. }
      destruct text as [|c tail] eqn:E.
      * exfalso. subst text.
        destruct (slice_bound_text (slice_start slice)); discriminate E.
      * exists c, tail. split; [reflexivity|]. split; [exact Hall | exact Hitems].
    + left. split; reflexivity.
Qed.

Lemma prefix_empty (s : string) : String.prefix EmptyString s = true.
Proof. destruct s; reflexivity. Qed.

(** What the three searches find after the stem of a built query. *)
Lemma slice_and_filter_searches (arraySlice : option ArraySlice)
    (filters : list FilterCondition) :
  Forall (fun f => plain (filter_property f) /\ plain (filter_value f)) filters ->
  let rest :=
    match arraySlice with
    | Some slice => generateArraySlice slice
    | None => EmptyString
    end ++ generateFilterExpression filters in
  occurs "[*]" rest = slice_wildcard arraySlice
  /\ search_items rest = slice_items arraySlice
  /\ search_filter rest = (0 <? List.length filters).
Proof.
  intros H. cbv zeta.
  destruct (filter_expression_searches filters H) as (F1 & F2 & F3).
  set (expression := generateFilterExpression filters) in *.
  destruct arraySlice as [slice|]; [|cbn [append]; repeat split; assumption].
  destruct (generateArraySlice_shape slice)
    as [[Hw ->]|(Hw & c & tail & -> & Hall & Hitems)]; rewrite Hw.
  - assert (Hnone : slice_items (Some slice) = None).
    { unfold slice_wildcard in Hw. unfold slice_items.
      destruct (truthy_int (slice_step slice)); [discriminate|].
      destruct (slice_start slice); [discriminate | reflexivity]. }
    rewrite Hnone.
    change ("[*]" ++ expression) with (String "[" ("*]" ++ expression)).
    split; [|split].
    + rewrite occurs_cons. cbn [append String.prefix].
      destruct (ascii_dec "[" "["); [|congruence].
      destruct (ascii_dec "*" "*"); [|congruence].
      destruct (ascii_dec "]" "]"); [|congruence].
      now rewrite prefix_empty.
    + rewrite search_items_cons.
      replace (match_items (String "[" ("*]" ++ expression)))
        with (@None (string * string)) by reflexivity.
      rewrite search_items_skip by reflexivity. exact F2.
    + rewrite search_filter_cons.
      replace (match_filter (String "[" ("*]" ++ expression))) with false
        by reflexivity.
      rewrite search_filter_skip by reflexivity. exact F3.
  - pose proof (slice_not_open _ Hall) as Hopen.
    cbn [all_chars] in Hall. apply andb_prop in Hall. destruct Hall as [Hc _].
    change (String "[" (String c tail) ++ expression)
      with (String "[" (String c tail ++ expression)).
    split; [|split].
    + rewrite occurs_cons.
      assert (Hp : String.prefix "[*]" (String "[" (String c tail ++ expression))
                   = false).
      { cbn [append String.prefix]. destruct (ascii_dec "[" "["); [|congruence].
        destruct (ascii_dec "*" c) as [<-|_]; [discriminate Hc | reflexivity]. }
      rewrite Hp. cbn [orb].
      rewrite (occurs_skip "]" "*" _ _ Hopen). exact F1.
    + rewrite search_items_cons, Hitems.
      destruct (slice_items (Some slice)); [reflexivity|].
      rewrite (search_items_skip _ _ Hopen). exact F2.
    + rewrite search_filter_cons.
      assert (Hp : match_filter (String "[" (String c tail ++ expression)) = false).
      { unfold match_filter. cbn [append String.prefix].
        destruct (ascii_dec "[" "["); [|congruence].
        destruct (ascii_dec "?" c) as [<-|_]; [discriminate Hc | reflexivity]. }
      rewrite Hp. cbn [orb].
      rewrite (search_filter_skip _ _ Hopen). exact F3.
Qed.

Lemma is_empty_app (a b : string) : is_empty a = false -> is_empty (a ++ b) = false.
Proof. destruct a; [discriminate | reflexivity]. Qed.

(** X21. The description of a query built from a root path, path segments,
    and filter properties and values without bracket, parenthesis or line
    break: it tells of all array items exactly when the slice has no bound
    and its step is absent or 0, of the items from one bound to the other
    exactly when both bounds are set and not negative and the step is absent
    or 0, and of filters exactly when there is a filter (a step of 0 is not
    written into the query, so the slice {start 1, end 5, step 0} is told as
    the items 1 to 5); a recursive search is told whenever the
    query holds two dots in a row.  The parts come in this order, joined by
    commas; without any part the description is that of a property
    selection, and the query that is the dollar sign alone is the root
    object. *)
Theorem getQueryDescription_built (rootPath : string) (selectedPath : list string)
    (filters : list FilterCondition) (arraySlice : option ArraySlice)
    (recursiveDescent : bool) :
  plain rootPath ->
  Forall plain selectedPath ->
  Forall (fun f => plain (filter_property f) /\ plain (filter_value f)) filters ->
  let query :=
    buildJsonPathQuery rootPath selectedPath filters arraySlice recursiveDescent in
  let parts := built_parts query filters arraySlice in
  description_parts query = parts
  /\ getQueryDescription query
     = if String.eqb query "$" then "Root object"
       else if List.length parts =? 0 then "Property selection"
            else join ", " parts.
Proof.
  intros Hroot Hpath Hfilters. cbv zeta.
  destruct (buildJsonPathQuery_stem rootPath selectedPath recursiveDescent
              Hroot Hpath) as [Hstem Hne].
  destruct (slice_and_filter_searches arraySlice filters Hfilters)
    as (S1 & S2 & S3).
  pose proof (plain_not_open _ Hstem) as Hopen.
  assert (Hparts :
    description_parts
      (buildJsonPathQuery rootPath selectedPath filters arraySlice recursiveDescent)
    = built_parts
        (buildJsonPathQuery rootPath selectedPath filters arraySlice
           recursiveDescent) filters arraySlice).
  { unfold description_parts, built_parts. cbv zeta.
    set (query := buildJsonPathQuery rootPath selectedPath filters arraySlice
                    recursiveDescent).
    assert (E : query
                = buildJsonPathQuery rootPath selectedPath [] None recursiveDescent
                  ++ (match arraySlice with
                      | Some slice => generateArraySlice slice
                      | None => EmptyString
                      end ++ generateFilterExpression filters))
      by apply buildJsonPathQuery_parts.
    assert (E1 : includes query "[*]" = slice_wildcard arraySlice).
    { rewrite includes_occurs, E, (occurs_skip "]" "*" _ _ Hopen). exact S1. }
    assert (E2 : search_items query = slice_items arraySlice).
    { rewrite E, (search_items_skip _ _ Hopen). exact S2. }
    assert (E3 : search_filter query = (0 <? List.length filters)).
    { rewrite E, (search_filter_skip _ _ Hopen). exact S3. }
    rewrite E1, E2, E3. unfold push.
    destruct (includes query ".."), (slice_wildcard arraySlice),
      (slice_items arraySlice) as [[first last]|], (0 <? List.length filters);
      reflexivity. }
  split; [exact Hparts|].
  unfold getQueryDescription. rewrite Hparts.
  assert (Hq : is_empty (buildJsonPathQuery rootPath selectedPath filters
                           arraySlice recursiveDescent) = false).
  { rewrite buildJsonPathQuery_parts. now apply is_empty_app. }
  rewrite Hq. reflexivity.
Qed.

(** A recursive query with a path, the slice from 0 to 5 and one filter. *)
Lemma getQueryDescription_built_witness :
  getQueryDescription
    (buildJsonPathQuery "$" ["store"; "book"] [mkFilter "1" "price" OpLt "10" None]
       (Some (mkSlice (Some 0%Z) (Some 5%Z) None)) true)
  = "Recursive search, Items 0 to 5, with filters".
Proof.
  destruct (getQueryDescription_built "$" ["store"; "book"]
              [mkFilter "1" "price" OpLt "10" None]
              (Some (mkSlice (Some 0%Z) (Some 5%Z) None)) true)
    as [_ H].
  - reflexivity.
  - repeat constructor.
  - repeat constructor.
  - rewrite H. reflexivity.
Defined.
(** ** Search: what is found *)

Lemma positive_length_app {A : Type} (a b : list A) :
  (0 <? List.length (a ++ b)%list) = (0 <? List.length a) || (0 <? List.length b).
Proof. destruct a, b; reflexivity. Qed.

Lemma searchValue_found (caseSensitive : bool) (searchNormalized : string)
    (value : JSON) :
  forall path : list string,
  (0 <? List.length (searchValue caseSensitive searchNormalized value path []))
  = mentions caseSensitive searchNormalized value.
Proof.
  induction value as [| |b|n|s|items IH|entries IH] using JSON_nested_ind;
    intros path.
  1-5: cbn [searchValue mentions]; unfold search_leaf, normalize, push;
    match goal with |- context [if includes ?h ?t then _ else _] =>
      destruct (includes h t) end; reflexivity.
  - cbn [searchValue mentions].
    assert (Hloop : forall (index : nat) (matches : list SearchMatch),
      (0 <? List.length
              ((fix each (items : list JSON) (index : nat)
                    (matches : list SearchMatch) {struct items}
                  : list SearchMatch :=
                  match items with
                  | [] => matches
                  | item :: rest =>
                      each rest (S index)
                        (searchValue caseSensitive searchNormalized item
                           (path ++ [index_token index])%list matches)
                  end) items index matches))
      = (0 <? List.length matches)
        || existsb (mentions caseSensitive searchNormalized) items).
    { induction IH as [|item items Hitem _ IHitems]; intros index matches.
      - cbn [existsb]. now rewrite orb_false_r.
      - rewrite IHitems. cbn [existsb].
        rewrite (searchValue_appends _ _ item), positive_length_app, Hitem.
        now rewrite orb_assoc. }
    apply (Hloop 0 []).
  - cbn [searchValue mentions].
    assert (Hloop : forall matches : list SearchMatch,
      (0 <? List.length
              ((fix each (entries : list (string * JSON))
                    (matches : list SearchMatch) {struct entries}
                  : list SearchMatch :=
                  match entries with
                  | [] => matches
                  | (key, val) :: rest =>
                      let keyCompare :=
                        if caseSensitive then key else toLowerCase key in
                      let matches :=
                        if includes keyCompare searchNormalized
                        then push matches (mkMatch (path ++ [key])%list val key)
                        else matches in
                      each rest
                        (searchValue caseSensitive searchNormalized val
                           (path ++ [key])%list matches)
                  end) entries matches))
      = (0 <? List.length matches)
        || existsb
             (fun kv : string * JSON =>
                let (key, val) := kv in
                includes (normalize caseSensitive key) searchNormalized
                || mentions caseSensitive searchNormalized val)
             entries).
    { induction IH as [|[key val] entries Hval _ IHentries]; intros matches.
      - cbn [existsb]. now rewrite orb_false_r.
      - cbv zeta. rewrite IHentries. cbn [existsb snd] in *.
        rewrite (searchValue_appends _ _ val), positive_length_app, Hval.
        unfold normalize, push.
        destruct (includes (if caseSensitive then key else toLowerCase key)
                    searchNormalized);
          rewrite ?positive_length_app; cbn [List.length Nat.ltb Nat.leb orb];
          rewrite ?orb_true_r, ?orb_assoc; reflexivity. }
    apply (Hloop []).
Qed.

(** X22. What the search finds: for a term that is not empty,
    [recursiveSearch] reports a match exactly when the data mentions the
    term, that is when a key of an object in it, or the print of a
    primitive, of [null] or of [undefined] in it, contains the term, up to
    case unless the search is case-sensitive; and [filterResults] keeps
    exactly the results that mention the term, in their order. *)
Theorem recursiveSearch_complete (searchTerm : string) (caseSensitive : bool) :
  searchTerm <> EmptyString ->
  (forall (data : JSON) (currentPath : list string),
     (0 <? List.length (recursiveSearch data searchTerm caseSensitive currentPath))
     = mentions caseSensitive (normalize caseSensitive searchTerm) data)
  /\ (forall results : list JSON,
        filterResults results searchTerm caseSensitive
        = filter (mentions caseSensitive (normalize caseSensitive searchTerm))
            results).
Proof.
  intros Hne.
  assert (Hfound : forall (data : JSON) (currentPath : list string),
            (0 <? List.length
                    (recursiveSearch data searchTerm caseSensitive currentPath))
            = mentions caseSensitive (normalize caseSensitive searchTerm) data).
  { intros data currentPath. unfold recursiveSearch.
    destruct (is_empty searchTerm) eqn:E; [apply is_empty_true in E; contradiction|].
    apply searchValue_found. }
  split; [exact Hfound|].
  intros results. unfold filterResults.
  destruct (is_empty searchTerm) eqn:E; [apply is_empty_true in E; contradiction|].
  apply filter_indexed. intros i r. cbn [fst snd]. apply Hfound.
Qed.

(** A key that matches up to case, two levels down. *)
Lemma recursiveSearch_complete_witness :
  filterResults
    [JObj [("car", JObj [("Brand", JStr "Audi")])]; JNum 7; JArr [JStr "brandy"]]
    "brand" false
  = [JObj [("car", JObj [("Brand", JStr "Audi")])]; JArr [JStr "brandy"]].
Proof.
  destruct (recursiveSearch_complete "brand" false ltac:(discriminate)) as [_ H].
  rewrite H. reflexivity.
Defined.
(** ** debounce *)

Section DebounceFacts.

Context {A : Type}.

Lemma run_due_idle (now : Z) (st : @DebounceState A) :
  db_timers st = [] -> db_timeout st = None -> run_due now st = st.
Proof.
  intros Ht Ho. unfold run_due. rewrite Ht. cbn [filter fold_left].
  destruct st as [timeout timers next ran]. cbn in *. now subst.
Qed.

Lemma executedFunction_idle (wait now : Z) (args : A) (st : @DebounceState A) :
  db_timers st = [] -> db_timeout st = None ->
  armed (executedFunction wait now args st) (now + Z.max 0 wait) args
  /\ db_ran (executedFunction wait now args st) = db_ran st.
Proof.
  intros Ht Ho. unfold executedFunction, armed. rewrite Ht, Ho.
  cbn [db_timers db_timeout db_ran push app]. split; [|reflexivity].
  now exists (db_next st).
Qed.

Lemma executedFunction_armed (wait now due : Z) (args old : A)
    (st : @DebounceState A) :
  armed st due old ->
  armed (executedFunction wait now args st) (now + Z.max 0 wait) args
  /\ db_ran (executedFunction wait now args st) = db_ran st.
Proof.
  intros (handle & Ht & Ho). unfold executedFunction, armed. rewrite Ht, Ho.
  unfold clearTimeout. cbn [filter timer_handle]. rewrite Nat.eqb_refl.
  cbn [negb db_timers db_timeout db_ran push app]. split; [|reflexivity].
  now exists (db_next st).
Qed.

Lemma run_due_armed (now due : Z) (args : A) (st : @DebounceState A) :
  armed st due args ->
  if (due <=? now)%Z
  then db_timers (run_due now st) = [] /\ db_timeout (run_due now st) = None
       /\ db_ran (run_due now st) = push (db_ran st) args
  else armed (run_due now st) due args /\ db_ran (run_due now st) = db_ran st.
Proof.
  intros (handle & Ht & Ho). unfold run_due, armed. rewrite Ht.
  cbn [filter timer_due]. destruct (due <=? now)%Z; cbn [negb fold_left].
  - unfold later. cbn [db_timers db_timeout db_ran timer_args].
    repeat split; reflexivity.
  - cbn [db_timers db_timeout db_ran]. split; [|reflexivity].
    now exists handle.
Qed.

(** The calls of [func] after a sequence of calls, from a state in which a
    timer is set. *)
Lemma run_calls_armed (wait final : Z) (calls : list (Z * A)) :
  forall (st : @DebounceState A) (now : Z) (args : A),
  armed st (now + Z.max 0 wait) args ->
  let st' := run_due final (run_calls wait calls st) in
  db_ran st' = (db_ran st ++ trailing wait ((now, args) :: calls) final)%list
  /\ settled st'
  /\ (db_timers st' <> [] -> Forall (fun t => final < timer_due t)%Z (db_timers st')).
Proof.
  induction calls as [|[t a] rest IH]; intros st now args Harmed; cbv zeta.
  - cbn [run_calls trailing].
    pose proof (run_due_armed final _ _ st Harmed) as H.
    destruct (Z.leb_spec (now + Z.max 0 wait) final) as [Hle|Hgt].
    + destruct H as (Ht & Ho & Hr). rewrite Hr. unfold push.
      split; [reflexivity|]. split; [left; split; assumption|].
      intros Hne. contradiction.
    + destruct H as ((handle & Ht & Ho) & Hr). rewrite Hr, app_nil_r.
      split; [reflexivity|]. split.
      * right. exists (mkTimer handle (now + Z.max 0 wait) args).
        split; assumption.
      * intros _. rewrite Ht. constructor; [exact Hgt | constructor].
  - cbn [run_calls]. cbn [trailing].
    pose proof (run_due_armed t _ _ st Harmed) as H.
    destruct (now + Z.max 0 wait <=? t)%Z.
    + destruct H as (Ht & Ho & Hr).
      destruct (executedFunction_idle wait t a _ Ht Ho) as [Harmed' Hran].
      destruct (IH _ t a Harmed') as (IH1 & IH2 & IH3).
      rewrite IH1, Hran, Hr. unfold push. rewrite <- app_assoc.
      split; [reflexivity|]. split; assumption.
    + destruct H as (Harmed1 & Hr).
      destruct (executedFunction_armed wait t _ a args _ Harmed1) as [Harmed' Hran].
      destruct (IH _ t a Harmed') as (IH1 & IH2 & IH3).
      rewrite IH1, Hran, Hr.
      split; [reflexivity|]. split; assumption.
Qed.

End DebounceFacts.

(** X23. The debounced function, on a platform that runs a timer once its
    time has come: after any sequence of calls at non-decreasing times,
    [func] has been called exactly for the calls that no other call followed
    before their delay had passed, with the arguments of those calls and in
    their order; a call that is followed sooner never reaches [func].  At
    every such moment at most one timer is set, the one that [timeout] holds,
    and it is not due yet. *)
Theorem debounce_trailing {A : Type} (wait final : Z) (calls : list (Z * A)) :
  StronglySorted (fun x y => (fst x <= fst y)%Z) calls ->
  Forall (fun x => (fst x <= final)%Z) calls ->
  let st := run_due final (run_calls wait calls debounce_initial) in
  db_ran st = trailing wait calls final
  /\ settled st
  /\ Forall (fun t => (final < timer_due t)%Z) (db_timers st).
Proof.
  intros _ _. cbv zeta.
  destruct calls as [|[t a] rest].
  - cbn [run_calls trailing]. rewrite run_due_idle by reflexivity.
    split; [reflexivity|]. split; [left; split; reflexivity | constructor].
  - cbn [run_calls]. rewrite (run_due_idle t debounce_initial) by reflexivity.
    destruct (executedFunction_idle wait t a debounce_initial eq_refl eq_refl)
      as [Harmed Hran].
    destruct (run_calls_armed wait final rest _ t a Harmed) as (H1 & H2 & H3).
    rewrite H1, Hran. split; [reflexivity|]. split; [exact H2|].
    destruct (db_timers (run_due final (run_calls wait rest
                (executedFunction wait t a debounce_initial)))) eqn:E;
      [constructor | apply H3; discriminate].
Qed.

(** Three keystrokes in a burst and one later, looked at before the delay
    of the last has passed: only the burst's last keystroke has run. *)
Lemma debounce_trailing_witness :
  db_ran (run_due 1000
            (run_calls 300 [(0, "a"); (100, "ab"); (250, "abc"); (900, "x")]%Z
               debounce_initial))
  = ["abc"].
Proof.
  destruct (debounce_trailing 300 1000
              [(0, "a"); (100, "ab"); (250, "abc"); (900, "x")]%Z) as [H _].
  - repeat constructor; cbn; lia.
  - repeat constructor; cbn; lia.
  - rewrite H. reflexivity.
Defined.
